(** * NanoChessTurbo: a shallow embedding of the one-file chess engine

    The engine of [src/main.cpp] is embedded function by function:
    64-bit bitboards are integers of [Z] in [0, 2^64), the [int] fields
    (squares, sides, piece kinds, scores, depths) are integers of [Z],
    arrays are total functions of their indices, and the global tables
    (transposition table, history, killers, counters) are threaded
    through the search as an explicit state. *)

From Stdlib Require Import ZArith List Bool Lia Btauto Permutation.
Import ListNotations.
Local Open Scope Z_scope.

(* ================================================================== *)
(** ** Constants and enumerations *)

Definition PAWN : Z := 0.
Definition KNIGHT : Z := 1.
Definition BISHOP : Z := 2.
Definition ROOK : Z := 3.
Definition QUEEN : Z := 4.
Definition KING : Z := 5.

Definition WHITE : Z := 0.
Definition BLACK : Z := 1.

Definition INF : Z := 999999.
Definition MATE : Z := 100000.
Definition MAX_QUIESCENCE_DEPTH : Z := 6.
Definition TT_SIZE : Z := Z.shiftl 1 20.

Definition TT_EXACT : Z := 0.
Definition TT_ALPHA : Z := 1.
Definition TT_BETA : Z := 2.

(** The loops [for (c = 0; c < 2; c++)] and [for (p = PAWN; p <= KING; p++)]. *)
Definition sides : list Z := [WHITE; BLACK].
Definition kinds : list Z := [PAWN; KNIGHT; BISHOP; ROOK; QUEEN; KING].

(* ================================================================== *)
(** ** 64-bit words *)

Module U64.

Definition modulus : Z := 2 ^ 64.

Definition in_range (x : Z) : Prop := 0 <= x < modulus.

(** [1ULL << sq]. *)
Definition bit (sq : Z) : Z := Z.shiftl 1 sq.

(** [~x] on an unsigned 64-bit word. *)
Definition lnot (x : Z) : Z := Z.ldiff (Z.ones 64) x.

(** The square numbers 0..63, in increasing order. *)
Fixpoint squares_from (n : nat) (i : Z) : list Z :=
  match n with
  | O => []
  | S n' => i :: squares_from n' (i + 1)
  end.

Definition squares : list Z := squares_from 64 0.

(** [__builtin_ctzll]: the index of the lowest set bit (64 stands for the
    undefined result at 0). *)
Fixpoint ctz_from (n : nat) (i : Z) (x : Z) : Z :=
  match n with
  | O => i
  | S n' => if Z.testbit x i then i else ctz_from n' (i + 1) x
  end.

Definition ctzll (x : Z) : Z := ctz_from 64 0 x.

(** The set bits of a word, lowest first. *)
Definition bits (x : Z) : list Z := filter (Z.testbit x) squares.

(** [__builtin_popcountll]. *)
Definition popcountll (x : Z) : Z := Z.of_nat (length (bits x)).

(** The loop
    [while (bb) { sq = __builtin_ctzll(bb); body; bb &= bb - 1; }]
    with the loop-carried variables in [acc]. *)
Fixpoint bitloop {A : Type} (body : Z -> A -> A) (fuel : nat) (bb : Z) (acc : A) : A :=
  match fuel with
  | O => acc
  | S n =>
      if bb =? 0 then acc
      else bitloop body n (Z.land bb (bb - 1)) (body (ctzll bb) acc)
  end.

Definition for_bits {A : Type} (body : Z -> A -> A) (bb : Z) (acc : A) : A :=
  bitloop body 64 bb acc.

End U64.


(* ================================================================== *)
(** ** Lookup tables ([initTables]) *)

(** Array cells: [a[i] = v] and [a[i][j] = v]. *)
Definition upd1 {A : Type} (a : Z -> A) (i : Z) (v : A) : Z -> A :=
  fun i' => if i' =? i then v else a i'.

Definition upd2 {A : Type} (a : Z -> Z -> A) (i j : Z) (v : A) : Z -> Z -> A :=
  fun i' j' => if (i' =? i) && (j' =? j) then v else a i' j'.

Definition on_board (nx ny : Z) : bool :=
  (nx >=? 0) && (nx <? 8) && (ny >=? 0) && (ny <? 8).

Definition KingMoves_init (sq : Z) : Z :=
  let x := Z.rem sq 8 in
  let y := Z.quot sq 8 in
  fold_left (fun acc dx =>
    fold_left (fun acc dy =>
      if (dx =? 0) && (dy =? 0) then acc
      else
        let nx := x + dx in
        let ny := y + dy in
        if on_board nx ny then Z.lor acc (U64.bit (ny * 8 + nx)) else acc)
      [-1; 0; 1] acc)
    [-1; 0; 1] 0.

Definition kdx : list Z := [2; 2; -2; -2; 1; 1; -1; -1].
Definition kdy : list Z := [1; -1; 1; -1; 2; -2; 2; -2].

Definition KnightMoves_init (sq : Z) : Z :=
  let x := Z.rem sq 8 in
  let y := Z.quot sq 8 in
  fold_left (fun acc d =>
      let nx := x + fst d in
      let ny := y + snd d in
      if on_board nx ny then Z.lor acc (U64.bit (ny * 8 + nx)) else acc)
    (combine kdx kdy) 0.

(** The two global arrays as [initTables] leaves them. *)
Definition KingMoves_table : list Z :=
  Eval vm_compute in map KingMoves_init U64.squares.
Definition KnightMoves_table : list Z :=
  Eval vm_compute in map KnightMoves_init U64.squares.

Definition KingMoves (sq : Z) : Z := nth (Z.to_nat sq) KingMoves_table 0.
Definition KnightMoves (sq : Z) : Z := nth (Z.to_nat sq) KnightMoves_table 0.

(* ================================================================== *)
(** ** Zobrist keys

    [initZobrist] fills the key tables from the C library's [rand()]
    after [srand(12345)]; the values depend on the platform, so the
    tables are a parameter of the development. *)

Class ZobristKeys : Type := {
  zobristPieces : Z -> Z -> Z -> Z;
  zobristCastle : Z -> Z;
  zobristEp : Z -> Z;
  zobristSide : Z
}.

(* ================================================================== *)
(** ** Board and moves *)

Record Board : Type := mkBoard {
  pieces : Z -> Z -> Z;
  occupied : Z -> Z;
  all : Z;
  side : Z;
  ep : Z;
  castle : Z;
  hash : Z
}.

Record Move : Type := mkMove {
  from : Z;
  to : Z;
  score : Z;
  piece : Z;
  captured : Z;
  promo : Z
}.

(** [Move(f, t, p, c = -1, pr = 0)], with [score(0)]. *)
Definition Move_new (f t p c pr : Z) : Move := mkMove f t 0 p c pr.
Definition Move_default : Move := Move_new 0 0 0 (-1) 0.

(** [Move::operator==]. *)
Definition Move_eq (m other : Move) : bool :=
  (from m =? from other) && (to m =? to other) && (promo m =? promo other).

Definition set_pieces (b : Board) (v : Z -> Z -> Z) : Board :=
  mkBoard v (occupied b) (all b) (side b) (ep b) (castle b) (hash b).
Definition set_side (b : Board) (v : Z) : Board :=
  mkBoard (pieces b) (occupied b) (all b) v (ep b) (castle b) (hash b).
Definition set_ep (b : Board) (v : Z) : Board :=
  mkBoard (pieces b) (occupied b) (all b) (side b) v (castle b) (hash b).
Definition set_castle (b : Board) (v : Z) : Board :=
  mkBoard (pieces b) (occupied b) (all b) (side b) (ep b) v (hash b).
Definition set_hash (b : Board) (v : Z) : Board :=
  mkBoard (pieces b) (occupied b) (all b) (side b) (ep b) (castle b) v.

(** [b.pieces[c][p] ^= mask] and [b.hash ^= key]. *)
Definition xor_pieces (b : Board) (c p mask : Z) : Board :=
  set_pieces b (upd2 (pieces b) c p (Z.lxor (pieces b c p) mask)).
Definition xor_hash (b : Board) (key : Z) : Board :=
  set_hash b (Z.lxor (hash b) key).

(** [Board::update]. *)
Definition update (b : Board) : Board :=
  let occW := fold_left (fun o p => Z.lor o (pieces b WHITE p)) kinds 0 in
  let occB := fold_left (fun o p => Z.lor o (pieces b BLACK p)) kinds 0 in
  mkBoard (pieces b) (upd1 (upd1 (occupied b) WHITE occW) BLACK occB)
          (Z.lor occW occB) (side b) (ep b) (castle b) (hash b).

(** [Board::evaluate]; [eval_white] is the score before the final sign. *)
Definition values (p : Z) : Z := nth (Z.to_nat p) [100; 320; 330; 500; 900; 0] 0.

Definition center : Z := 0x0000001818000000.

Definition eval_material (b : Board) (eval : Z) : Z :=
  fold_left (fun eval c =>
    fold_left (fun eval p =>
      let count := U64.popcountll (pieces b c p) in
      eval + (if c =? WHITE then count else - count) * values p)
      kinds eval)
    sides eval.

Definition eval_king (b : Board) (eval : Z) : Z :=
  fold_left (fun eval c =>
    if pieces b c KING =? 0 then eval
    else
      let king_sq := U64.ctzll (pieces b c KING) in
      if c =? WHITE then
        if (king_sq =? 6) || (king_sq =? 2) then eval + 40
        else if king_sq =? 4 then eval - 20 else eval
      else
        if (king_sq =? 62) || (king_sq =? 58) then eval - 40
        else if king_sq =? 60 then eval + 20 else eval)
    sides eval.

Definition eval_center (b : Board) (eval : Z) : Z :=
  eval + (U64.popcountll (Z.land (pieces b WHITE PAWN) center) -
          U64.popcountll (Z.land (pieces b BLACK PAWN) center)) * 20.

Definition eval_wpawns (b : Board) (eval : Z) : Z :=
  U64.for_bits (fun sq eval =>
      let rank := Z.quot sq 8 in
      if rank >=? 4 then eval + (rank - 3) * 15 else eval)
    (pieces b WHITE PAWN) eval.

Definition eval_bpawns (b : Board) (eval : Z) : Z :=
  U64.for_bits (fun sq eval =>
      let rank := Z.quot sq 8 in
      if rank <=? 3 then eval - (4 - rank) * 15 else eval)
    (pieces b BLACK PAWN) eval.

Definition eval_white (b : Board) : Z :=
  let eval := 0 in
  let eval := eval_material b eval in
  let eval := eval_king b eval in
  let eval := eval_center b eval in
  let eval := eval_wpawns b eval in
  let eval := eval_bpawns b eval in
  eval.

Definition evaluate (b : Board) : Z :=
  let eval := eval_white b in
  if side b =? WHITE then eval else - eval.

(* ================================================================== *)
(** ** Attack generation *)

(** One of the ray loops of [get_rook_attacks] and [get_bishop_attacks]:
    [for (...; cond; r += dr, f += df) { attacks |= bit; if (bit & blockers) break; }]. *)
Fixpoint ray_loop (cond : Z -> Z -> bool) (dr df : Z) (fuel : nat)
    (r f blockers attacks : Z) : Z :=
  match fuel with
  | O => attacks
  | S n =>
      if cond r f then
        let attacks := Z.lor attacks (U64.bit (r * 8 + f)) in
        if Z.land (U64.bit (r * 8 + f)) blockers =? 0
        then ray_loop cond dr df n (r + dr) (f + df) blockers attacks
        else attacks
      else attacks
  end.

Definition get_rook_attacks (sq blockers : Z) : Z :=
  let attacks := 0 in
  let tr := Z.quot sq 8 in
  let tf := Z.rem sq 8 in
  let attacks := ray_loop (fun r _ => r <=? 7) 1 0 8 (tr + 1) tf blockers attacks in
  let attacks := ray_loop (fun r _ => r >=? 0) (-1) 0 8 (tr - 1) tf blockers attacks in
  let attacks := ray_loop (fun _ f => f <=? 7) 0 1 8 tr (tf + 1) blockers attacks in
  let attacks := ray_loop (fun _ f => f >=? 0) 0 (-1) 8 tr (tf - 1) blockers attacks in
  attacks.

Definition get_bishop_attacks (sq blockers : Z) : Z :=
  let attacks := 0 in
  let tr := Z.quot sq 8 in
  let tf := Z.rem sq 8 in
  let attacks :=
    ray_loop (fun r f => (r <=? 7) && (f <=? 7)) 1 1 8 (tr + 1) (tf + 1) blockers attacks in
  let attacks :=
    ray_loop (fun r f => (r <=? 7) && (f >=? 0)) 1 (-1) 8 (tr + 1) (tf - 1) blockers attacks in
  let attacks :=
    ray_loop (fun r f => (r >=? 0) && (f <=? 7)) (-1) 1 8 (tr - 1) (tf + 1) blockers attacks in
  let attacks :=
    ray_loop (fun r f => (r >=? 0) && (f >=? 0)) (-1) (-1) 8 (tr - 1) (tf - 1) blockers attacks in
  attacks.

(** [x & y] used as a condition. *)
Definition meets (x y : Z) : bool := negb (Z.land x y =? 0).

Definition is_attacked (sq attacker : Z) (b : Board) : bool :=
  (if attacker =? WHITE then
     ((sq >=? 9) && negb (Z.rem sq 8 =? 0) && meets (U64.bit (sq - 9)) (pieces b WHITE PAWN))
     || ((sq >=? 7) && negb (Z.rem sq 8 =? 7) && meets (U64.bit (sq - 7)) (pieces b WHITE PAWN))
   else
     ((sq <=? 56) && negb (Z.rem sq 8 =? 0) && meets (U64.bit (sq + 7)) (pieces b BLACK PAWN))
     || ((sq <=? 54) && negb (Z.rem sq 8 =? 7) && meets (U64.bit (sq + 9)) (pieces b BLACK PAWN)))
  || meets (KnightMoves sq) (pieces b attacker KNIGHT)
  || meets (KingMoves sq) (pieces b attacker KING)
  || meets (get_rook_attacks sq (all b))
           (Z.lor (pieces b attacker ROOK) (pieces b attacker QUEEN))
  || meets (get_bishop_attacks sq (all b))
           (Z.lor (pieces b attacker BISHOP) (pieces b attacker QUEEN)).

Definition isInCheck (b : Board) : bool :=
  if pieces b (side b) KING =? 0 then false
  else
    let king_sq := U64.ctzll (pieces b (side b) KING) in
    is_attacked king_sq (1 - side b) b.

(* ================================================================== *)
(** ** Zobrist hashing, make-move and move generation *)

Section Position.

Context {keys : ZobristKeys}.

(** The loops of [zobristHash] over the piece bitboards. *)
Definition piecesHash (pcs : Z -> Z -> Z) (hash : Z) : Z :=
  fold_left (fun hash c =>
    fold_left (fun hash p =>
      U64.for_bits (fun sq hash => Z.lxor hash (zobristPieces c p sq))
                   (pcs c p) hash)
      kinds hash)
    sides hash.

(** [zobristHash]: the key of a position recomputed from its fields. *)
Definition zobristHash (b : Board) : Z :=
  let hash := 0 in
  let hash := piecesHash (pieces b) hash in
  let hash := Z.lxor hash (zobristCastle (castle b)) in
  let hash := if negb (ep b =? -1) then Z.lxor hash (zobristEp (ep b)) else hash in
  let hash := if side b =? BLACK then Z.lxor hash zobristSide else hash in
  hash.

(** [Board::init]. *)
Definition Board_init : Board :=
  let pcs : Z -> Z -> Z := fun _ _ => 0 in
  let pcs := upd2 pcs WHITE PAWN 0xFF00 in
  let pcs := upd2 pcs WHITE KNIGHT 0x42 in
  let pcs := upd2 pcs WHITE BISHOP 0x24 in
  let pcs := upd2 pcs WHITE ROOK 0x81 in
  let pcs := upd2 pcs WHITE QUEEN 0x8 in
  let pcs := upd2 pcs WHITE KING 0x10 in
  let pcs := upd2 pcs BLACK PAWN 0xFF000000000000 in
  let pcs := upd2 pcs BLACK KNIGHT 0x4200000000000000 in
  let pcs := upd2 pcs BLACK BISHOP 0x2400000000000000 in
  let pcs := upd2 pcs BLACK ROOK 0x8100000000000000 in
  let pcs := upd2 pcs BLACK QUEEN 0x800000000000000 in
  let pcs := upd2 pcs BLACK KING 0x1000000000000000 in
  let b := update (mkBoard pcs (fun _ => 0) 0 0 0 0 0) in
  let b := set_side b WHITE in
  let b := set_ep b (-1) in
  let b := set_castle b 15 in
  set_hash b (zobristHash b).

(** *** [makeMove], block by block *)

(** "Update hash": the moving piece leaves [from] and enters [to]; the old
    en-passant and castling keys are removed. *)
Definition mm_hash_out (b : Board) (m : Move) : Board :=
  let b := xor_hash b (zobristPieces (side b) (piece m) (from m)) in
  let b := xor_hash b (zobristPieces (side b) (piece m) (to m)) in
  let b := if negb (ep b =? -1) then xor_hash b (zobristEp (ep b)) else b in
  xor_hash b (zobristCastle (castle b)).

(** "Update castling rights": the value of [b.castle] after the five
    tests. *)
Definition new_castle (b : Board) (m : Move) : Z :=
  let castle := castle b in
  let castle :=
    if piece m =? KING then
      if side b =? WHITE then Z.land castle (Z.lnot 3)
      else Z.land castle (Z.lnot 12)
    else castle in
  let castle := if (from m =? 0) || (to m =? 0)
                then Z.land castle (Z.lnot 2) else castle in
  let castle := if (from m =? 7) || (to m =? 7)
                then Z.land castle (Z.lnot 1) else castle in
  let castle := if (from m =? 56) || (to m =? 56)
                then Z.land castle (Z.lnot 8) else castle in
  let castle := if (from m =? 63) || (to m =? 63)
                then Z.land castle (Z.lnot 4) else castle in
  castle.

(** The new castling rights, their key, and [b.ep = -1]. *)
Definition mm_castle (b : Board) (m : Move) : Board :=
  let b := set_castle b (new_castle b m) in
  let b := xor_hash b (zobristCastle (castle b)) in
  set_ep b (-1).

(** "Move piece". *)
Definition mm_move_piece (b : Board) (m : Move) : Board :=
  xor_pieces b (side b) (piece m) (Z.lor (U64.bit (from m)) (U64.bit (to m))).

(** "Handle captures": the first opponent kind standing on [to] is removed. *)
Fixpoint mm_capture_loop (ps : list Z) (b : Board) (opponent : Z) (m : Move) : Board :=
  match ps with
  | [] => b
  | p :: ps' =>
      if meets (pieces b opponent p) (U64.bit (to m)) then
        let b := xor_pieces b opponent p (U64.bit (to m)) in
        xor_hash b (zobristPieces opponent p (to m))
      else mm_capture_loop ps' b opponent m
  end.

(** "Handle special moves": en passant, double push, promotion, castling. *)
Definition mm_special (b : Board) (opponent prev_ep : Z) (m : Move) : Board :=
  if piece m =? PAWN then
    let b :=
      if to m =? prev_ep then
        let captured_pawn_sq := if side b =? WHITE then to m - 8 else to m + 8 in
        let b := xor_pieces b opponent PAWN (U64.bit captured_pawn_sq) in
        xor_hash b (zobristPieces opponent PAWN captured_pawn_sq)
      else b in
    let b :=
      if Z.abs (from m - to m) =? 16 then
        let b := set_ep b (if side b =? WHITE then from m + 8 else from m - 8) in
        xor_hash b (zobristEp (ep b))
      else b in
    if negb (promo m =? 0) then
      let b := xor_pieces b (side b) PAWN (U64.bit (to m)) in
      let b := xor_pieces b (side b) (promo m) (U64.bit (to m)) in
      let b := xor_hash b (zobristPieces (side b) PAWN (to m)) in
      xor_hash b (zobristPieces (side b) (promo m) (to m))
    else b
  else if piece m =? KING then
    if Z.abs (from m - to m) =? 2 then
      if to m =? 6 then
        let b := xor_pieces b WHITE ROOK (Z.lor (U64.bit 7) (U64.bit 5)) in
        let b := xor_hash b (zobristPieces WHITE ROOK 7) in
        xor_hash b (zobristPieces WHITE ROOK 5)
      else if to m =? 2 then
        let b := xor_pieces b WHITE ROOK (Z.lor (U64.bit 0) (U64.bit 3)) in
        let b := xor_hash b (zobristPieces WHITE ROOK 0) in
        xor_hash b (zobristPieces WHITE ROOK 3)
      else if to m =? 62 then
        let b := xor_pieces b BLACK ROOK (Z.lor (U64.bit 63) (U64.bit 61)) in
        let b := xor_hash b (zobristPieces BLACK ROOK 63) in
        xor_hash b (zobristPieces BLACK ROOK 61)
      else if to m =? 58 then
        let b := xor_pieces b BLACK ROOK (Z.lor (U64.bit 56) (U64.bit 59)) in
        let b := xor_hash b (zobristPieces BLACK ROOK 56) in
        xor_hash b (zobristPieces BLACK ROOK 59)
      else b
    else b
  else b.

Definition makeMove (b : Board) (m : Move) : Board :=
  let opponent := 1 - side b in
  let prev_ep := ep b in
  let b := mm_hash_out b m in
  let b := mm_castle b m in
  let b := mm_move_piece b m in
  let b := mm_capture_loop kinds b opponent m in
  let b := mm_special b opponent prev_ep m in
  let b := update b in
  let b := set_side b opponent in
  xor_hash b zobristSide.

(** [isLegalMove]: the move is played on a copy. *)
Definition isLegalMove (b : Board) (m : Move) : bool :=
  let copy := makeMove b m in
  if pieces copy (side b) KING =? 0 then false
  else
    let king_sq := U64.ctzll (pieces copy (side b) KING) in
    negb (is_attacked king_sq (side copy) copy).

(** *** [generateMoves] *)

Definition push_back {A : Type} (v : list A) (x : A) : list A := v ++ [x].

(** The pushes of the pawn on [from]. *)
Definition gen_pawn_push (b : Board) (from p : Z) (moves : list Move)
    : list Move :=
  let dir := if side b =? WHITE then 8 else -8 in
  let promo_rank := if side b =? WHITE then 7 else 0 in
  (* Single push *)
  let to_sq := from + dir in
  if (to_sq >=? 0) && (to_sq <? 64) && negb (meets (all b) (U64.bit to_sq)) then
    if Z.quot to_sq 8 =? promo_rank then
      push_back moves (Move_new from to_sq p (-1) QUEEN)
    else
      let moves := push_back moves (Move_new from to_sq p (-1) 0) in
      (* Double push *)
      let start_rank := if side b =? WHITE then 1 else 6 in
      if Z.quot from 8 =? start_rank then
        let to_sq2 := from + 2 * dir in
        if negb (meets (all b) (U64.bit to_sq2))
        then push_back moves (Move_new from to_sq2 p (-1) 0)
        else moves
      else moves
  else moves.

(** The body of [for (int d : cap_dirs)]. *)
Definition gen_pawn_capture (b : Board) (capturesOnly : bool) (from p : Z)
    (moves : list Move) (d : Z) : list Move :=
  let promo_rank := if side b =? WHITE then 7 else 0 in
  let to := from + d in
  if (to <? 0) || (to >? 63) || (Z.abs (Z.rem from 8 - Z.rem to 8) >? 1) then moves
  else if meets (occupied b (1 - side b)) (U64.bit to) then
    if Z.quot to 8 =? promo_rank
    then push_back moves (Move_new from to p 0 QUEEN)
    else push_back moves (Move_new from to p (-1) 0)
  else if negb capturesOnly && (to =? ep b)
    then push_back moves (Move_new from to p (-1) 0)
    else moves.

Definition gen_pawn (b : Board) (capturesOnly : bool) (from p : Z)
    (moves : list Move) : list Move :=
  let dir := if side b =? WHITE then 8 else -8 in
  let moves := if negb capturesOnly then gen_pawn_push b from p moves else moves in
  let cap_dirs := [dir - 1; dir + 1] in
  fold_left (gen_pawn_capture b capturesOnly from p) cap_dirs moves.

Definition gen_castling (b : Board) (moves : list Move) : list Move :=
  if negb (isInCheck b) then
    if side b =? WHITE then
      let moves :=
        if negb (Z.land (castle b) 1 =? 0) && negb (meets (all b) 0x60) then
          if negb (is_attacked 5 BLACK b) && negb (is_attacked 6 BLACK b)
          then push_back moves (Move_new 4 6 KING (-1) 0) else moves
        else moves in
      if negb (Z.land (castle b) 2 =? 0) && negb (meets (all b) 0xE) then
        if negb (is_attacked 3 BLACK b) && negb (is_attacked 2 BLACK b)
        then push_back moves (Move_new 4 2 KING (-1) 0) else moves
      else moves
    else
      let moves :=
        if negb (Z.land (castle b) 4 =? 0) && negb (meets (all b) 0x6000000000000000) then
          if negb (is_attacked 61 WHITE b) && negb (is_attacked 62 WHITE b)
          then push_back moves (Move_new 60 62 KING (-1) 0) else moves
        else moves in
      if negb (Z.land (castle b) 8 =? 0) && negb (meets (all b) 0xE00000000000000) then
        if negb (is_attacked 59 WHITE b) && negb (is_attacked 58 WHITE b)
        then push_back moves (Move_new 60 58 KING (-1) 0) else moves
      else moves
  else moves.

(** The attack set of a piece other than a pawn, in the last branch of the
    loop body. *)
Definition gen_attacks (b : Board) (capturesOnly : bool) (from p : Z) : Z :=
  let attacks :=
    if p =? KNIGHT then KnightMoves from
    else if p =? BISHOP then get_bishop_attacks from (all b)
    else if p =? ROOK then get_rook_attacks from (all b)
    else if p =? QUEEN
      then Z.lor (get_rook_attacks from (all b)) (get_bishop_attacks from (all b))
    else if p =? KING then KingMoves from
    else 0 in
  if capturesOnly then Z.land attacks (occupied b (1 - side b))
  else Z.land attacks (U64.lnot (occupied b (side b))).

(** The body of [while (bitboard)] for the piece of kind [p] on [from]. *)
Definition gen_piece (b : Board) (capturesOnly : bool) (p from : Z)
    (moves : list Move) : list Move :=
  let '(attacks, moves) :=
    if p =? PAWN then (0, gen_pawn b capturesOnly from p moves)
    else if (p =? KING) && negb capturesOnly then
      (Z.land (KingMoves from) (U64.lnot (occupied b (side b))),
       gen_castling b moves)
    else (gen_attacks b capturesOnly from p, moves) in
  U64.for_bits (fun to moves => push_back moves (Move_new from to p (-1) 0))
               attacks moves.

Definition pseudoMoves (b : Board) (capturesOnly : bool) : list Move :=
  fold_left (fun moves p =>
      U64.for_bits (gen_piece b capturesOnly p) (pieces b (side b) p) moves)
    kinds [].

Definition generateMoves (b : Board) (capturesOnly : bool) : list Move :=
  filter (isLegalMove b) (pseudoMoves b capturesOnly).

(** The positions the engine reaches from the start position by playing
    moves that [generateMoves] returns, in either mode. *)
Inductive reachable : Board -> Prop :=
| reachable_init : reachable Board_init
| reachable_move b m capturesOnly :
    reachable b -> In m (generateMoves b capturesOnly) ->
    reachable (makeMove b m).

End Position.

(* ================================================================== *)
(** ** Well-formed boards *)

(** The twelve piece bitboards, white first. *)
Definition all_pieces (b : Board) : list Z :=
  flat_map (fun c => map (pieces b c) kinds) sides.

(** Every bitboard is a 64-bit word. *)
Definition pieces_in_range (b : Board) : bool :=
  forallb (fun x => (0 <=? x) && (x <? U64.modulus)) (all_pieces b).

Fixpoint pairwise_disjoint (l : list Z) : bool :=
  match l with
  | [] => true
  | x :: rest => forallb (fun y => Z.land x y =? 0) rest && pairwise_disjoint rest
  end.

(** No square is claimed by two of the twelve bitboards. *)
Definition disjoint_pieces (b : Board) : bool := pairwise_disjoint (all_pieces b).

(** The mate-threshold test of [iterativeDeepening]. *)
Definition is_mate_score (score : Z) : bool := Z.abs score >=? MATE - 1000.

(* ================================================================== *)
(** ** Global search tables *)

Module TTEntry.
Record t : Type := mk {
  hash : Z;
  depth : Z;
  score : Z;
  flag : Z;
  bestMove : Z
}.
(** A cell of the zero-filled table. *)
Definition zero : t := mk 0 0 0 0 0.
End TTEntry.

(** The process-wide tables and counters.  [killers] holds [Move*]
    values: addresses, with 0 for [nullptr].  [allocs] counts the move
    vectors built so far; it is the only information the address of the
    next vector is taken to depend on (see [moves_data]). *)
Record Engine : Type := mkEngine {
  transpositionTable : Z -> TTEntry.t;
  scores : Z -> Z -> Z -> Z;
  killers : Z -> Z -> Z;
  nodes : Z;
  qnodes : Z;
  allocs : Z
}.

Definition set_transpositionTable (e : Engine) (v : Z -> TTEntry.t) : Engine :=
  mkEngine v (scores e) (killers e) (nodes e) (qnodes e) (allocs e).
Definition set_scores (e : Engine) (v : Z -> Z -> Z -> Z) : Engine :=
  mkEngine (transpositionTable e) v (killers e) (nodes e) (qnodes e) (allocs e).
Definition set_killers (e : Engine) (v : Z -> Z -> Z) : Engine :=
  mkEngine (transpositionTable e) (scores e) v (nodes e) (qnodes e) (allocs e).
Definition set_nodes (e : Engine) (v : Z) : Engine :=
  mkEngine (transpositionTable e) (scores e) (killers e) v (qnodes e) (allocs e).
Definition set_qnodes (e : Engine) (v : Z) : Engine :=
  mkEngine (transpositionTable e) (scores e) (killers e) (nodes e) v (allocs e).
Definition set_allocs (e : Engine) (v : Z) : Engine :=
  mkEngine (transpositionTable e) (scores e) (killers e) (nodes e) (qnodes e) v.

(** The tables after [initTables] or [ucinewgame], and the counters after
    [SearchStats::init]. *)
Definition Engine_init : Engine :=
  mkEngine (fun _ => TTEntry.zero) (fun _ _ _ => 0) (fun _ _ => 0) 0 0 0.

Module HistoryTable.

(** [HistoryTable::update]. *)
Definition update (scores : Z -> Z -> Z -> Z) (side from to depth : Z)
    : Z -> Z -> Z -> Z :=
  let scores :=
    fun s f t =>
      if (s =? side) && (f =? from) && (t =? to)
      then scores s f t + depth * depth else scores s f t in
  if scores side from to >? 100000
  then fun s f t => Z.quot (scores s f t) 2
  else scores.

(** [HistoryTable::get]. *)
Definition get (scores : Z -> Z -> Z -> Z) (side from to : Z) : Z :=
  scores side from to.

End HistoryTable.

Module KillerMoves.

(** [KillerMoves::update]; [m] is a [Move*]. *)
Definition update (killers : Z -> Z -> Z) (m ply : Z) : Z -> Z -> Z :=
  if negb (killers ply 0 =? m) then
    let killers := upd2 killers ply 1 (killers ply 0) in
    upd2 killers ply 0 m
  else killers.

(** [KillerMoves::isKiller]: a comparison of pointers. *)
Definition isKiller (killers : Z -> Z -> Z) (m ply : Z) : bool :=
  (killers ply 0 =? m) || (killers ply 1 =? m).

End KillerMoves.

(* ================================================================== *)
(** ** Move ordering *)

Definition set_score (m : Move) (v : Z) : Move :=
  mkMove (from m) (to m) v (piece m) (captured m) (promo m).

Definition victimValues (p : Z) : Z :=
  nth (Z.to_nat p) [100; 300; 300; 500; 900; 10000] 0.

(** [sizeof(Move)]: six [int] fields. *)
Definition sizeof_Move : Z := 24.

(** [&moves[i]] for a vector whose buffer starts at [data]. *)
Definition elem_addr (data : Z) (i : nat) : Z := data + Z.of_nat i * sizeof_Move.

(** The MVV-LVA loop [for (p = KING; p >= PAWN; p--)]. *)
Fixpoint mvv_lva (ps : list Z) (b : Board) (m : Move) : Move :=
  match ps with
  | [] => m
  | p :: ps' =>
      if meets (pieces b (1 - side b) p) (U64.bit (to m))
      then set_score m (100000 + victimValues p * 10 - victimValues (piece m))
      else mvv_lva ps' b m
  end.

(** The body of the loop of [scoreMoves] for the element at address [addr]. *)
Definition scoreMove (e : Engine) (b : Board) (ttMove : option Move) (ply : Z)
    (addr : Z) (m : Move) : Move :=
  if match ttMove with Some t => Move_eq m t | None => false end
  then set_score m 1000000
  else
    let m :=
      if meets (occupied b (1 - side b)) (U64.bit (to m))
      then mvv_lva (rev kinds) b m
      else if KillerMoves.isKiller (killers e) addr ply then set_score m 90000
      else set_score m (HistoryTable.get (scores e) (side b) (from m) (to m)) in
    if promo m =? QUEEN then set_score m (score m + 80000) else m.

Fixpoint scoreLoop (e : Engine) (b : Board) (ttMove : option Move) (ply : Z)
    (data : Z) (i : nat) (moves : list Move) : list Move :=
  match moves with
  | [] => []
  | m :: rest =>
      scoreMove e b ttMove ply (elem_addr data i) m
        :: scoreLoop e b ttMove ply data (S i) rest
  end.

(** [std::sort] with the comparator [a.score > b.score].  The order of moves
    of equal score is left open by the library; an insertion sort that
    keeps it stands for it here.  Only that the result is a permutation of
    the vector is used below, never the order of moves of equal score. *)
Fixpoint sort_insert (m : Move) (sorted : list Move) : list Move :=
  match sorted with
  | [] => [m]
  | x :: rest =>
      if score x >? score m then x :: sort_insert m rest else m :: sorted
  end.

Definition sort_desc (moves : list Move) : list Move :=
  fold_right sort_insert [] moves.

Definition scoreMoves (e : Engine) (moves : list Move) (data : Z) (b : Board)
    (ttMove : option Move) (ply : Z) : list Move :=
  sort_desc (scoreLoop e b ttMove ply data 0 moves).

(** ** Notions used to state the ordering properties *)

(** The test [ttMove && m == *ttMove]. *)
Definition matches_tt (ttMove : option Move) (m : Move) : bool :=
  match ttMove with Some t => Move_eq m t | None => false end.

(** The promotion bonus. *)
Definition promo_bonus (m : Move) : Z := if promo m =? QUEEN then 80000 else 0.

(** The kind the MVV-LVA loop finds: the highest kind of the opponent
    with a piece on the target square. *)
Definition victim_of (b : Board) (m : Move) (p : Z) : Prop :=
  In p kinds /\
  meets (pieces b (1 - side b) p) (U64.bit (to m)) = true /\
  forall p', In p' kinds -> p < p' ->
    meets (pieces b (1 - side b) p') (U64.bit (to m)) = false.


(* ================================================================== *)
(** ** Search *)

(** Computations on the global tables that may run out of fuel. *)
Definition M (A : Type) : Type := Engine -> option (A * Engine).

Definition ret {A : Type} (x : A) : M A := fun e => Some (x, e).
Definition bind {A B : Type} (c : M A) (k : A -> M B) : M B :=
  fun e => match c e with
           | Some (x, e') => k x e'
           | None => None
           end.
Definition out_of_fuel {A : Type} : M A := fun _ => None.
Definition get_engine : M Engine := fun e => Some (e, e).
Definition modify (f : Engine -> Engine) : M unit := fun e => Some (tt, f e).

Notation "x <- c ;; k" := (bind c (fun x => k))
  (at level 61, c at next level, right associativity).
Notation "c ;;; k" := (bind c (fun _ => k))
  (at level 61, right associativity).

Definition is_quiet (b : Board) (m : Move) : bool :=
  negb (meets (occupied b (1 - side b)) (U64.bit (to m))).

(** The packed move of a table entry. *)
Definition pack_move (m : Move) : Z :=
  Z.lor (Z.lor (from m) (Z.shiftl (to m) 6)) (Z.shiftl (piece m) 12).

Definition unpack_into (packed : Z) (m : Move) : Move :=
  mkMove (Z.land packed 63) (Z.land (Z.shiftr packed 6) 63) (score m)
         (Z.land (Z.shiftr packed 12) 7) (captured m) (promo m).

(** The early returns of the transposition-table lookup: the value
    returned, if the lookup returns. *)
Definition tt_probe (ttEntry : TTEntry.t) (b : Board) (depth alpha beta : Z)
    : option Z :=
  if (TTEntry.hash ttEntry =? hash b) && (TTEntry.depth ttEntry >=? depth) then
    if TTEntry.flag ttEntry =? TT_EXACT then Some (TTEntry.score ttEntry)
    else if (TTEntry.flag ttEntry =? TT_ALPHA) && (TTEntry.score ttEntry <=? alpha)
      then Some alpha
    else if (TTEntry.flag ttEntry =? TT_BETA) && (TTEntry.score ttEntry >=? beta)
      then Some beta
    else None
  else None.

(** The "Store in transposition table" block. *)
Definition tt_store (b : Board) (depth bestScore origAlpha beta : Z)
    (localBest : Move) : TTEntry.t :=
  TTEntry.mk (hash b) depth bestScore
    (if bestScore <=? origAlpha then TT_ALPHA
     else if bestScore >=? beta then TT_BETA
     else TT_EXACT)
    (pack_move localBest).

(** The side-only flip of null-move pruning. *)
Definition nullFlip {keys : ZobristKeys} (b : Board) : Board :=
  let copy := b in
  let copy := set_side copy (1 - side copy) in
  let copy := xor_hash copy zobristSide in
  set_ep copy (-1).

(** The variables the move loop of [search] carries. *)
Record LoopState : Type := mkLoop {
  ls_alpha : Z;
  ls_bestScore : Z;
  ls_localBest : Move;
  ls_bestMove : Move;
  ls_moveCount : Z
}.

(** The part of the loop body after the score of a move is known: best
    move, alpha and history, beta cutoff and killers, futility.  The
    boolean tells whether the loop is left. *)
Definition after_score (b : Board) (depth beta ply : Z) (inCheck : bool)
    (addr : Z) (m : Move) (score : Z) (st : LoopState) (e : Engine)
    : LoopState * Engine * bool :=
  let moveCount := ls_moveCount st in
  let st :=
    if score >? ls_bestScore st then
      mkLoop (ls_alpha st) score m
             (if ply =? 0 then m else ls_bestMove st) moveCount
    else st in
  let '(st, e) :=
    if score >? ls_alpha st then
      (mkLoop score (ls_bestScore st) (ls_localBest st) (ls_bestMove st) moveCount,
       if is_quiet b m
       then set_scores e (HistoryTable.update (scores e) (side b) (from m) (to m) depth)
       else e)
    else (st, e) in
  if ls_alpha st >=? beta then
    (st,
     if is_quiet b m
     then set_killers e (KillerMoves.update (killers e) addr ply) else e,
     true)
  else if (depth <=? 2) && negb inCheck && (moveCount >? 8) && is_quiet b m then
    let futilityMargin := depth * 100 in
    (st, e, evaluate b + futilityMargin <? ls_alpha st)
  else (st, e, false).

Section Search.

Context {keys : ZobristKeys}.

(** The address of the buffer of the [n]-th move vector built by
    [generateMoves]; the allocator decides it. *)
Context (moves_data : Z -> Z).

Definition new_moves : M Z :=
  fun e => Some (moves_data (allocs e), set_allocs e (allocs e + 1)).

Definition SearchFn : Type :=
  Board -> Z -> Z -> Z -> Move -> Z -> bool -> M (Z * Move).
Definition QuiescenceFn : Type := Board -> Z -> Z -> Z -> M Z.

(** The loop of [quiescence] over the ordered captures, with the
    [return alpha] that follows it. *)
Fixpoint quiescence_loop (rec : QuiescenceFn) (b : Board)
    (stand_pat beta depth : Z) (captures : list Move) (alpha : Z) : M Z :=
  match captures with
  | [] => ret alpha
  | m :: rest =>
      let gain := if negb (piece m =? PAWN) then 900 else 200 in
      if (stand_pat + gain <? alpha) && (depth <? -1)
      then quiescence_loop rec b stand_pat beta depth rest alpha
      else
        let copy := makeMove b m in
        r <- rec copy (- beta) (- alpha) (depth - 1) ;;
        let score := - r in
        if score >=? beta then ret beta
        else
          let alpha := if score >? alpha then score else alpha in
          quiescence_loop rec b stand_pat beta depth rest alpha
  end.

Definition quiescence_body (rec : QuiescenceFn) : QuiescenceFn :=
  fun b alpha beta depth =>
    modify (fun e => set_qnodes e (qnodes e + 1)) ;;;
    let stand_pat := evaluate b in
    if stand_pat >=? beta then ret beta
    else
      let alpha := if alpha <? stand_pat then stand_pat else alpha in
      if depth <=? - MAX_QUIESCENCE_DEPTH then ret stand_pat
      else
        data <- new_moves ;;
        let captures := generateMoves b true in
        e <- get_engine ;;
        let captures := scoreMoves e captures data b None 0 in
        quiescence_loop rec b stand_pat beta depth captures alpha.

Fixpoint quiescence (fuel : nat) : QuiescenceFn :=
  match fuel with
  | O => fun _ _ _ _ => out_of_fuel
  | S n => quiescence_body (quiescence n)
  end.

(** The searches of one move of the loop of [search]: late-move reduction
    and principal-variation search.  The result is [score]. *)
Definition search_move (rec : SearchFn) (b : Board) (depth alpha beta ply : Z)
    (inCheck : bool) (addr : Z) (m : Move) (moveCount : Z) : M Z :=
  e <- get_engine ;;
  let reduction :=
    if (moveCount >? 4) && (depth >=? 3) && negb inCheck
       && is_quiet b m && (promo m =? 0) then
      let reduction :=
        if moveCount >? 12 then 3 else if moveCount >? 6 then 2 else 1 in
      if KillerMoves.isKiller (killers e) addr ply
         || (HistoryTable.get (scores e) (side b) (from m) (to m) >? 5000)
      then Z.max 0 (reduction - 1) else reduction
    else 0 in
  let copy := makeMove b m in
  let dummy := Move_default in
  score <-
    (if moveCount =? 1 then
       r <- rec copy (depth - 1 - reduction) (- beta) (- alpha) dummy (ply + 1) true ;;
       ret (- fst r)
     else
       r <- rec copy (depth - 1 - reduction) (- alpha - 1) (- alpha) dummy (ply + 1) true ;;
       let score := - fst r in
       if (score >? alpha) && (score <? beta) then
         r <- rec copy (depth - 1) (- beta) (- alpha) dummy (ply + 1) true ;;
         ret (- fst r)
       else ret score) ;;
  if (reduction >? 0) && (score >? alpha) then
    r <- rec copy (depth - 1) (- beta) (- alpha) dummy (ply + 1) true ;;
    ret (- fst r)
  else ret score.

(** [for (auto& m : moves)] in [search]; [i] is the index of [m]. *)
Fixpoint search_loop (rec : SearchFn) (b : Board) (depth beta ply : Z)
    (inCheck : bool) (data : Z) (i : nat) (moves : list Move)
    (st : LoopState) : M LoopState :=
  match moves with
  | [] => ret st
  | m :: rest =>
      let moveCount := ls_moveCount st + 1 in
      let st := mkLoop (ls_alpha st) (ls_bestScore st) (ls_localBest st)
                       (ls_bestMove st) moveCount in
      let addr := elem_addr data i in
      score <- search_move rec b depth (ls_alpha st) beta ply inCheck addr m moveCount ;;
      e <- get_engine ;;
      let '(st, e, stop) := after_score b depth beta ply inCheck addr m score st e in
      modify (fun _ => e) ;;;
      if stop then ret st
      else search_loop rec b depth beta ply inCheck data (S i) rest st
  end.

Definition search_body (qrec : QuiescenceFn) (rec : SearchFn) : SearchFn :=
  fun b depth alpha beta bestMove ply nullMove =>
    modify (fun e => set_nodes e (nodes e + 1)) ;;;
    (* Check extension *)
    let inCheck := isInCheck b in
    let depth := if inCheck then depth + 1 else depth in
    (* Transposition table lookup *)
    let ttIndex := hash b mod TT_SIZE in
    e <- get_engine ;;
    let ttEntry := transpositionTable e ttIndex in
    let ttMove := Move_default in
    match tt_probe ttEntry b depth alpha beta with
    | Some v =>
        ret (v,
             if (TTEntry.flag ttEntry =? TT_EXACT) && (ply =? 0)
             then unpack_into (TTEntry.bestMove ttEntry) bestMove
             else bestMove)
    | None =>
        let ttMove :=
          if (TTEntry.hash ttEntry =? hash b) && negb (TTEntry.bestMove ttEntry =? 0)
          then unpack_into (TTEntry.bestMove ttEntry) ttMove else ttMove in
        if depth <=? 0 then
          r <- qrec b alpha beta 0 ;; ret (r, bestMove)
        else
          (* Null move pruning *)
          cut <-
            (if nullMove && negb inCheck && (depth >=? 3) && (ply >? 0) then
               let copy := nullFlip b in
               let dummy := Move_default in
               let R := if depth >? 6 then 3 else 2 in
               r <- rec copy (depth - 1 - R) (- beta) (- beta + 1) dummy (ply + 1) false ;;
               let score := - fst r in
               ret (score >=? beta)
             else ret false) ;;
          if cut then ret (beta, bestMove)
          else
            data <- new_moves ;;
            let moves := generateMoves b false in
            match moves with
            | [] => ret (if inCheck then - MATE + ply else 0, bestMove)
            | _ :: _ =>
                e <- get_engine ;;
                let ttEntry := transpositionTable e ttIndex in
                let moves :=
                  scoreMoves e moves data b
                    (if TTEntry.hash ttEntry =? hash b then Some ttMove else None)
                    ply in
                let bestMove :=
                  if ply =? 0 then hd bestMove moves else bestMove in
                let origAlpha := alpha in
                st <- search_loop rec b depth beta ply inCheck data 0 moves
                        (mkLoop alpha (- INF) Move_default bestMove 0) ;;
                (* Store in transposition table *)
                modify (fun e =>
                  set_transpositionTable e
                    (upd1 (transpositionTable e) ttIndex
                       (tt_store b depth (ls_bestScore st) origAlpha beta
                                 (ls_localBest st)))) ;;;
                ret (ls_bestScore st, ls_bestMove st)
            end
    end.

Fixpoint search (fuel : nat) : SearchFn :=
  match fuel with
  | O => fun _ _ _ _ _ _ _ => out_of_fuel
  | S n => search_body (quiescence n) (search n)
  end.





End Search.

(* ================================================================== *)
(** ** Sample data for the examples *)

(** A key table for running the definitions on examples. *)
Definition sample_keys : ZobristKeys := {|
  zobristPieces := fun c p sq => 1000003 * ((c * 6 + p) * 64 + sq) + 12345;
  zobristCastle := fun i => 7919 * (i + 1);
  zobristEp := fun i => 104729 * (i + 3);
  zobristSide := 15485863
|}.

(** Vector buffers at distinct addresses. *)
Definition sample_data (n : Z) : Z := 4096 * (n + 1).

(** The moves e2e4 and e2e3 of the start position. *)
Definition e2e4 : Move := Move_new 12 28 PAWN (-1) 0.
Definition e2e3 : Move := Move_new 12 20 PAWN (-1) 0.

Definition a7a6 : Move := Move_new 48 40 PAWN (-1) 0.
Definition e4e5 : Move := Move_new 28 36 PAWN (-1) 0.
Definition d7d5 : Move := Move_new 51 35 PAWN (-1) 0.
Definition e4d5 : Move := Move_new 28 35 PAWN (-1) 0.
(** The en-passant capture e5xd6. *)
Definition e5d6 : Move := Move_new 36 43 PAWN (-1) 0.

(** Positions of the examples, with the sample keys. *)
Definition start_board : Board := @Board_init sample_keys.

Definition play (b : Board) (ms : list Move) : Board :=
  fold_left (@makeMove sample_keys) ms b.

(** After 1. e4. *)
Definition after_e4 : Board := play start_board [e2e4].
(** After 1. e4 d5. *)
Definition after_e4_d5 : Board := play start_board [e2e4; d7d5].
(** After 1. e4 a6 2. e5 d5: White may capture en passant on d6. *)
Definition ep_board : Board := play start_board [e2e4; a7a6; e4e5; d7d5].

(** White: king e1, pawn a7.  Black: king e8, rook b8.  White to move. *)
Definition promo_board : Board :=
  let pcs : Z -> Z -> Z := fun _ _ => 0 in
  let pcs := upd2 pcs WHITE PAWN (U64.bit 48) in
  let pcs := upd2 pcs WHITE KING (U64.bit 4) in
  let pcs := upd2 pcs BLACK ROOK (U64.bit 57) in
  let pcs := upd2 pcs BLACK KING (U64.bit 60) in
  let b := update (mkBoard pcs (fun _ => 0) 0 WHITE (-1) 0 0) in
  set_hash b (@zobristHash sample_keys b).

(** The promotions a7-a8=Q and a7xb8=Q. *)
Definition a7a8q : Move := Move_new 48 56 PAWN (-1) QUEEN.
Definition a7b8q : Move := Move_new 48 57 PAWN 0 QUEEN.

(** A table whose first killer at ply 3 points to address 512. *)
Definition killer_engine (addr : Z) : Engine :=
  set_killers Engine_init (KillerMoves.update (killers Engine_init) addr 3).

(** The tables after a beta cutoff at ply 3 of a search of depth 3 on the
    quiet move e2e4, found at address 512 in the vector of that node. *)
Definition cutoff_engine : Engine :=
  snd (fst (after_score start_board 3 50 3 false 512 e2e4 100
              (mkLoop 0 (- INF) Move_default Move_default 1) Engine_init)).

(** A table holding one entry, for the start position. *)
Definition hit_engine (depth score flag : Z) : Engine :=
  set_transpositionTable Engine_init
    (upd1 (transpositionTable Engine_init) (hash start_board mod TT_SIZE)
          (TTEntry.mk (hash start_board) depth score flag 0)).

Definition b7b5 : Move := Move_new 49 33 PAWN (-1) 0.
Definition a2a4 : Move := Move_new 8 24 PAWN (-1) 0.
Definition a4b5 : Move := Move_new 24 33 PAWN (-1) 0.
Definition b5a6 : Move := Move_new 33 40 PAWN (-1) 0.
Definition c8b7 : Move := Move_new 58 49 BISHOP (-1) 0.
Definition a6b7 : Move := Move_new 40 49 PAWN (-1) 0.
Definition h7h6 : Move := Move_new 55 47 PAWN (-1) 0.
(** The promotion b7xa8=Q. *)
Definition b7a8q : Move := Move_new 49 56 PAWN 0 QUEEN.
(** After 1. a4 b5 2. axb5 a6 3. bxa6 Bb7 4. axb7 h6: White may promote
    on a8. *)
Definition promo_game : Board :=
  play start_board [a2a4; b7b5; a4b5; a7a6; b5a6; c8b7; a6b7; h7h6].

(* ================================================================== *)
(** ** Notions used to state and prove hash coherence *)

(** The XOR of the keys of a list of squares. *)
Definition xor_keys (k : Z -> Z) (l : list Z) : Z :=
  fold_right (fun sq a => Z.lxor (k sq) a) 0 l.

(** The XOR of the keys of the set bits of a word. *)
Definition bbhash (k : Z -> Z) (bb : Z) : Z := xor_keys k (U64.bits bb).

Definition pieces_ok (pcs : Z -> Z -> Z) : Prop :=
  forall c p, In c sides -> In p kinds -> U64.in_range (pcs c p).

Section Coherence.

Context {keys : ZobristKeys}.

(** The contribution of the en-passant square and of the side to the key. *)
Definition ep_key (e : Z) : Z := if e =? -1 then 0 else zobristEp e.
Definition side_key (s : Z) : Z := if s =? BLACK then zobristSide else 0.

(** By how much the incremental hash is off. *)
Definition defect (b : Board) : Z := Z.lxor (hash b) (zobristHash b).

(** Bitboards are 64-bit words and the side is one of the two. *)
Definition wf (b : Board) : Prop :=
  pieces_ok (pieces b) /\ (side b = WHITE \/ side b = BLACK).

(** [occupied] and [all] are as [Board::update] leaves them. *)
Definition occ_ok (b : Board) : Prop :=
  forall c, In c sides ->
    occupied b c = fold_left (fun o p => Z.lor o (pieces b c p)) kinds 0.

(** The en-passant square, when set, lies behind a pawn of the side that
    just moved. *)
Definition ep_ok (b : Board) : Prop :=
  ep b = -1 \/
  (side b = BLACK /\ 16 <= ep b <= 23) \/
  (side b = WHITE /\ 40 <= ep b <= 47).

(** What [makeMove] needs of a move to keep the hash coherent. *)
Definition move_ok (b : Board) (m : Move) : Prop :=
  0 <= from m < 64 /\ 0 <= to m < 64 /\ from m <> to m /\
  In (piece m) kinds /\ (promo m = 0 \/ promo m = QUEEN) /\
  (piece m = PAWN -> Z.abs (from m - to m) = 16 ->
   (side b = WHITE /\ 8 <= from m <= 15) \/
   (side b = BLACK /\ 48 <= from m <= 55)).

(** The invariant of the reachable positions. *)
Definition coherent (b : Board) : Prop :=
  wf b /\ occ_ok b /\ ep_ok b /\ hash b = zobristHash b.

End Coherence.
(* ================================================================== *)
(** ** Notions used to state when the search returns *)

(** A computation that returns whatever the state of the tables. *)
Definition total {A : Type} (c : M A) : Prop :=
  forall e, exists r e', c e = Some (r, e').


Section SearchTree.

Context {keys : ZobristKeys}.





Context (moves_data : Z -> Z).


End SearchTree.

(** The position after 1. f3 e5 2. g4 Qh4: White is mated. *)
Definition f2f3 : Move := Move_new 13 21 PAWN (-1) 0.
Definition e7e5 : Move := Move_new 52 36 PAWN (-1) 0.
Definition g2g4 : Move := Move_new 14 30 PAWN (-1) 0.
Definition d8h4 : Move := Move_new 59 31 QUEEN (-1) 0.
Definition fools_mate : Board := play start_board [f2f3; e7e5; g2g4; d8h4].


(* ================================================================== *)
(** ** Notions used to state what the functions do and leave alone *)

(** The tables and the node counter are as before; the quiescence counter
    and the number of vectors allocated did not go down. *)
Definition tables_kept (e e' : Engine) : Prop :=
  transpositionTable e' = transpositionTable e /\ scores e' = scores e /\
  killers e' = killers e /\ nodes e' = nodes e /\
  qnodes e <= qnodes e' /\ allocs e <= allocs e'.

(** [t] is [n >= 1] steps of ([dr], [df]) (ranks, files) away from [sq],
    and no square strictly between them is a blocker. *)
Definition slides (blockers sq t dr df : Z) : Prop :=
  exists n, 1 <= n /\
    Z.quot t 8 = Z.quot sq 8 + n * dr /\ Z.rem t 8 = Z.rem sq 8 + n * df /\
    forall j, 1 <= j < n -> Z.testbit blockers (sq + j * (8 * dr + df)) = false.
(* ================================================================== *)
(** ** Notions used to state what the positions of a game look like *)

From Stdlib Require Ascii String.

(** No square carries two pieces: a bit set in two of the twelve bitboards
    is a bit of one and the same bitboard. *)
Definition disjoint_squares (b : Board) : Prop :=
  forall c k c' k' sq, In c sides -> In k kinds -> In c' sides -> In k' kinds ->
    Z.testbit (pieces b c k) sq = true -> Z.testbit (pieces b c' k') sq = true ->
    c = c' /\ k = k'.

(** No bitboard has the bit [sq]. *)
Definition empty_square (b : Board) (sq : Z) : Prop :=
  forall c k, In c sides -> In k kinds -> Z.testbit (pieces b c k) sq = false.

(** The rook that [makeMove] moves with a king move of two files: its
    side, its corner and the square it lands on. *)
Definition castle_rook (m : Move) : option (Z * Z * Z) :=
  if (piece m =? KING) && (Z.abs (from m - to m) =? 2) then
    if to m =? 6 then Some (WHITE, 7, 5)
    else if to m =? 2 then Some (WHITE, 0, 3)
    else if to m =? 62 then Some (BLACK, 63, 61)
    else if to m =? 58 then Some (BLACK, 56, 59)
    else None
  else None.

(** What [makeMove] expects of a move: the piece it names stands on
    [from] and belongs to the side to move, no piece of that side stands on
    [to], a pawn reaching the en-passant square has a pawn to take behind
    it, and a king move of two files has its rook in the corner and an
    empty square to put it on. *)
Definition playable (b : Board) (m : Move) : Prop :=
  0 <= from m < 64 /\ 0 <= to m < 64 /\ from m <> to m /\ In (piece m) kinds /\
  Z.testbit (pieces b (side b) (piece m)) (from m) = true /\
  (forall k, In k kinds -> Z.testbit (pieces b (side b) k) (to m) = false) /\
  (piece m = PAWN ->
     (promo m = 0 \/ promo m = QUEEN) /\
     (to m = ep b ->
        let csq := if side b =? WHITE then to m - 8 else to m + 8 in
        0 <= csq < 64 /\
        Z.testbit (pieces b (1 - side b) PAWN) csq = true /\
        empty_square b (to m))) /\
  (piece m = KING -> Z.abs (from m - to m) = 2 ->
     exists rf rt, castle_rook m = Some (side b, rf, rt) /\
       Z.testbit (pieces b (side b) ROOK) rf = true /\ empty_square b rt /\
       rf <> from m /\ rt <> from m /\ rf <> to m /\ rt <> to m).

(** The board after a move, square by square: whether the piece of kind
    [k] and side [c] stands on [sq].  The mover arrives on [to] (as the
    promotion piece when a pawn promotes), [from] is left, the pawn taken
    en passant and the castling rook's corner are cleared, the rook lands
    next to the king, and every other square is as before. *)
Definition occupant_after (b : Board) (m : Move) (c k sq : Z) : bool :=
  let arrival :=
    if (piece m =? PAWN) && negb (promo m =? 0) then promo m else piece m in
  let ep_sq := if side b =? WHITE then to m - 8 else to m + 8 in
  if sq =? to m then (c =? side b) && (k =? arrival)
  else if sq =? from m then false
  else if (piece m =? PAWN) && (to m =? ep b) && (sq =? ep_sq) then false
  else
    match castle_rook m with
    | Some (rc, rf, rt) =>
        if sq =? rf then false
        else if sq =? rt then (c =? rc) && (k =? ROOK)
        else Z.testbit (pieces b c k) sq
    | None => Z.testbit (pieces b c k) sq
    end.

(** The bitboards after "Move piece": the [from] and [to] bits of the
    mover's bitboard are toggled. *)
Definition moved_pieces (b : Board) (m : Move) : Z -> Z -> Z :=
  upd2 (pieces b) (side b) (piece m)
       (Z.lxor (pieces b (side b) (piece m))
               (Z.lor (U64.bit (from m)) (U64.bit (to m)))).

(** The bitboards after "Handle captures": the [to] bit of the first
    opponent kind that has it is toggled. *)
Definition captured_pieces (b : Board) (m : Move) (pcs : Z -> Z -> Z) : Z -> Z -> Z :=
  match find (fun q => meets (pcs (1 - side b) q) (U64.bit (to m))) kinds with
  | Some q => upd2 pcs (1 - side b) q (Z.lxor (pcs (1 - side b) q) (U64.bit (to m)))
  | None => pcs
  end.

(** [pieces[c][p] ^= mask]. *)
Definition xor_at (pcs : Z -> Z -> Z) (c p mask : Z) : Z -> Z -> Z :=
  upd2 pcs c p (Z.lxor (pcs c p) mask).

(** The bitboards after "Handle special moves". *)
Definition special_pieces (b : Board) (m : Move) (pcs : Z -> Z -> Z) : Z -> Z -> Z :=
  if piece m =? PAWN then
    let pcs :=
      if to m =? ep b then
        xor_at pcs (1 - side b) PAWN
               (U64.bit (if side b =? WHITE then to m - 8 else to m + 8))
      else pcs in
    if negb (promo m =? 0) then
      xor_at (xor_at pcs (side b) PAWN (U64.bit (to m)))
             (side b) (promo m) (U64.bit (to m))
    else pcs
  else if (piece m =? KING) && (Z.abs (from m - to m) =? 2) then
    if to m =? 6 then xor_at pcs WHITE ROOK (Z.lor (U64.bit 7) (U64.bit 5))
    else if to m =? 2 then xor_at pcs WHITE ROOK (Z.lor (U64.bit 0) (U64.bit 3))
    else if to m =? 62 then xor_at pcs BLACK ROOK (Z.lor (U64.bit 63) (U64.bit 61))
    else if to m =? 58 then xor_at pcs BLACK ROOK (Z.lor (U64.bit 56) (U64.bit 59))
    else pcs
  else pcs.

(** [all] is as [Board::update] leaves it. *)
Definition all_ok (b : Board) : Prop :=
  all b = Z.lor (occupied b WHITE) (occupied b BLACK).

(** A king of side [c], if there is one, stands on [h]. *)
Definition king_home (b : Board) (c h : Z) : Prop :=
  forall sq, 0 <= sq < 64 -> Z.testbit (pieces b c KING) sq = true -> sq = h.

(** The en-passant square, when set, is empty and lies right behind a
    pawn of the side that just moved. *)
Definition ep_inv (b : Board) : Prop :=
  ep b = -1 \/
  (side b = WHITE /\ 40 <= ep b <= 47 /\
   Z.testbit (pieces b BLACK PAWN) (ep b - 8) = true /\ empty_square b (ep b)) \/
  (side b = BLACK /\ 16 <= ep b <= 23 /\
   Z.testbit (pieces b WHITE PAWN) (ep b + 8) = true /\ empty_square b (ep b)).

(** A castling right that is still set has its rook in the corner and
    the king on its home square. *)
Definition castle_inv (b : Board) : Prop :=
  (Z.testbit (castle b) 0 = true ->
     Z.testbit (pieces b WHITE ROOK) 7 = true /\ king_home b WHITE 4) /\
  (Z.testbit (castle b) 1 = true ->
     Z.testbit (pieces b WHITE ROOK) 0 = true /\ king_home b WHITE 4) /\
  (Z.testbit (castle b) 2 = true ->
     Z.testbit (pieces b BLACK ROOK) 63 = true /\ king_home b BLACK 60) /\
  (Z.testbit (castle b) 3 = true ->
     Z.testbit (pieces b BLACK ROOK) 56 = true /\ king_home b BLACK 60).

(** The invariant of the reachable positions that concerns the pieces. *)
Definition consistent (b : Board) : Prop :=
  wf b /\ occ_ok b /\ all_ok b /\ disjoint_squares b /\ ep_inv b /\ castle_inv b.

(** [promo_rank] and [dir] of [generateMoves]. *)
Definition promo_rank (b : Board) : Z := if side b =? WHITE then 7 else 0.
Definition pawn_dir (b : Board) : Z := if side b =? WHITE then 8 else -8.

(** A pawn move of two ranks starts on the pawn's home rank, jumps over
    an empty square and does not promote. *)
Definition double_push_facts (b : Board) (m : Move) : Prop :=
  piece m = PAWN -> Z.abs (from m - to m) = 16 ->
  promo m = 0 /\
  ((side b = WHITE /\ 8 <= from m <= 15 /\ to m = from m + 16 /\
    empty_square b (from m + 8)) \/
   (side b = BLACK /\ 48 <= from m <= 55 /\ to m = from m - 16 /\
    empty_square b (from m - 8))).

(** The attack set of a piece of kind [p] on [f], before the mode mask of
    [generateMoves]. *)
Definition piece_attacks (b : Board) (p f : Z) : Z :=
  if p =? KNIGHT then KnightMoves f
  else if p =? BISHOP then get_bishop_attacks f (all b)
  else if p =? ROOK then get_rook_attacks f (all b)
  else if p =? QUEEN
    then Z.lor (get_rook_attacks f (all b)) (get_bishop_attacks f (all b))
  else if p =? KING then KingMoves f
  else 0.

(** What [is_attacked] looks for: a piece of kind [p] of the attacker on
    [f] from where it attacks [sq]. *)
Definition attacker_on (b : Board) (att : Z) (sq f p : Z) : Prop :=
  Z.testbit (pieces b att p) f = true /\
  ((p = PAWN /\
    ((att = WHITE /\ (f = sq - 9 /\ Z.rem sq 8 <> 0 \/ f = sq - 7 /\ Z.rem sq 8 <> 7)) \/
     (att <> WHITE /\ (f = sq + 7 /\ Z.rem sq 8 <> 0 \/ f = sq + 9 /\ Z.rem sq 8 <> 7)))) \/
   (p <> PAWN /\ Z.testbit (piece_attacks b p sq) f = true)).

(** The file on which a pawn capture by [d] squares would wrap around the
    board. *)
Definition file_test (d : Z) : Z := if (d =? 9) || (d =? -7) then 0 else 7.

(** The king of side [c] stands on [h], and nowhere else. *)
Definition king_at (b : Board) (c h : Z) : Prop :=
  0 <= h < 64 /\
  forall sq, 0 <= sq < 64 -> Z.testbit (pieces b c KING) sq = (sq =? h).

(** Each side has one king, and the side to move cannot take the other
    side's. *)
Definition kings_ok (b : Board) : Prop :=
  exists hs ho, king_at b (side b) hs /\ king_at b (1 - side b) ho /\
                is_attacked ho (side b) b = false.

(** The start position has no square with two pieces, checked square by
    square. *)
Definition init_squares_check : bool :=
  forallb (fun sq =>
    forallb (fun c => forallb (fun k =>
      forallb (fun c' => forallb (fun k' =>
        negb (Z.testbit (pieces start_board c k) sq)
        || negb (Z.testbit (pieces start_board c' k') sq)
        || (c =? c') && (k =? k')) kinds) sides) kinds) sides) U64.squares.

(* ================================================================== *)
(** ** The UCI front end: [parseMove], the [position] command and the
    string printed after [bestmove] *)

Module UCI.
Import Ascii String.

(** The value of a [char] as an [int]; whether plain [char] is signed is
    left to the platform. *)
Definition char_int (signed_char : bool) (c : ascii) : Z :=
  let n := Z.of_N (N_of_ascii c) in
  if signed_char && (128 <=? n) then n - 256 else n.

(** [move_str[i]]: the character at [i], the terminator at
    [i = move_str.length()], and nothing defined beyond it. *)
Definition char_at (signed_char : bool) (move_str : string) (i : nat) : option Z :=
  match get i move_str with
  | Some c => Some (char_int signed_char c)
  | None => if Nat.eqb i (length move_str) then Some 0 else None
  end.

(** The [switch] on the fifth character. *)
Definition promo_of (move_str : string) : Z :=
  if Nat.eqb (length move_str) 5 then
    match get 4 move_str with
    | Some c =>
        if Ascii.eqb c "q" then QUEEN
        else if Ascii.eqb c "r" then ROOK
        else if Ascii.eqb c "b" then BISHOP
        else if Ascii.eqb c "n" then KNIGHT
        else 0
    | None => 0
    end
  else 0.

(** The test of the loop of [parseMove] on a generated move. *)
Definition matches (from_sq to_sq promo_piece : Z) (m : Move) : bool :=
  (from m =? from_sq) && (to m =? to_sq)
  && (if negb (promo m =? 0) then promo m =? promo_piece else true).

Section Parse.
Context {keys : ZobristKeys}.

(** [parseMove]: [None] when the string is read past its terminator,
    [Some None] for [false], [Some (Some m)] for [true] with
    [parsed_move = m]. *)
Definition parseMove (signed_char : bool) (b : Board) (move_str : string)
    : option (option Move) :=
  let moves := generateMoves b false in
  match char_at signed_char move_str 0, char_at signed_char move_str 1,
        char_at signed_char move_str 2, char_at signed_char move_str 3 with
  | Some c0, Some c1, Some c2, Some c3 =>
      let from_sq := (c0 - 97) + (c1 - 49) * 8 in
      let to_sq := (c2 - 97) + (c3 - 49) * 8 in
      let promo_piece := promo_of move_str in
      Some (find (matches from_sq to_sq promo_piece) moves)
  | _, _, _, _ => None
  end.

(** The loop of the [position] command over the tokens after [moves]. *)
Fixpoint play_moves (signed_char : bool) (b : Board) (tokens : list string)
    : option Board :=
  match tokens with
  | [] => Some b
  | token :: rest =>
      match parseMove signed_char b token with
      | None => None
      | Some (Some m) => play_moves signed_char (makeMove b m) rest
      | Some None => play_moves signed_char b rest
      end
  end.

(** [while (iss >> token && token != "moves") {}]: the tokens left once
    [moves] is read, if it is. *)
Fixpoint skip_fen (tokens : list string) : option (list string) :=
  match tokens with
  | [] => None
  | token :: rest => if String.eqb token "moves" then Some rest else skip_fen rest
  end.

(** The [position] command on the tokens that follow it. *)
Definition position (signed_char : bool) (board : Board) (tokens : list string)
    : option Board :=
  match tokens with
  | [] => Some board
  | sub_cmd :: rest =>
      if String.eqb sub_cmd "startpos" then
        match rest with
        | token :: rest' =>
            if String.eqb token "moves"
            then play_moves signed_char Board_init rest'
            else Some Board_init
        | [] => Some Board_init
        end
      else if String.eqb sub_cmd "fen" then
        match skip_fen rest with
        | Some rest' => play_moves signed_char Board_init rest'
        | None => Some Board_init
        end
      else Some board
  end.
End Parse.

(** The conversion of a small [int] to [char]. *)
Definition char_of (n : Z) : ascii := ascii_of_N (Z.to_N n).

(** The string printed after [bestmove]. *)
Definition move_string (m : Move) : string :=
  String (char_of (Z.rem (from m) 8 + 97))
    (String (char_of (Z.quot (from m) 8 + 49))
      (String (char_of (Z.rem (to m) 8 + 97))
        (String (char_of (Z.quot (to m) 8 + 49))
          (if negb (promo m =? 0) then
             if promo m =? QUEEN then "q"
             else if promo m =? ROOK then "r"
             else if promo m =? BISHOP then "b"
             else if promo m =? KNIGHT then "n"
             else ""
           else "")))).

End UCI.
(* ================================================================== *)
(** ** The rules of chess on attacks, and positions with a lone king *)

(** The squares that carry a piece. *)
Definition occupancy (b : Board) : Z := fold_left Z.lor (all_pieces b) 0.

(** The rules of chess: a piece of kind [p] and side [c] standing on [f]
    attacks [sq], on a board whose occupied squares are [occ].  A pawn
    attacks the two squares diagonally ahead, a knight jumps, a king
    steps, and rooks, bishops and queens slide over empty squares. *)
Definition chess_attacks (occ c p f sq : Z) : Prop :=
  let dr := Z.quot sq 8 - Z.quot f 8 in
  let df := Z.rem sq 8 - Z.rem f 8 in
  (p = PAWN /\ dr = (if c =? WHITE then 1 else -1) /\ Z.abs df = 1) \/
  (p = KNIGHT /\
   (Z.abs dr = 1 /\ Z.abs df = 2 \/ Z.abs dr = 2 /\ Z.abs df = 1)) \/
  (p = KING /\ Z.max (Z.abs dr) (Z.abs df) = 1) \/
  ((p = ROOK \/ p = QUEEN) /\
   (slides occ f sq 1 0 \/ slides occ f sq (-1) 0 \/
    slides occ f sq 0 1 \/ slides occ f sq 0 (-1))) \/
  ((p = BISHOP \/ p = QUEEN) /\
   (slides occ f sq 1 1 \/ slides occ f sq 1 (-1) \/
    slides occ f sq (-1) 1 \/ slides occ f sq (-1) (-1))).

(** Some piece of side [c] attacks [sq]. *)
Definition attacked_by (b : Board) (c sq : Z) : Prop :=
  exists f p, 0 <= f < 64 /\ In p kinds /\
    Z.testbit (pieces b c p) f = true /\
    chess_attacks (occupancy b) c p f sq.

(** The geometry of the pawn tests of [is_attacked] and of the two attack
    tables, checked on all pairs of squares. *)
Definition attack_geometry_check : bool :=
  forallb (fun f => forallb (fun sq =>
      let dr := Z.quot sq 8 - Z.quot f 8 in
      let df := Z.rem sq 8 - Z.rem f 8 in
      Bool.eqb ((f =? sq - 9) && negb (Z.rem sq 8 =? 0)
                || (f =? sq - 7) && negb (Z.rem sq 8 =? 7))
               ((dr =? 1) && (Z.abs df =? 1)) &&
      Bool.eqb ((f =? sq + 7) && negb (Z.rem sq 8 =? 0)
                || (f =? sq + 9) && negb (Z.rem sq 8 =? 7))
               ((dr =? -1) && (Z.abs df =? 1)) &&
      Bool.eqb (Z.testbit (KnightMoves sq) f)
               ((Z.abs dr =? 1) && (Z.abs df =? 2)
                || (Z.abs dr =? 2) && (Z.abs df =? 1)) &&
      Bool.eqb (Z.testbit (KingMoves sq) f)
               (Z.max (Z.abs dr) (Z.abs df) =? 1))
    U64.squares) U64.squares.




(* ================================================================== *)
(** * Proofs *)

(** The set bits of a symbolic word unfold into a tree of 64 tests; these
    functions are never to be unfolded by simplification. *)
Arguments U64.bits : simpl never.
Arguments U64.popcountll : simpl never.
Arguments U64.ctzll : simpl never.
Arguments U64.for_bits : simpl never.
Arguments bbhash : simpl never.

(** Equations between XORs, bit by bit. *)
Ltac xor_algebra :=
  apply Z.bits_inj'; intros ?n ?Hn; rewrite ?Z.lxor_spec, ?Z.bits_0; btauto.

(** Closed goals, by evaluation. *)
Ltac by_compute := vm_compute; first [reflexivity | discriminate | congruence].
Ltac in_list := vm_compute; repeat (first [left; reflexivity | right]).
(* ------------------------------------------------------------------ *)
(** *** Facts on 64-bit words *)

Lemma squares_from_length n i : length (U64.squares_from n i) = n.
Proof. revert i; induction n; intros; simpl; auto. Qed.

Lemma squares_from_In n i j :
  In j (U64.squares_from n i) <-> i <= j < i + Z.of_nat n.
Proof.
  revert i; induction n as [|n IH]; intros i.
  - simpl. lia.
  - cbn [U64.squares_from In]. rewrite IH. lia.
Qed.

Lemma squares_In j : In j U64.squares <-> 0 <= j < 64.
Proof. unfold U64.squares. rewrite squares_from_In. simpl. lia. Qed.

Lemma squares_from_NoDup n i : NoDup (U64.squares_from n i).
Proof.
  revert i; induction n as [|n IH]; intros i; simpl; constructor; auto.
  rewrite squares_from_In. lia.
Qed.

Lemma ctz_from_spec n i x :
  let k := U64.ctz_from n i x in
  i <= k <= i + Z.of_nat n /\
  (forall j, i <= j < k -> Z.testbit x j = false) /\
  (k < i + Z.of_nat n -> Z.testbit x k = true).
Proof.
  revert i; induction n as [|n IH]; intros i; cbn [U64.ctz_from].
  - cbv zeta. repeat split; intros; lia.
  - destruct (Z.testbit x i) eqn:E.
    + cbv zeta. repeat split; intros; try lia; auto.
    + specialize (IH (i + 1)). cbv zeta in *.
      destruct IH as (H1 & H2 & H3). repeat split; try lia.
      * intros j Hj. destruct (Z.eq_dec j i) as [->|]; auto. apply H2; lia.
      * intros Hk. apply H3. lia.
Qed.

Lemma testbit_above x i : U64.in_range x -> 64 <= i -> Z.testbit x i = false.
Proof.
  intros Hx Hi. unfold U64.in_range, U64.modulus in Hx.
  rewrite <- (Z.mod_small x (2 ^ 64)) by assumption.
  apply Z.mod_pow2_bits_high. lia.
Qed.

Lemma in_range_nonzero_ctz x :
  U64.in_range x -> x <> 0 ->
  0 <= U64.ctzll x < 64 /\ Z.testbit x (U64.ctzll x) = true /\
  forall j, 0 <= j < U64.ctzll x -> Z.testbit x j = false.
Proof.
  intros Hx Hnz. unfold U64.ctzll.
  destruct (ctz_from_spec 64 0 x) as (H1 & H2 & H3).
  change (Z.of_nat 64) with 64 in *.
  assert (Hlt : U64.ctz_from 64 0 x < 64).
  { destruct (Z.eq_dec (U64.ctz_from 64 0 x) 64) as [E|]; [|lia].
    exfalso. apply Hnz. apply Z.bits_inj_0. intros n.
    destruct (Z.ltb_spec n 0); [apply Z.testbit_neg_r; auto|].
    destruct (Z.ltb_spec n 64); [apply H2; lia|apply testbit_above; auto]. }
  repeat split; try lia; auto.
Qed.

(** Clearing the lowest set bit: [bb & (bb - 1)]. *)
Lemma clear_lowest_testbit b k :
  0 <= k -> Z.testbit b k = true ->
  (forall j, 0 <= j < k -> Z.testbit b j = false) ->
  forall i, 0 <= i ->
    Z.testbit (Z.land b (b - 1)) i = Z.testbit b i && negb (i =? k).
Proof.
  intros Hk Hbk Hlow i Hi.
  assert (Hmod : b mod 2 ^ (k + 1) = 2 ^ k).
  { apply Z.bits_inj'. intros n Hn.
    destruct (Z.ltb_spec n (k + 1)).
    - rewrite Z.mod_pow2_bits_low by lia.
      destruct (Z.eq_dec n k) as [->|].
      + rewrite Hbk. symmetry. apply Z.pow2_bits_true. lia.
      + rewrite Hlow by lia. symmetry. apply Z.pow2_bits_false. lia.
    - rewrite Z.mod_pow2_bits_high by lia.
      symmetry. apply Z.pow2_bits_false. lia. }
  assert (Hpos : 0 < 2 ^ k) by (apply Z.pow_pos_nonneg; lia).
  assert (Hpow : 2 ^ (k + 1) = 2 * 2 ^ k)
    by (rewrite Z.pow_add_r, Z.pow_1_r; lia).
  pose proof (Z.div_mod b (2 ^ (k + 1)) ltac:(lia)) as Hdm.
  rewrite Hmod in Hdm.
  assert (Hdiv1 : (b - 1) / 2 ^ (k + 1) = b / 2 ^ (k + 1)).
  { symmetry. apply Z.div_unique with (r := 2 ^ k - 1); lia. }
  assert (Hmod1 : (b - 1) mod 2 ^ (k + 1) = 2 ^ k - 1).
  { symmetry. apply Z.mod_unique with (q := b / 2 ^ (k + 1)); lia. }
  rewrite Z.land_spec.
  destruct (Z.ltb_spec i (k + 1)) as [Hlt|Hge].
  - rewrite <- (Z.mod_pow2_bits_low (b - 1) (k + 1) i) by lia.
    rewrite Hmod1. replace (2 ^ k - 1) with (Z.ones k)
      by (rewrite Z.ones_equiv; lia).
    destruct (Z.eqb_spec i k) as [->|Hne].
    + rewrite Z.ones_spec_high by lia. rewrite Hbk. reflexivity.
    + rewrite Hlow by lia. reflexivity.
  - replace i with ((i - (k + 1)) + (k + 1)) at 2 by lia.
    rewrite <- Z.div_pow2_bits by lia.
    rewrite Hdiv1. rewrite Z.div_pow2_bits by lia.
    replace (i - (k + 1) + (k + 1)) with i by lia.
    destruct (Z.eqb_spec i k); [lia|].
    destruct (Z.testbit b i); reflexivity.
Qed.

Lemma filter_lowest n : forall i (f g : Z -> bool) k,
  i <= k < i + Z.of_nat n -> f k = true ->
  (forall j, i <= j < k -> f j = false) ->
  (forall j, i <= j < i + Z.of_nat n -> g j = f j && negb (j =? k)) ->
  filter f (U64.squares_from n i) = k :: filter g (U64.squares_from n i).
Proof.
  induction n as [|n IH]; intros i f g k Hk Hfk Hlow Hg.
  - simpl in Hk. lia.
  - cbn [U64.squares_from filter].
    destruct (Z.eq_dec i k) as [->|Hne].
    + rewrite Hfk. rewrite (Hg k) by lia. rewrite Hfk, Z.eqb_refl. simpl.
      f_equal. apply filter_ext_in. intros j Hj.
      apply squares_from_In in Hj. rewrite Hg by lia.
      destruct (Z.eqb_spec j k); [lia|]. destruct (f j); reflexivity.
    + rewrite (Hg i) by lia. rewrite (Hlow i) by lia. simpl.
      apply IH; try lia; auto.
      * intros j Hj. apply Hlow. lia.
      * intros j Hj. apply Hg. lia.
Qed.

Lemma land_pred_in_range x :
  U64.in_range x -> x <> 0 -> U64.in_range (Z.land x (x - 1)).
Proof.
  unfold U64.in_range, U64.modulus. intros Hx Hnz.
  assert (H0 : 0 <= Z.land x (x - 1)) by (apply Z.land_nonneg; lia).
  split; auto.
  destruct (Z.eq_dec (Z.land x (x - 1)) 0) as [->|Hne]; [lia|].
  apply Z.log2_lt_pow2; [lia|].
  eapply Z.le_lt_trans; [apply Z.log2_land; lia|].
  apply Z.min_lt_iff. left. apply Z.log2_lt_pow2; lia.
Qed.

Lemma bits_step x :
  U64.in_range x -> x <> 0 ->
  U64.bits x = U64.ctzll x :: U64.bits (Z.land x (x - 1)).
Proof.
  intros Hx Hnz.
  destruct (in_range_nonzero_ctz x Hx Hnz) as (Hk & Hbk & Hlow).
  unfold U64.bits, U64.squares.
  apply filter_lowest; auto.
  intros j Hj. apply clear_lowest_testbit; auto; lia.
Qed.

Lemma bits_zero : U64.bits 0 = [].
Proof. reflexivity. Qed.

Lemma bits_length x : (length (U64.bits x) <= 64)%nat.
Proof.
  unfold U64.bits. etransitivity; [apply filter_length_le|].
  unfold U64.squares. rewrite squares_from_length. auto.
Qed.

Lemma bits_In x i : In i (U64.bits x) <-> 0 <= i < 64 /\ Z.testbit x i = true.
Proof. unfold U64.bits. rewrite filter_In, squares_In. tauto. Qed.

Lemma bits_NoDup x : NoDup (U64.bits x).
Proof. apply NoDup_filter, squares_from_NoDup. Qed.

Lemma fold_left_cons {A B : Type} (f : A -> B -> A) b l a :
  fold_left f (b :: l) a = fold_left f l (f a b).
Proof. reflexivity. Qed.

(** The bit loop visits the set bits, lowest first. *)
Lemma bitloop_fold {A : Type} (body : Z -> A -> A) fuel : forall x acc,
  U64.in_range x -> (length (U64.bits x) <= fuel)%nat ->
  U64.bitloop body fuel x acc = fold_left (fun a sq => body sq a) (U64.bits x) acc.
Proof.
  induction fuel as [|fuel IH]; intros x acc Hx Hlen.
  - destruct (U64.bits x); [reflexivity|cbn [length] in Hlen; lia].
  - cbn [U64.bitloop]. destruct (Z.eqb_spec x 0) as [->|Hnz].
    + rewrite bits_zero. reflexivity.
    + rewrite (bits_step x Hx Hnz). rewrite (bits_step x Hx Hnz) in Hlen.
      rewrite fold_left_cons.
      apply IH; [apply land_pred_in_range; auto|].
      apply le_S_n. exact Hlen.
Qed.

Lemma for_bits_fold {A : Type} (body : Z -> A -> A) x acc :
  U64.in_range x ->
  U64.for_bits body x acc = fold_left (fun a sq => body sq a) (U64.bits x) acc.
Proof. intros Hx. apply bitloop_fold; [exact Hx|apply bits_length]. Qed.

(** Membership of a word in the 64-bit range, bit by bit. *)
Lemma in_range_testbit x :
  U64.in_range x <-> 0 <= x /\ forall i, 64 <= i -> Z.testbit x i = false.
Proof.
  split.
  - intros Hx. split; [apply Hx|]. intros i Hi. apply testbit_above; auto.
  - intros [H0 Hhi]. split; auto. unfold U64.modulus.
    destruct (Z.eq_dec x 0) as [->|Hne]; [lia|].
    apply Z.log2_lt_pow2; [lia|].
    destruct (Z.ltb_spec (Z.log2 x) 64) as [|Hge]; auto.
    pose proof (Z.bit_log2 x ltac:(lia)) as Hb.
    rewrite Hhi in Hb by lia. discriminate.
Qed.

Lemma in_range_land_r x y : U64.in_range y -> U64.in_range (Z.land x y).
Proof.
  rewrite !in_range_testbit. intros [H0 Hhi]. split.
  - apply Z.land_nonneg. auto.
  - intros i Hi. rewrite Z.land_spec, Hhi by auto. apply andb_false_r.
Qed.

Lemma in_range_land_l x y : U64.in_range x -> U64.in_range (Z.land x y).
Proof. rewrite Z.land_comm. apply in_range_land_r. Qed.

Lemma in_range_lor x y :
  U64.in_range x -> U64.in_range y -> U64.in_range (Z.lor x y).
Proof.
  rewrite !in_range_testbit. intros [Hx0 Hx] [Hy0 Hy]. split.
  - apply Z.lor_nonneg. auto.
  - intros i Hi. rewrite Z.lor_spec, Hx, Hy by auto. reflexivity.
Qed.

Lemma in_range_lxor x y :
  U64.in_range x -> U64.in_range y -> U64.in_range (Z.lxor x y).
Proof.
  rewrite !in_range_testbit. intros [Hx0 Hx] [Hy0 Hy]. split.
  - apply Z.lxor_nonneg. tauto.
  - intros i Hi. rewrite Z.lxor_spec, Hx, Hy by auto. reflexivity.
Qed.

Lemma bit_testbit sq i : 0 <= sq -> Z.testbit (U64.bit sq) i = (sq =? i).
Proof.
  intros Hsq. unfold U64.bit. rewrite Z.shiftl_1_l.
  apply Z.pow2_bits_eqb. auto.
Qed.

Lemma in_range_bit sq : 0 <= sq < 64 -> U64.in_range (U64.bit sq).
Proof.
  intros Hsq. unfold U64.bit, U64.in_range, U64.modulus.
  rewrite Z.shiftl_1_l. split; [apply Z.pow_nonneg; lia|].
  apply Z.pow_lt_mono_r; lia.
Qed.

Lemma in_range_lnot x : U64.in_range (U64.lnot x).
Proof.
  unfold U64.lnot. rewrite in_range_testbit. split.
  - apply Z.ldiff_nonneg. left. rewrite Z.ones_equiv. simpl. lia.
  - intros i Hi. rewrite Z.ldiff_spec, Z.ones_spec_high by lia. reflexivity.
Qed.

Lemma lnot_testbit x i :
  0 <= i < 64 -> Z.testbit (U64.lnot x) i = negb (Z.testbit x i).
Proof.
  intros Hi. unfold U64.lnot.
  rewrite Z.ldiff_spec, Z.ones_spec_low by lia. reflexivity.
Qed.

Lemma in_range_0 : U64.in_range 0.
Proof. unfold U64.in_range, U64.modulus. lia. Qed.

(* ================================================================== *)
(** * Properties of the engine *)

(** ** Static evaluation and the side to move *)

Lemma eval_white_set_side b s : eval_white (set_side b s) = eval_white b.
Proof.
  unfold eval_white, eval_bpawns, eval_wpawns, eval_center, eval_king, eval_material.
  cbn [pieces set_side]. reflexivity.
Qed.

(** C9: for every board, the static evaluation with the side to move set to
    BLACK is the negation of the static evaluation of the same board
    (same bitboards, castling rights and en-passant square) with the side
    to move set to WHITE. *)
Theorem evaluate_side_negation (b : Board) :
  evaluate (set_side b BLACK) = - evaluate (set_side b WHITE).
Proof.
  unfold evaluate. cbv zeta. rewrite !eval_white_set_side.
  cbn [side set_side].
  change (BLACK =? WHITE) with false. change (WHITE =? WHITE) with true.
  reflexivity.
Qed.

(** ** Legality filter *)

Section Legality.

Context {keys : ZobristKeys}.

Lemma makeMove_side b m : side (makeMove b m) = 1 - side b.
Proof. reflexivity. Qed.

Lemma isLegalMove_spec b m :
  isLegalMove b m = true <->
  pieces (makeMove b m) (side b) KING <> 0 /\
  is_attacked (U64.ctzll (pieces (makeMove b m) (side b) KING))
              (1 - side b) (makeMove b m) = false.
Proof.
  unfold isLegalMove. cbv zeta. rewrite makeMove_side.
  destruct (Z.eqb_spec (pieces (makeMove b m) (side b) KING) 0) as [E|E].
  - split; [discriminate|]. intros [H _]. contradiction.
  - rewrite negb_true_iff. tauto.
Qed.

Lemma generateMoves_In b capturesOnly m :
  In m (generateMoves b capturesOnly) <->
  In m (pseudoMoves b capturesOnly) /\ isLegalMove b m = true.
Proof. unfold generateMoves. apply filter_In. Qed.

End Legality.

(** ** Transposition-table probe *)

Section Probe.

Context {keys : ZobristKeys}.
Context (moves_data : Z -> Z).

Lemma tt_probe_cases ttEntry b depth alpha beta :
  TTEntry.hash ttEntry = hash b -> TTEntry.depth ttEntry >= depth ->
  (TTEntry.flag ttEntry = TT_EXACT ->
   tt_probe ttEntry b depth alpha beta = Some (TTEntry.score ttEntry)) /\
  (TTEntry.flag ttEntry = TT_ALPHA -> TTEntry.score ttEntry <= alpha ->
   tt_probe ttEntry b depth alpha beta = Some alpha) /\
  (TTEntry.flag ttEntry = TT_BETA -> TTEntry.score ttEntry >= beta ->
   tt_probe ttEntry b depth alpha beta = Some beta).
Proof.
  intros Hh Hd. unfold tt_probe.
  rewrite (proj2 (Z.eqb_eq _ _) Hh).
  replace (TTEntry.depth ttEntry >=? depth) with true
    by (symmetry; apply Z.geb_le; lia).
  cbn [andb]. repeat split.
  - intros ->. reflexivity.
  - intros -> Hs. cbn. rewrite (proj2 (Z.leb_le _ _) Hs). reflexivity.
  - intros -> Hs. cbn.
    replace (TTEntry.score ttEntry >=? beta) with true
      by (symmetry; apply Z.geb_le; lia).
    reflexivity.
Qed.

Lemma tt_probe_miss ttEntry b depth alpha beta :
  TTEntry.hash ttEntry <> hash b ->
  tt_probe ttEntry b depth alpha beta = None.
Proof.
  intros Hh. unfold tt_probe.
  rewrite (proj2 (Z.eqb_neq _ _) Hh). reflexivity.
Qed.

(** What [search] does when the lookup returns [v]. *)
Lemma search_tt_return fuel b depth alpha beta bestMove ply nullMove e v :
  let d := if isInCheck b then depth + 1 else depth in
  let ttEntry := transpositionTable e (hash b mod TT_SIZE) in
  tt_probe ttEntry b d alpha beta = Some v ->
  search moves_data (S fuel) b depth alpha beta bestMove ply nullMove e =
  Some (v,
        if (TTEntry.flag ttEntry =? TT_EXACT) && (ply =? 0)
        then unpack_into (TTEntry.bestMove ttEntry) bestMove else bestMove,
        set_nodes e (nodes e + 1)).
Proof.
  intros d ttEntry Hp. cbn [search]. unfold search_body.
  unfold bind at 1. unfold modify at 1. unfold bind at 1. unfold get_engine at 1.
  cbn [transpositionTable set_nodes].
  fold d. fold ttEntry. rewrite Hp. reflexivity.
Qed.

(** C8: the lookup reads the entry at index [hash mod TT_SIZE]; an entry
    whose stored hash differs from the position's hash never makes the
    lookup return.  When the stored hash equals the position's hash and the
    stored depth is at least the current search depth (the depth after the
    check extension), [search] returns the stored score for an EXACT
    entry, [alpha] for an ALPHA entry whose score is at most [alpha], and
    [beta] for a BETA entry whose score is at least [beta]. *)
Theorem tt_probe_hit fuel b depth alpha beta bestMove ply nullMove e :
  let d := if isInCheck b then depth + 1 else depth in
  let ttEntry := transpositionTable e (hash b mod TT_SIZE) in
  (TTEntry.hash ttEntry <> hash b -> tt_probe ttEntry b d alpha beta = None) /\
  (TTEntry.hash ttEntry = hash b -> TTEntry.depth ttEntry >= d ->
   (TTEntry.flag ttEntry = TT_EXACT ->
    exists bm e',
      search moves_data (S fuel) b depth alpha beta bestMove ply nullMove e =
      Some (TTEntry.score ttEntry, bm, e')) /\
   (TTEntry.flag ttEntry = TT_ALPHA -> TTEntry.score ttEntry <= alpha ->
    exists bm e',
      search moves_data (S fuel) b depth alpha beta bestMove ply nullMove e =
      Some (alpha, bm, e')) /\
   (TTEntry.flag ttEntry = TT_BETA -> TTEntry.score ttEntry >= beta ->
    exists bm e',
      search moves_data (S fuel) b depth alpha beta bestMove ply nullMove e =
      Some (beta, bm, e'))).
Proof.
  intros d ttEntry. split; [apply tt_probe_miss|].
  intros Hh Hd.
  destruct (tt_probe_cases ttEntry b d alpha beta Hh Hd) as (HE & HA & HB).
  repeat split.
  - intros Hf. eexists; eexists. apply search_tt_return. exact (HE Hf).
  - intros Hf Hs. eexists; eexists. apply search_tt_return. exact (HA Hf Hs).
  - intros Hf Hs. eexists; eexists. apply search_tt_return. exact (HB Hf Hs).
Qed.

End Probe.

(** ** Move ordering *)

Lemma scoreLoop_nth_error e b ttMove ply data moves : forall i0 i m,
  nth_error moves i = Some m ->
  nth_error (scoreLoop e b ttMove ply data i0 moves) i =
  Some (scoreMove e b ttMove ply (elem_addr data (i0 + i)) m).
Proof.
  induction moves as [|x rest IH]; intros i0 [|i] m H; try discriminate.
  - cbn in H. injection H as ->. cbn. rewrite Nat.add_0_r. reflexivity.
  - cbn in H. cbn [scoreLoop nth_error]. rewrite (IH (S i0) i m H).
    rewrite <- plus_n_Sm. reflexivity.
Qed.




Lemma scoreMove_tt e b ttMove ply addr m :
  matches_tt ttMove m = true ->
  score (scoreMove e b ttMove ply addr m) = 1000000.
Proof.
  unfold scoreMove, matches_tt. intros ->. reflexivity.
Qed.

Lemma promo_bonus_score m v :
  score (if promo m =? QUEEN then set_score (set_score m v) (v + 80000)
         else set_score m v) = v + promo_bonus m.
Proof.
  unfold promo_bonus. destruct (promo m =? QUEEN); cbn [score set_score]; lia.
Qed.

Lemma scoreMove_quiet e b ttMove ply addr m :
  matches_tt ttMove m = false -> is_quiet b m = true ->
  score (scoreMove e b ttMove ply addr m) =
  (if KillerMoves.isKiller (killers e) addr ply then 90000
   else HistoryTable.get (scores e) (side b) (from m) (to m)) + promo_bonus m.
Proof.
  unfold scoreMove, matches_tt, is_quiet. intros -> Hq.
  apply negb_true_iff in Hq. rewrite Hq.
  destruct (KillerMoves.isKiller (killers e) addr ply);
    cbn [promo set_score score]; apply promo_bonus_score.
Qed.

Lemma isKiller_update killers addr ply addr' :
  KillerMoves.isKiller killers addr' ply = false ->
  KillerMoves.isKiller (KillerMoves.update killers addr ply) addr' ply =
  (addr' =? addr).
Proof.
  unfold KillerMoves.isKiller, KillerMoves.update. intros H.
  apply orb_false_iff in H. destruct H as [H0 H1].
  destruct (Z.eqb_spec (killers ply 0) addr) as [E|E]; cbn [negb].
  - rewrite H0, H1. subst addr. rewrite Z.eqb_sym, H0. reflexivity.
  - unfold upd2. rewrite !Z.eqb_refl. cbn.
    rewrite H0, orb_false_r. apply Z.eqb_sym.
Qed.

(** The tables after a beta cutoff on a quiet move. *)
Lemma after_score_cutoff b depth beta ply inCheck addr m sc st e :
  is_quiet b m = true -> ls_alpha st < beta <= sc ->
  snd (fst (after_score b depth beta ply inCheck addr m sc st e)) =
  set_killers
    (set_scores e (HistoryTable.update (scores e) (side b) (from m) (to m) depth))
    (KillerMoves.update (killers e) addr ply).
Proof.
  intros Hq [Ha Hb]. unfold after_score. cbv zeta. rewrite Hq.
  destruct (sc >? ls_bestScore st); cbn [ls_alpha];
    (replace (sc >? ls_alpha st) with true by (symmetry; apply Z.gtb_lt; lia));
    cbn [ls_alpha];
    (replace (sc >=? beta) with true by (symmetry; apply Z.geb_le; lia));
    reflexivity.
Qed.

(** C5: a defect.  [search] records as killer the address [&m] of an
    element of the vector of its node, and [isKiller] compares that
    address with the address of the element being scored; the fields of
    the moves are never compared.  After a beta cutoff on a quiet move [m]
    found at [addr], a quiet move [m'] found at [addr'] in a later node of
    the same ply, that is not the transposition-table move and whose
    address was no killer before, gets 90 000 (plus the promotion bonus)
    exactly when [addr' = addr]: a move equal to [m] at another address
    gets its history score, and any other move at [addr] gets 90 000. *)
Theorem killer_compares_addresses b depth beta ply inCheck addr m sc st e
    b' ttMove addr' m' :
  is_quiet b m = true -> ls_alpha st < beta <= sc ->
  is_quiet b' m' = true -> matches_tt ttMove m' = false ->
  KillerMoves.isKiller (killers e) addr' ply = false ->
  let e' := snd (fst (after_score b depth beta ply inCheck addr m sc st e)) in
  score (scoreMove e' b' ttMove ply addr' m') =
  (if addr' =? addr then 90000
   else HistoryTable.get (scores e') (side b') (from m') (to m'))
  + promo_bonus m'.
Proof.
  intros Hq Hcut Hq' Htt Hk e'.
  rewrite scoreMove_quiet by assumption.
  unfold e'. rewrite after_score_cutoff by assumption.
  cbn [killers set_killers].
  rewrite isKiller_update by exact Hk. reflexivity.
Qed.

Lemma mvv_lva_victim b m p :
  victim_of b m p ->
  mvv_lva (rev kinds) b m =
  set_score m (100000 + victimValues p * 10 - victimValues (piece m)).
Proof.
  intros (Hp & Hm & Hhi). unfold kinds in *. cbn [rev app mvv_lva].
  unfold KING, QUEEN, ROOK, BISHOP, KNIGHT, PAWN in *.
  cbn [In] in Hp.
  repeat match goal with
  | |- context [meets (pieces b (1 - side b) ?q) (U64.bit (to m))] =>
      destruct (Z.eq_dec p q) as [->|];
      [rewrite Hm; reflexivity|rewrite (Hhi q) by (cbn [In]; lia)]
  end.
  lia.
Qed.

(** C6 (amended): during move ordering, a move of the vector onto a square
    that holds an opponent piece, and that does not match the
    transposition-table move, receives
    100 000 + 10 V(victim) - V(attacker), plus 80 000 when it is a queen
    promotion, where the victim is the highest kind of the opponent on the
    target square; a move onto a square that holds no opponent piece, an
    en-passant capture included, receives the killer or history score
    instead. *)
Theorem capture_score e b ttMove ply data moves i m :
  nth_error moves i = Some m ->
  matches_tt ttMove m = false ->
  exists m',
    nth_error (scoreLoop e b ttMove ply data 0 moves) i = Some m' /\
    (forall p, is_quiet b m = false -> victim_of b m p ->
       score m' = 100000 + 10 * victimValues p - victimValues (piece m)
                  + promo_bonus m) /\
    (is_quiet b m = true ->
       score m' =
       (if KillerMoves.isKiller (killers e) (elem_addr data i) ply then 90000
        else HistoryTable.get (scores e) (side b) (from m) (to m))
       + promo_bonus m).
Proof.
  intros Hm Htt. eexists. split; [|split].
  - apply (scoreLoop_nth_error _ _ _ _ _ _ 0%nat i m Hm).
  - intros p Hq Hv. cbn [Nat.add]. unfold scoreMove.
    unfold matches_tt in Htt. rewrite Htt.
    unfold is_quiet in Hq. apply negb_false_iff in Hq. rewrite Hq.
    rewrite (mvv_lva_victim b m p Hv).
    cbn [promo set_score score]. rewrite promo_bonus_score. lia.
  - intros Hq. cbn [Nat.add]. apply scoreMove_quiet; assumption.
Qed.

(** ** History table *)

Lemma history_update_spec sc side from to depth s f t :
  HistoryTable.update sc side from to depth s f t =
  let inc := if (s =? side) && (f =? from) && (t =? to)
             then sc s f t + depth * depth else sc s f t in
  if sc side from to + depth * depth >? 100000 then Z.quot inc 2 else inc.
Proof.
  unfold HistoryTable.update. rewrite !Z.eqb_refl. cbn [andb]. cbv zeta.
  destruct (sc side from to + depth * depth >? 100000); reflexivity.
Qed.

(** C7 (amended): in the move loop of the main search, the history table
    changes exactly when the score of a move whose target square holds no
    opponent piece exceeds the current alpha, whether or not a beta cutoff
    follows: the entry [side][from][to] grows by the square of the depth
    (the depth after the check extension), and if this entry then exceeds
    100 000 every entry of the table is halved, rounding toward zero. *)
Theorem history_update_rule b depth beta ply inCheck addr m score st e s f t :
  scores (snd (fst (after_score b depth beta ply inCheck addr m score st e))) s f t =
  if (score >? ls_alpha st) && is_quiet b m then
    let inc := if (s =? side b) && (f =? from m) && (t =? to m)
               then scores e s f t + depth * depth else scores e s f t in
    if scores e (side b) (from m) (to m) + depth * depth >? 100000
    then Z.quot inc 2 else inc
  else scores e s f t.
Proof.
  rewrite <- history_update_spec. unfold after_score.
  destruct (score >? ls_bestScore st); cbn [ls_alpha];
    destruct (score >? ls_alpha st); cbn [andb ls_alpha];
    destruct (is_quiet b m); cbn [ls_alpha];
    repeat match goal with
    | |- context [if ?c then _ else _] => destruct c
    end; reflexivity.
Qed.

(** Starting from entries of at most 100 000, an update by a depth whose
    square is at most 100 000 leaves every entry at most 100 000: the entry
    just incremented is the only one that can exceed the bound. *)
Lemma history_update_bounded sc side from to depth :
  (forall s f t, 0 <= sc s f t <= 100000) -> depth * depth <= 100000 ->
  forall s f t, 0 <= HistoryTable.update sc side from to depth s f t <= 100000.
Proof.
  intros Hb Hd s f t. rewrite history_update_spec. cbv zeta.
  pose proof (Hb s f t). pose proof (Hb side from to).
  assert (0 <= depth * depth) by nia.
  destruct (Z.gtb_spec (sc side from to + depth * depth) 100000);
    destruct ((s =? side) && (f =? from) && (t =? to)) eqn:E.
  - apply andb_true_iff in E. destruct E as [E E3].
    apply andb_true_iff in E. destruct E as [E1 E2].
    apply Z.eqb_eq in E1, E2, E3. subst.
    split; [apply Z.quot_pos; lia|].
    apply Z.quot_le_upper_bound; lia.
  - split; [apply Z.quot_pos; lia|]. apply Z.quot_le_upper_bound; lia.
  - apply andb_true_iff in E. destruct E as [E E3].
    apply andb_true_iff in E. destruct E as [E1 E2].
    apply Z.eqb_eq in E1, E2, E3. subst. lia.
  - lia.
Qed.

(** ** Null move *)

Section NullMove.

Context {keys : ZobristKeys}.

(** C4: the side-only flip of null-move pruning toggles the side, clears
    [ep] and XORs the side key into the hash, but not the en-passant key:
    when [ep] was set, the hash of the flipped position differs from its
    Zobrist hash recomputed from scratch by exactly that key. *)
Theorem nullFlip_hash_defect (b : Board) :
  hash b = zobristHash b -> side b = WHITE \/ side b = BLACK ->
  ep b <> -1 ->
  side (nullFlip b) = 1 - side b /\ ep (nullFlip b) = -1 /\
  hash (nullFlip b) = Z.lxor (hash b) zobristSide /\
  hash (nullFlip b) = Z.lxor (zobristHash (nullFlip b)) (zobristEp (ep b)).
Proof.
  intros Hh Hs He. repeat split.
  unfold nullFlip. cbv zeta. cbn [hash set_ep xor_hash set_hash set_side].
  rewrite Hh. unfold zobristHash. cbv zeta.
  cbn [pieces castle ep side set_ep xor_hash set_hash set_side].
  change (-1 =? -1) with true. cbn [negb].
  rewrite (proj2 (Z.eqb_neq _ _) He). cbn [negb].
  set (P := piecesHash (pieces b) 0).
  destruct Hs as [-> | ->];
    [change (1 - WHITE =? BLACK) with true; change (WHITE =? BLACK) with false
    |change (1 - BLACK =? BLACK) with false; change (BLACK =? BLACK) with true];
    cbv iota; xor_algebra.
Qed.

(** With no en-passant square set the flip keeps the hash coherent. *)
Lemma nullFlip_hash_no_ep (b : Board) :
  hash b = zobristHash b -> side b = WHITE \/ side b = BLACK ->
  ep b = -1 ->
  hash (nullFlip b) = zobristHash (nullFlip b).
Proof.
  intros Hh Hs He.
  unfold nullFlip. cbv zeta. cbn [hash set_ep xor_hash set_hash set_side].
  rewrite Hh. unfold zobristHash. cbv zeta.
  cbn [pieces castle ep side set_ep xor_hash set_hash set_side].
  change (-1 =? -1) with true. cbn [negb].
  rewrite He. change (-1 =? -1) with true. cbn [negb].
  set (P := piecesHash (pieces b) 0).
  destruct Hs as [-> | ->];
    [change (1 - WHITE =? BLACK) with true; change (WHITE =? BLACK) with false
    |change (1 - BLACK =? BLACK) with false; change (BLACK =? BLACK) with true];
    cbv iota; xor_algebra.
Qed.

End NullMove.

(** ** Bounds on the static evaluation *)

Lemma popcount_bound x : 0 <= U64.popcountll x <= 64.
Proof.
  unfold U64.popcountll. pose proof (bits_length x). lia.
Qed.

Lemma filter_length_or {A : Type} (f g : A -> bool) l :
  (forall i, In i l -> f i && g i = false) ->
  (length (filter (fun i => f i || g i) l)
   = length (filter f l) + length (filter g l))%nat.
Proof.
  induction l as [|a l IH]; intros H; [reflexivity|].
  cbn [filter]. pose proof (H a (or_introl eq_refl)) as Ha.
  assert (IH' := IH (fun i Hi => H i (or_intror Hi))).
  destruct (f a), (g a); cbn [orb andb] in *; try discriminate;
    cbn [length]; lia.
Qed.

Lemma popcount_lor x y :
  Z.land x y = 0 ->
  U64.popcountll (Z.lor x y) = U64.popcountll x + U64.popcountll y.
Proof.
  intros H. unfold U64.popcountll, U64.bits.
  rewrite <- Nat2Z.inj_add. f_equal.
  rewrite <- filter_length_or.
  - f_equal. apply filter_ext. intros i. apply Z.lor_spec.
  - intros i _. rewrite <- Z.land_spec, H. apply Z.bits_0.
Qed.

Lemma land_lor_0 x y z :
  Z.land x z = 0 -> Z.land y z = 0 -> Z.land (Z.lor x y) z = 0.
Proof.
  intros H1 H2. rewrite Z.land_lor_distr_l, H1, H2. reflexivity.
Qed.

(** Six pairwise disjoint words hold at most 64 bits among 0..63. *)
Lemma popcount_six a1 a2 a3 a4 a5 a6 :
  pairwise_disjoint [a1; a2; a3; a4; a5; a6] = true ->
  U64.popcountll a1 + U64.popcountll a2 + U64.popcountll a3 +
  U64.popcountll a4 + U64.popcountll a5 + U64.popcountll a6 <= 64.
Proof.
  cbn [pairwise_disjoint forallb]. rewrite !andb_true_iff, !Z.eqb_eq.
  intros H. decompose [and] H. clear H.
  rewrite <- !popcount_lor; [apply popcount_bound|..];
    repeat apply land_lor_0; assumption.
Qed.

Lemma pairwise_disjoint_app l1 l2 :
  pairwise_disjoint (l1 ++ l2) = true ->
  pairwise_disjoint l1 = true /\ pairwise_disjoint l2 = true.
Proof.
  induction l1 as [|x l1 IH]; cbn [app pairwise_disjoint]; [auto|].
  rewrite !andb_true_iff, forallb_app, andb_true_iff. tauto.
Qed.

Lemma all_pieces_in_range b c p :
  pieces_in_range b = true -> In c sides -> In p kinds ->
  U64.in_range (pieces b c p).
Proof.
  unfold pieces_in_range. rewrite forallb_forall. intros H Hc Hp.
  assert (Hin : In (pieces b c p) (all_pieces b)).
  { unfold all_pieces. apply in_flat_map. exists c. split; auto.
    apply in_map. exact Hp. }
  specialize (H _ Hin). apply andb_true_iff in H.
  unfold U64.in_range. lia.
Qed.

Lemma eval_material_eq b e :
  eval_material b e =
  e + U64.popcountll (pieces b WHITE PAWN) * 100
    + U64.popcountll (pieces b WHITE KNIGHT) * 320
    + U64.popcountll (pieces b WHITE BISHOP) * 330
    + U64.popcountll (pieces b WHITE ROOK) * 500
    + U64.popcountll (pieces b WHITE QUEEN) * 900
    + U64.popcountll (pieces b WHITE KING) * 0
    + - U64.popcountll (pieces b BLACK PAWN) * 100
    + - U64.popcountll (pieces b BLACK KNIGHT) * 320
    + - U64.popcountll (pieces b BLACK BISHOP) * 330
    + - U64.popcountll (pieces b BLACK ROOK) * 500
    + - U64.popcountll (pieces b BLACK QUEEN) * 900
    + - U64.popcountll (pieces b BLACK KING) * 0.
Proof. reflexivity. Qed.

Lemma eval_material_bound b :
  disjoint_pieces b = true -> -57600 <= eval_material b 0 <= 57600.
Proof.
  intros H. unfold disjoint_pieces in H.
  change (all_pieces b) with
    ([pieces b WHITE PAWN; pieces b WHITE KNIGHT; pieces b WHITE BISHOP;
      pieces b WHITE ROOK; pieces b WHITE QUEEN; pieces b WHITE KING] ++
     [pieces b BLACK PAWN; pieces b BLACK KNIGHT; pieces b BLACK BISHOP;
      pieces b BLACK ROOK; pieces b BLACK QUEEN; pieces b BLACK KING]) in H.
  apply pairwise_disjoint_app in H. destruct H as [Hw Hb].
  apply popcount_six in Hw, Hb.
  rewrite eval_material_eq.
  pose proof (popcount_bound (pieces b WHITE PAWN)).
  pose proof (popcount_bound (pieces b WHITE KNIGHT)).
  pose proof (popcount_bound (pieces b WHITE BISHOP)).
  pose proof (popcount_bound (pieces b WHITE ROOK)).
  pose proof (popcount_bound (pieces b WHITE QUEEN)).
  pose proof (popcount_bound (pieces b WHITE KING)).
  pose proof (popcount_bound (pieces b BLACK PAWN)).
  pose proof (popcount_bound (pieces b BLACK KNIGHT)).
  pose proof (popcount_bound (pieces b BLACK BISHOP)).
  pose proof (popcount_bound (pieces b BLACK ROOK)).
  pose proof (popcount_bound (pieces b BLACK QUEEN)).
  pose proof (popcount_bound (pieces b BLACK KING)).
  lia.
Qed.

Lemma eval_king_bound b e : e - 60 <= eval_king b e <= e + 60.
Proof.
  unfold eval_king, sides. cbn [fold_left].
  change (WHITE =? WHITE) with true. change (BLACK =? WHITE) with false.
  cbv iota.
  repeat match goal with
  | |- context [if ?c then _ else _] => destruct c
  end; lia.
Qed.

Lemma eval_center_bound b e : e - 1280 <= eval_center b e <= e + 1280.
Proof.
  unfold eval_center.
  pose proof (popcount_bound (Z.land (pieces b WHITE PAWN) center)).
  pose proof (popcount_bound (Z.land (pieces b BLACK PAWN) center)).
  lia.
Qed.

Lemma rank_bound sq : 0 <= sq < 64 -> 0 <= Z.quot sq 8 <= 7.
Proof.
  intros H. rewrite Z.quot_div_nonneg by lia.
  split; [apply Z.div_pos; lia|].
  apply Z.lt_succ_r. apply Z.div_lt_upper_bound; lia.
Qed.

Lemma pawn_fold_bound (step : Z -> Z -> Z) lo hi l :
  (forall sq e, 0 <= sq < 64 -> e + lo <= step sq e <= e + hi) ->
  (forall sq, In sq l -> 0 <= sq < 64) ->
  forall e,
    e + lo * Z.of_nat (length l)
    <= fold_left (fun a sq => step sq a) l e
    <= e + hi * Z.of_nat (length l).
Proof.
  intros Hstep. induction l as [|sq l IH]; intros Hl e.
  - cbn. lia.
  - rewrite fold_left_cons. cbn [length]. rewrite Nat2Z.inj_succ.
    pose proof (Hstep sq e (Hl sq (or_introl eq_refl))).
    pose proof (IH (fun s Hs => Hl s (or_intror Hs)) (step sq e)).
    lia.
Qed.

Lemma eval_wpawns_bound b e :
  U64.in_range (pieces b WHITE PAWN) ->
  e <= eval_wpawns b e <= e + 3840.
Proof.
  intros Hr. unfold eval_wpawns. rewrite for_bits_fold by exact Hr.
  pose proof (bits_length (pieces b WHITE PAWN)) as Hlen.
  pose proof (pawn_fold_bound
    (fun sq eval => let rank := Z.quot sq 8 in
                    if rank >=? 4 then eval + (rank - 3) * 15 else eval)
    0 60 (U64.bits (pieces b WHITE PAWN))) as H.
  cbv beta zeta in H. specialize (H ltac:(
    intros sq e0 Hsq; pose proof (rank_bound sq Hsq);
    destruct (Z.geb_spec (Z.quot sq 8) 4); lia)).
  specialize (H ltac:(intros sq Hsq; apply bits_In in Hsq; tauto) e).
  cbv zeta. lia.
Qed.

Lemma eval_bpawns_bound b e :
  U64.in_range (pieces b BLACK PAWN) ->
  e - 3840 <= eval_bpawns b e <= e.
Proof.
  intros Hr. unfold eval_bpawns. rewrite for_bits_fold by exact Hr.
  pose proof (bits_length (pieces b BLACK PAWN)) as Hlen.
  pose proof (pawn_fold_bound
    (fun sq eval => let rank := Z.quot sq 8 in
                    if rank <=? 3 then eval - (4 - rank) * 15 else eval)
    (-60) 0 (U64.bits (pieces b BLACK PAWN))) as H.
  cbv beta zeta in H. specialize (H ltac:(
    intros sq e0 Hsq; pose proof (rank_bound sq Hsq);
    destruct (Z.leb_spec (Z.quot sq 8) 3); lia)).
  specialize (H ltac:(intros sq Hsq; apply bits_In in Hsq; tauto) e).
  cbv zeta. lia.
Qed.

Lemma eval_white_bound b :
  pieces_in_range b = true -> disjoint_pieces b = true ->
  -66620 <= eval_white b <= 66620.
Proof.
  intros Hr Hd. unfold eval_white. cbv zeta.
  pose proof (eval_material_bound b Hd).
  pose proof (eval_king_bound b (eval_material b 0)).
  pose proof (eval_center_bound b (eval_king b (eval_material b 0))).
  pose proof (eval_wpawns_bound b
    (eval_center b (eval_king b (eval_material b 0)))
    (all_pieces_in_range b WHITE PAWN Hr ltac:(cbn; auto) ltac:(cbn; auto))).
  pose proof (eval_bpawns_bound b
    (eval_wpawns b (eval_center b (eval_king b (eval_material b 0))))
    (all_pieces_in_range b BLACK PAWN Hr ltac:(cbn; auto) ltac:(cbn; auto))).
  lia.
Qed.

(** C10: on a board whose twelve piece bitboards are 64-bit words and
    pairwise disjoint, the absolute value of the static evaluation is below
    MATE - 1000 = 99 000, so the mate-threshold test never takes a static
    evaluation for a mate score. *)
Theorem evaluate_below_mate (b : Board) :
  pieces_in_range b = true -> disjoint_pieces b = true ->
  Z.abs (evaluate b) < MATE - 1000 /\ is_mate_score (evaluate b) = false.
Proof.
  intros Hr Hd. pose proof (eval_white_bound b Hr Hd) as H.
  assert (Hlt : Z.abs (evaluate b) < MATE - 1000).
  { unfold evaluate, MATE. cbv zeta. destruct (side b =? WHITE); lia. }
  split; [exact Hlt|].
  unfold is_mate_score. destruct (Z.geb_spec (Z.abs (evaluate b)) (MATE - 1000)); lia.
Qed.

(** ** Hash coherence *)

Lemma fold_left_xor k l : forall h,
  fold_left (fun a sq => Z.lxor a (k sq)) l h = Z.lxor h (xor_keys k l).
Proof.
  induction l as [|sq l IH]; intros h.
  - cbn. rewrite Z.lxor_0_r. reflexivity.
  - rewrite fold_left_cons, IH. cbn [xor_keys fold_right].
    fold (xor_keys k l). xor_algebra.
Qed.

Lemma for_bits_xor k bb h :
  U64.in_range bb ->
  U64.for_bits (fun sq hash => Z.lxor hash (k sq)) bb h = Z.lxor h (bbhash k bb).
Proof.
  intros Hr. rewrite for_bits_fold by exact Hr. apply fold_left_xor.
Qed.

Lemma xor_keys_filter_xorb k (f g : Z -> bool) l :
  xor_keys k (filter (fun i => xorb (f i) (g i)) l) =
  Z.lxor (xor_keys k (filter f l)) (xor_keys k (filter g l)).
Proof.
  induction l as [|a l IH]; [reflexivity|].
  cbn [filter]. destruct (f a), (g a); cbn [xorb xor_keys fold_right];
    fold (xor_keys k (filter (fun i => xorb (f i) (g i)) l));
    fold (xor_keys k (filter f l)); fold (xor_keys k (filter g l));
    rewrite IH; xor_algebra.
Qed.

Lemma bbhash_lxor k x y :
  bbhash k (Z.lxor x y) = Z.lxor (bbhash k x) (bbhash k y).
Proof.
  unfold bbhash, U64.bits. rewrite <- xor_keys_filter_xorb.
  f_equal. apply filter_ext. intros i. apply Z.lxor_spec.
Qed.

Lemma filter_eqb_squares_from sq n : forall i,
  filter (Z.eqb sq) (U64.squares_from n i) =
  if (i <=? sq) && (sq <? i + Z.of_nat n) then [sq] else [].
Proof.
  induction n as [|n IH]; intros i.
  - cbn. destruct (Z.leb_spec i sq), (Z.ltb_spec sq (i + 0)); cbn; auto; lia.
  - cbn [U64.squares_from filter]. rewrite IH.
    destruct (Z.eqb_spec sq i) as [->|Hne].
    + destruct (Z.leb_spec (i + 1) i); [lia|]. cbn [andb].
      destruct (Z.leb_spec i i); [|lia].
      destruct (Z.ltb_spec i (i + Z.of_nat (S n))); [reflexivity|lia].
    + destruct (Z.leb_spec (i + 1) sq), (Z.leb_spec i sq),
        (Z.ltb_spec sq (i + 1 + Z.of_nat n)),
        (Z.ltb_spec sq (i + Z.of_nat (S n))); cbn [andb]; auto; lia.
Qed.

Lemma bits_bit sq : 0 <= sq < 64 -> U64.bits (U64.bit sq) = [sq].
Proof.
  intros Hsq. unfold U64.bits, U64.squares.
  rewrite (filter_ext _ (Z.eqb sq)) by (intros i; apply bit_testbit; lia).
  rewrite filter_eqb_squares_from.
  destruct (Z.leb_spec 0 sq); [|lia].
  change (Z.of_nat 64) with 64.
  destruct (Z.ltb_spec sq (0 + 64)); [reflexivity|lia].
Qed.

Lemma bbhash_bit k sq : 0 <= sq < 64 -> bbhash k (U64.bit sq) = k sq.
Proof.
  intros Hsq. unfold bbhash. rewrite bits_bit by exact Hsq.
  cbn. apply Z.lxor_0_r.
Qed.

Lemma lor_bits_lxor s t :
  0 <= s -> 0 <= t -> s <> t ->
  Z.lor (U64.bit s) (U64.bit t) = Z.lxor (U64.bit s) (U64.bit t).
Proof.
  intros Hs Ht Hne. apply Z.bits_inj'. intros n Hn.
  rewrite Z.lor_spec, Z.lxor_spec, !bit_testbit by lia.
  destruct (Z.eqb_spec s n), (Z.eqb_spec t n); try reflexivity. lia.
Qed.

Lemma bbhash_two_bits k s t :
  0 <= s < 64 -> 0 <= t < 64 -> s <> t ->
  bbhash k (Z.lor (U64.bit s) (U64.bit t)) = Z.lxor (k s) (k t).
Proof.
  intros Hs Ht Hne. rewrite lor_bits_lxor by lia.
  rewrite bbhash_lxor, !bbhash_bit by lia. reflexivity.
Qed.

Lemma in_range_two_bits s t :
  0 <= s < 64 -> 0 <= t < 64 ->
  U64.in_range (Z.lor (U64.bit s) (U64.bit t)).
Proof. intros. apply in_range_lor; apply in_range_bit; lia. Qed.

Lemma upd2_get {A : Type} (a : Z -> Z -> A) i j v i' j' :
  upd2 a i j v i' j' = if (i' =? i) && (j' =? j) then v else a i' j'.
Proof. reflexivity. Qed.

Lemma pieces_ok_upd2 pcs c p v :
  pieces_ok pcs -> U64.in_range v -> pieces_ok (upd2 pcs c p v).
Proof.
  intros H Hv c' p' Hc Hp. rewrite upd2_get.
  destruct ((c' =? c) && (p' =? p)); auto.
Qed.

Section Coherent.

Context {keys : ZobristKeys}.

(** The twelve terms of the loops of [zobristHash]. *)
Lemma piecesHash_eq pcs h :
  pieces_ok pcs ->
  piecesHash pcs h =
  Z.lxor h
   (Z.lxor (bbhash (zobristPieces WHITE PAWN) (pcs WHITE PAWN))
   (Z.lxor (bbhash (zobristPieces WHITE KNIGHT) (pcs WHITE KNIGHT))
   (Z.lxor (bbhash (zobristPieces WHITE BISHOP) (pcs WHITE BISHOP))
   (Z.lxor (bbhash (zobristPieces WHITE ROOK) (pcs WHITE ROOK))
   (Z.lxor (bbhash (zobristPieces WHITE QUEEN) (pcs WHITE QUEEN))
   (Z.lxor (bbhash (zobristPieces WHITE KING) (pcs WHITE KING))
   (Z.lxor (bbhash (zobristPieces BLACK PAWN) (pcs BLACK PAWN))
   (Z.lxor (bbhash (zobristPieces BLACK KNIGHT) (pcs BLACK KNIGHT))
   (Z.lxor (bbhash (zobristPieces BLACK BISHOP) (pcs BLACK BISHOP))
   (Z.lxor (bbhash (zobristPieces BLACK ROOK) (pcs BLACK ROOK))
   (Z.lxor (bbhash (zobristPieces BLACK QUEEN) (pcs BLACK QUEEN))
           (bbhash (zobristPieces BLACK KING) (pcs BLACK KING))))))))))))).
Proof.
  intros H. unfold piecesHash, sides, kinds. cbn [fold_left].
  rewrite !for_bits_xor by (apply H; cbn; auto 10).
  xor_algebra.
Qed.

Lemma piecesHash_toggle pcs c p mask :
  pieces_ok pcs -> In c sides -> In p kinds -> U64.in_range mask ->
  piecesHash (upd2 pcs c p (Z.lxor (pcs c p) mask)) 0 =
  Z.lxor (piecesHash pcs 0) (bbhash (zobristPieces c p) mask).
Proof.
  intros H Hc Hp Hm.
  assert (H' : pieces_ok (upd2 pcs c p (Z.lxor (pcs c p) mask)))
    by (apply pieces_ok_upd2; [exact H|apply in_range_lxor; auto]).
  rewrite (piecesHash_eq _ 0 H'), (piecesHash_eq _ 0 H).
  rewrite !upd2_get.
  unfold sides, kinds in Hc, Hp. cbn [In] in Hc, Hp.
  destruct Hc as [<-|[<-|[]]];
    destruct Hp as [<-|[<-|[<-|[<-|[<-|[<-|[]]]]]]];
    cbv [WHITE BLACK PAWN KNIGHT BISHOP ROOK QUEEN KING Z.eqb Pos.eqb andb];
    rewrite bbhash_lxor; xor_algebra.
Qed.

Lemma zobristHash_eq b :
  zobristHash b =
  Z.lxor (Z.lxor (Z.lxor (piecesHash (pieces b) 0) (zobristCastle (castle b)))
                 (ep_key (ep b)))
         (side_key (side b)).
Proof.
  unfold zobristHash, ep_key, side_key. cbv zeta.
  destruct (ep b =? -1), (side b =? BLACK); cbn [negb];
    rewrite ?Z.lxor_0_r; reflexivity.
Qed.

Lemma defect_0 b : defect b = 0 <-> hash b = zobristHash b.
Proof. unfold defect. apply Z.lxor_eq_0_iff. Qed.

(** *** How the elementary updates move the defect *)

Lemma defect_xor_hash b k : defect (xor_hash b k) = Z.lxor (defect b) k.
Proof.
  unfold defect. rewrite !zobristHash_eq.
  cbn [xor_hash set_hash hash pieces castle ep side]. xor_algebra.
Qed.

Lemma defect_xor_pieces b c p mask :
  pieces_ok (pieces b) -> In c sides -> In p kinds -> U64.in_range mask ->
  defect (xor_pieces b c p mask) =
  Z.lxor (defect b) (bbhash (zobristPieces c p) mask).
Proof.
  intros H Hc Hp Hm. unfold defect. rewrite !zobristHash_eq.
  cbn [xor_pieces set_pieces hash pieces castle ep side].
  rewrite piecesHash_toggle by assumption. xor_algebra.
Qed.

Lemma defect_set_ep b e :
  defect (set_ep b e) = Z.lxor (defect b) (Z.lxor (ep_key (ep b)) (ep_key e)).
Proof.
  unfold defect. rewrite !zobristHash_eq.
  cbn [set_ep hash pieces castle ep side]. xor_algebra.
Qed.

Lemma defect_set_castle b c :
  defect (set_castle b c) =
  Z.lxor (defect b) (Z.lxor (zobristCastle (castle b)) (zobristCastle c)).
Proof.
  unfold defect. rewrite !zobristHash_eq.
  cbn [set_castle hash pieces castle ep side]. xor_algebra.
Qed.

Lemma defect_set_side b s :
  defect (set_side b s) =
  Z.lxor (defect b) (Z.lxor (side_key (side b)) (side_key s)).
Proof.
  unfold defect. rewrite !zobristHash_eq.
  cbn [set_side hash pieces castle ep side]. xor_algebra.
Qed.

Lemma defect_update b : defect (update b) = defect b.
Proof.
  unfold defect. rewrite !zobristHash_eq. reflexivity.
Qed.

Lemma wf_xor_pieces b c p mask :
  wf b -> In c sides -> In p kinds -> U64.in_range mask ->
  wf (xor_pieces b c p mask).
Proof.
  intros [H Hs] Hc Hp Hm. split; [|exact Hs].
  cbn [xor_pieces set_pieces pieces]. apply pieces_ok_upd2; auto.
  apply in_range_lxor; auto.
Qed.

Lemma ep_key_none : ep_key (-1) = 0.
Proof. reflexivity. Qed.

Lemma ep_key_some e : e <> -1 -> ep_key e = zobristEp e.
Proof. intros H. unfold ep_key. rewrite (proj2 (Z.eqb_neq _ _) H). reflexivity. Qed.

Lemma side_key_flip s :
  s = WHITE \/ s = BLACK ->
  side_key (1 - s) = Z.lxor (side_key s) zobristSide.
Proof. intros [-> | ->]; cbn; [reflexivity|symmetry; apply Z.lxor_nilpotent]. Qed.

(** *** The blocks of [makeMove] *)

Lemma mm_hash_out_defect b m :
  defect (mm_hash_out b m) =
  Z.lxor (defect b)
    (Z.lxor (zobristPieces (side b) (piece m) (from m))
    (Z.lxor (zobristPieces (side b) (piece m) (to m))
    (Z.lxor (ep_key (ep b)) (zobristCastle (castle b))))).
Proof.
  unfold mm_hash_out. cbv zeta. unfold ep_key.
  cbn [xor_hash set_hash side ep castle].
  destruct (ep b =? -1); cbn [negb];
    rewrite !defect_xor_hash; cbn [xor_hash set_hash castle]; xor_algebra.
Qed.

Lemma mm_hash_out_fields b m :
  pieces (mm_hash_out b m) = pieces b /\ side (mm_hash_out b m) = side b /\
  ep (mm_hash_out b m) = ep b /\ castle (mm_hash_out b m) = castle b.
Proof.
  unfold mm_hash_out. cbv zeta. cbn [xor_hash set_hash side ep castle].
  destruct (ep b =? -1); cbn [negb]; auto.
Qed.

Lemma mm_castle_defect b m :
  defect (mm_castle b m) =
  Z.lxor (defect b) (Z.lxor (zobristCastle (castle b)) (ep_key (ep b))).
Proof.
  unfold mm_castle. cbv zeta.
  rewrite defect_set_ep, defect_xor_hash, defect_set_castle.
  cbn [xor_hash set_hash set_castle castle ep]. change (ep_key (-1)) with 0.
  xor_algebra.
Qed.

Lemma mm_castle_fields b m :
  pieces (mm_castle b m) = pieces b /\ side (mm_castle b m) = side b /\
  ep (mm_castle b m) = -1.
Proof. auto. Qed.

Lemma wf_side_In b : wf b -> In (side b) sides /\ In (1 - side b) sides.
Proof. intros [_ [-> | ->]]; cbn; auto. Qed.

Lemma mm_move_piece_defect b m :
  wf b -> 0 <= from m < 64 -> 0 <= to m < 64 -> from m <> to m ->
  In (piece m) kinds ->
  defect (mm_move_piece b m) =
  Z.lxor (defect b)
    (Z.lxor (zobristPieces (side b) (piece m) (from m))
            (zobristPieces (side b) (piece m) (to m))).
Proof.
  intros Hw Hf Ht Hne Hk. unfold mm_move_piece.
  rewrite defect_xor_pieces; auto.
  - rewrite bbhash_two_bits by lia. reflexivity.
  - apply Hw.
  - apply wf_side_In, Hw.
  - apply in_range_two_bits; lia.
Qed.

Lemma mm_move_piece_fields b m :
  wf b -> 0 <= from m < 64 -> 0 <= to m < 64 -> In (piece m) kinds ->
  wf (mm_move_piece b m) /\ side (mm_move_piece b m) = side b /\
  ep (mm_move_piece b m) = ep b.
Proof.
  intros Hw Hf Ht Hk. split; [|split; reflexivity].
  apply wf_xor_pieces; auto.
  - apply wf_side_In, Hw.
  - apply in_range_two_bits; lia.
Qed.

Lemma mm_capture_loop_spec opponent m ps : forall b,
  wf b -> In opponent sides -> 0 <= to m < 64 ->
  (forall p, In p ps -> In p kinds) ->
  defect (mm_capture_loop ps b opponent m) = defect b /\
  wf (mm_capture_loop ps b opponent m) /\
  side (mm_capture_loop ps b opponent m) = side b /\
  ep (mm_capture_loop ps b opponent m) = ep b.
Proof.
  induction ps as [|p ps IH]; intros b Hw Ho Ht Hps; cbn [mm_capture_loop].
  - auto.
  - destruct (meets (pieces b opponent p) (U64.bit (to m))).
    + assert (Hp : In p kinds) by (apply Hps; left; reflexivity).
      cbv zeta. split; [|split; [|split; reflexivity]].
      * rewrite defect_xor_hash, defect_xor_pieces; auto;
          [|apply Hw|apply in_range_bit; lia].
        rewrite bbhash_bit by lia. xor_algebra.
      * apply (wf_xor_pieces b opponent p); auto. apply in_range_bit; lia.
    + apply IH; auto. intros q Hq. apply Hps. right. exact Hq.
Qed.

End Coherent.

Section CoherentMove.

Context {keys : ZobristKeys}.

Lemma wf_xor_hash b k : wf b -> wf (xor_hash b k).
Proof. exact (fun H => H). Qed.

Lemma wf_set_ep b e : wf b -> wf (set_ep b e).
Proof. exact (fun H => H). Qed.

Lemma side_xor_hash b k : side (xor_hash b k) = side b.
Proof. reflexivity. Qed.
Lemma side_xor_pieces b c p v : side (xor_pieces b c p v) = side b.
Proof. reflexivity. Qed.
Lemma side_set_ep b e : side (set_ep b e) = side b.
Proof. reflexivity. Qed.
Lemma ep_xor_hash b k : ep (xor_hash b k) = ep b.
Proof. reflexivity. Qed.
Lemma ep_xor_pieces b c p v : ep (xor_pieces b c p v) = ep b.
Proof. reflexivity. Qed.
Lemma ep_set_ep b e : ep (set_ep b e) = e.
Proof. reflexivity. Qed.

Ltac fields :=
  repeat first
    [ rewrite side_xor_hash | rewrite side_xor_pieces | rewrite side_set_ep
    | rewrite ep_xor_hash | rewrite ep_xor_pieces | rewrite ep_set_ep ].

Ltac wf_solve :=
  repeat first
    [ assumption
    | apply wf_xor_hash
    | apply wf_set_ep
    | apply wf_xor_pieces
    | apply in_range_bit; lia
    | apply in_range_two_bits; lia
    | solve [cbn [In sides kinds]; auto 10]
    | match goal with
      | H : wf ?b |- In (side ?b) sides => exact (proj1 (wf_side_In b H))
      | H : wf ?b |- pieces_ok (pieces ?b) => exact (proj1 H)
      | |- pieces_ok (pieces ?b) =>
          apply (fun H : wf b => proj1 H)
      end ].

Ltac defect_step :=
  first
    [ rewrite defect_xor_hash
    | rewrite defect_set_ep
    | rewrite defect_xor_pieces by wf_solve ].

Lemma mm_special_spec b opponent prev_ep m :
  wf b -> In opponent sides -> 0 <= from m < 64 -> 0 <= to m < 64 ->
  (promo m = 0 \/ promo m = QUEEN) -> ep b = -1 ->
  (piece m = PAWN -> to m = prev_ep ->
   0 <= (if side b =? WHITE then to m - 8 else to m + 8) < 64) ->
  (piece m = PAWN -> Z.abs (from m - to m) = 16 ->
   (if side b =? WHITE then from m + 8 else from m - 8) <> -1) ->
  defect (mm_special b opponent prev_ep m) = defect b /\
  wf (mm_special b opponent prev_ep m) /\
  side (mm_special b opponent prev_ep m) = side b /\
  ep (mm_special b opponent prev_ep m) =
    (if (piece m =? PAWN) && (Z.abs (from m - to m) =? 16)
     then if side b =? WHITE then from m + 8 else from m - 8
     else -1).
Proof.
  intros Hw Ho Hf Ht Hpr Hep Hcap Hdbl. unfold mm_special.
  destruct (Z.eqb_spec (piece m) PAWN) as [Hpawn|Hnp]; cbn [andb].
  - specialize (Hcap Hpawn). specialize (Hdbl Hpawn).
    cbv zeta.
    destruct (Z.eqb_spec (to m) prev_ep) as [Hto|Hto];
      [specialize (Hcap Hto)|clear Hcap];
      (destruct (Z.eqb_spec (Z.abs (from m - to m)) 16) as [Hd|Hd];
       [specialize (Hdbl Hd)|clear Hdbl]);
      (destruct (Z.eqb_spec (promo m) 0) as [Hp0|Hp0]; cbn [negb];
       [|assert (Hpq : promo m = QUEEN) by tauto; rewrite Hpq]);
      fields;
      set (csq := if side b =? WHITE then to m - 8 else to m + 8) in *;
      set (nep := if side b =? WHITE then from m + 8 else from m - 8) in *;
      (split; [|split; [|split]]);
      try reflexivity; try exact Hep;
      try (repeat defect_step; fields;
           rewrite ?Hep; change (ep_key (-1)) with 0;
           rewrite ?ep_key_some by assumption;
           rewrite ?bbhash_bit by lia;
           xor_algebra);
      try (wf_solve; fail).
  - destruct (Z.eqb_spec (piece m) KING) as [Hking|Hnk].
    + repeat match goal with
      | |- context [if ?c then _ else _] => destruct c
      end;
      (split; [|split; [|split]]);
      try reflexivity; try exact Hep; try exact Hw;
      try (cbv zeta; repeat defect_step;
           rewrite ?bbhash_two_bits by lia; xor_algebra);
      try (cbv zeta; wf_solve; fail).
    + auto.
Qed.

(** [makeMove] keeps the defect of the hash. *)
Lemma makeMove_defect b m :
  wf b -> ep_ok b -> move_ok b m ->
  defect (makeMove b m) = defect b.
Proof.
  intros Hw Hep (Hf & Ht & Hne & Hk & Hpr & Hdbl).
  destruct (wf_side_In b Hw) as [Hs Ho].
  unfold makeMove. cbv zeta.
  destruct (mm_hash_out_fields b m) as (P1 & S1 & E1 & C1).
  destruct (mm_castle_fields (mm_hash_out b m) m) as (P2 & S2 & E2).
  pose proof (mm_hash_out_defect b m) as D1.
  pose proof (mm_castle_defect (mm_hash_out b m) m) as D2.
  set (b2 := mm_castle (mm_hash_out b m) m) in *.
  assert (Hw2 : wf b2).
  { split; [rewrite P2, P1; apply Hw|rewrite S2, S1; apply Hw]. }
  pose proof (mm_move_piece_defect b2 m Hw2 Hf Ht Hne Hk) as D3.
  destruct (mm_move_piece_fields b2 m Hw2 Hf Ht Hk) as (Hw3 & S3 & E3).
  set (b3 := mm_move_piece b2 m) in *.
  destruct (mm_capture_loop_spec (1 - side b) m kinds b3 Hw3 Ho Ht
              (fun p H => H)) as (D4 & Hw4 & S4 & E4).
  set (b4 := mm_capture_loop kinds b3 (1 - side b) m) in *.
  assert (Hsb4 : side b4 = side b) by congruence.
  assert (Heb4 : ep b4 = -1) by congruence.
  destruct (mm_special_spec b4 (1 - side b) (ep b) m Hw4 Ho Hf Ht Hpr Heb4)
    as (D5 & Hw5 & S5 & E5).
  { intros _ Hto. rewrite Hsb4. destruct Hep as [Hep|[[-> Hep]|[-> Hep]]]; cbn; lia. }
  { intros Hp Hd. rewrite Hsb4.
    destruct (Hdbl Hp Hd) as [[-> ?]|[-> ?]]; cbn; lia. }
  set (b5 := mm_special b4 (1 - side b) (ep b) m) in *.
  rewrite defect_xor_hash, defect_set_side, defect_update.
  change (side (update b5)) with (side b5).
  rewrite S5, Hsb4, side_key_flip by apply Hw.
  rewrite D5, D4, D3, D2, D1, S2, S1, E1, C1.
  xor_algebra.
Qed.

(** The fields of the position after [makeMove]. *)
Lemma makeMove_fields b m :
  wf b -> ep_ok b -> move_ok b m ->
  wf (makeMove b m) /\ occ_ok (makeMove b m) /\
  ep (makeMove b m) =
    (if (piece m =? PAWN) && (Z.abs (from m - to m) =? 16)
     then if side b =? WHITE then from m + 8 else from m - 8
     else -1).
Proof.
  intros Hw Hep (Hf & Ht & Hne & Hk & Hpr & Hdbl).
  destruct (wf_side_In b Hw) as [Hs Ho].
  destruct (mm_hash_out_fields b m) as (P1 & S1 & E1 & C1).
  destruct (mm_castle_fields (mm_hash_out b m) m) as (P2 & S2 & E2).
  set (b2 := mm_castle (mm_hash_out b m) m) in *.
  assert (Hw2 : wf b2).
  { split; [rewrite P2, P1; apply Hw|rewrite S2, S1; apply Hw]. }
  destruct (mm_move_piece_fields b2 m Hw2 Hf Ht Hk) as (Hw3 & S3 & E3).
  set (b3 := mm_move_piece b2 m) in *.
  destruct (mm_capture_loop_spec (1 - side b) m kinds b3 Hw3 Ho Ht
              (fun p H => H)) as (D4 & Hw4 & S4 & E4).
  set (b4 := mm_capture_loop kinds b3 (1 - side b) m) in *.
  assert (Hsb4 : side b4 = side b) by congruence.
  assert (Heb4 : ep b4 = -1) by congruence.
  destruct (mm_special_spec b4 (1 - side b) (ep b) m Hw4 Ho Hf Ht Hpr Heb4)
    as (D5 & Hw5 & S5 & E5).
  { intros _ Hto. rewrite Hsb4. destruct Hep as [Hep|[[-> Hep]|[-> Hep]]]; cbn; lia. }
  { intros Hp Hd. rewrite Hsb4.
    destruct (Hdbl Hp Hd) as [[-> ?]|[-> ?]]; cbn; lia. }
  set (b5 := mm_special b4 (1 - side b) (ep b) m) in *.
  change (makeMove b m)
    with (xor_hash (set_side (update b5) (1 - side b)) zobristSide).
  split; [|split].
  - split.
    + exact (proj1 Hw5).
    + cbn [side xor_hash set_hash set_side].
      destruct (proj2 Hw) as [-> | ->]; cbn; auto.
  - intros c Hc. cbn [In sides] in Hc.
    destruct Hc as [<-|[<-|[]]]; reflexivity.
  - change (ep (xor_hash (set_side (update b5) (1 - side b)) zobristSide))
      with (ep b5).
    rewrite E5, Hsb4. reflexivity.
Qed.

Lemma makeMove_ep_ok b m :
  wf b -> ep_ok b -> move_ok b m -> ep_ok (makeMove b m).
Proof.
  intros Hw Hep Hm.
  destruct (makeMove_fields b m Hw Hep Hm) as (_ & _ & E).
  destruct Hm as (Hf & Ht & Hne & Hk & Hpr & Hdbl).
  unfold ep_ok. rewrite E, makeMove_side.
  destruct (Z.eqb_spec (piece m) PAWN) as [Hp|Hp]; cbn [andb]; [|auto].
  destruct (Z.eqb_spec (Z.abs (from m - to m)) 16) as [Hd|Hd]; [|auto].
  destruct (Hdbl Hp Hd) as [[-> ?]|[-> ?]]; cbn; right; [left|right];
    (split; [reflexivity|lia]).
Qed.

End CoherentMove.

(** ** Pseudo-legal moves *)

(** No piece attacks the square it stands on. *)
Lemma ray_loop_avoid cond dr df (P : Z -> Z -> Prop) sq blockers :
  (forall r f, P r f -> cond r f = true ->
     0 <= r * 8 + f /\ r * 8 + f <> sq /\ P (r + dr) (f + df)) ->
  forall fuel r f attacks, P r f ->
    Z.testbit (ray_loop cond dr df fuel r f blockers attacks) sq =
    Z.testbit attacks sq.
Proof.
  intros HP. induction fuel as [|fuel IH]; intros r f attacks Hrf;
    cbn [ray_loop]; [reflexivity|].
  destruct (cond r f) eqn:Hc; [|reflexivity].
  destruct (HP r f Hrf Hc) as (H0 & Hne & Hnext).
  assert (Hb : Z.testbit (Z.lor attacks (U64.bit (r * 8 + f))) sq
               = Z.testbit attacks sq).
  { rewrite Z.lor_spec, bit_testbit by lia.
    destruct (Z.eqb_spec (r * 8 + f) sq); [contradiction|apply orb_false_r]. }
  cbv zeta. destruct (Z.land (U64.bit (r * 8 + f)) blockers =? 0).
  - rewrite IH by exact Hnext. exact Hb.
  - exact Hb.
Qed.

Lemma square_coords sq :
  0 <= sq < 64 ->
  sq = Z.quot sq 8 * 8 + Z.rem sq 8 /\
  0 <= Z.quot sq 8 <= 7 /\ 0 <= Z.rem sq 8 <= 7.
Proof.
  intros H. pose proof (Z.quot_rem' sq 8).
  pose proof (Z.rem_bound_pos sq 8 ltac:(lia) ltac:(lia)).
  pose proof (rank_bound sq H). lia.
Qed.

Ltac ray_side :=
  let r := fresh "r" in let f := fresh "f" in
  let H := fresh "H" in let Hc := fresh "Hc" in
  intros r f H Hc;
  rewrite ?andb_true_iff in Hc;
  rewrite ?Z.leb_le, ?Z.geb_le in Hc; lia.

Lemma rook_attacks_avoid sq blockers :
  0 <= sq < 64 -> Z.testbit (get_rook_attacks sq blockers) sq = false.
Proof.
  intros Hsq. destruct (square_coords sq Hsq) as (E & Hr & Hf).
  unfold get_rook_attacks. cbv zeta.
  set (tr := Z.quot sq 8) in *. set (tf := Z.rem sq 8) in *.
  rewrite (ray_loop_avoid _ _ _ (fun r f => r = tr /\ f <= tf - 1) sq)
    by (try ray_side; lia).
  rewrite (ray_loop_avoid _ _ _ (fun r f => r = tr /\ tf + 1 <= f) sq)
    by (try ray_side; lia).
  rewrite (ray_loop_avoid _ _ _ (fun r f => r <= tr - 1 /\ f = tf) sq)
    by (try ray_side; lia).
  rewrite (ray_loop_avoid _ _ _ (fun r f => tr + 1 <= r /\ f = tf) sq)
    by (try ray_side; lia).
  apply Z.bits_0.
Qed.

Lemma bishop_attacks_avoid sq blockers :
  0 <= sq < 64 -> Z.testbit (get_bishop_attacks sq blockers) sq = false.
Proof.
  intros Hsq. destruct (square_coords sq Hsq) as (E & Hr & Hf).
  unfold get_bishop_attacks. cbv zeta.
  set (tr := Z.quot sq 8) in *. set (tf := Z.rem sq 8) in *.
  rewrite (ray_loop_avoid _ _ _ (fun r f => r <= tr - 1 /\ f <= tf - 1) sq)
    by (try ray_side; lia).
  rewrite (ray_loop_avoid _ _ _ (fun r f => r <= tr - 1 /\ tf + 1 <= f) sq)
    by (try ray_side; lia).
  rewrite (ray_loop_avoid _ _ _ (fun r f => tr + 1 <= r /\ f <= tf - 1) sq)
    by (try ray_side; lia).
  rewrite (ray_loop_avoid _ _ _ (fun r f => tr + 1 <= r /\ tf + 1 <= f) sq)
    by (try ray_side; lia).
  apply Z.bits_0.
Qed.

Lemma table_avoid :
  forallb (fun sq => negb (Z.testbit (KnightMoves sq) sq)
                     && negb (Z.testbit (KingMoves sq) sq)) U64.squares = true.
Proof. vm_compute. reflexivity. Qed.

Lemma knight_king_avoid sq :
  0 <= sq < 64 ->
  Z.testbit (KnightMoves sq) sq = false /\ Z.testbit (KingMoves sq) sq = false.
Proof.
  intros Hsq. pose proof table_avoid as H. rewrite forallb_forall in H.
  specialize (H sq (proj2 (squares_In sq) Hsq)).
  apply andb_true_iff in H. rewrite !negb_true_iff in H. exact H.
Qed.

Section PseudoLegal.

Context {keys : ZobristKeys}.

Ltac b2p :=
  repeat match goal with
  | H : (_ || _) = false |- _ => apply orb_false_iff in H; destruct H
  | H : (_ && _) = true |- _ => apply andb_true_iff in H; destruct H
  | H : negb _ = true |- _ => apply negb_true_iff in H
  | H : negb _ = false |- _ => apply negb_false_iff in H
  | H : (_ <? _) = true |- _ => apply Z.ltb_lt in H
  | H : (_ <? _) = false |- _ => apply Z.ltb_ge in H
  | H : (_ >? _) = true |- _ => apply Z.gtb_lt in H
  | H : (_ >? _) = false |- _ => rewrite Z.gtb_ltb in H; apply Z.ltb_ge in H
  | H : (_ >=? _) = true |- _ => apply Z.geb_le in H
  | H : (_ >=? _) = false |- _ => rewrite Z.geb_leb in H; apply Z.leb_gt in H
  | H : (_ <=? _) = true |- _ => apply Z.leb_le in H
  | H : (_ <=? _) = false |- _ => apply Z.leb_gt in H
  | H : (_ =? _) = true |- _ => apply Z.eqb_eq in H
  | H : (_ =? _) = false |- _ => apply Z.eqb_neq in H
  end.

Lemma Forall_push {A : Type} (P : A -> Prop) moves x :
  Forall P moves -> P x -> Forall P (push_back moves x).
Proof.
  intros H Hx. unfold push_back. apply Forall_app. split; auto.
Qed.

Lemma move_ok_pawn b f t c pr :
  0 <= f < 64 -> 0 <= t < 64 -> f <> t ->
  (pr = 0 \/ pr = QUEEN) ->
  (Z.abs (f - t) = 16 ->
   (side b = WHITE /\ 8 <= f <= 15) \/ (side b = BLACK /\ 48 <= f <= 55)) ->
  move_ok b (Move_new f t PAWN c pr).
Proof.
  intros. unfold move_ok. cbn [Move_new from to piece promo].
  repeat split; try lia; auto; cbn; auto.
Qed.

Lemma move_ok_piece b f t p :
  0 <= f < 64 -> 0 <= t < 64 -> f <> t -> In p kinds -> p <> PAWN ->
  move_ok b (Move_new f t p (-1) 0).
Proof.
  intros. unfold move_ok. cbn [Move_new from to piece promo].
  repeat split; try lia; auto; intros; contradiction.
Qed.

Lemma gen_pawn_push_ok b f moves :
  wf b -> 0 <= f < 64 ->
  Forall (move_ok b) moves -> Forall (move_ok b) (gen_pawn_push b f PAWN moves).
Proof.
  intros [_ Hs] Hf Hm. unfold gen_pawn_push. cbv zeta.
  destruct (square_coords f Hf) as (E & Hr & Hfl).
  destruct Hs as [Hs|Hs]; rewrite Hs;
    [change (WHITE =? WHITE) with true|change (BLACK =? WHITE) with false];
    cbv iota;
    repeat match goal with
    | |- context [if ?c then _ else _] => destruct c eqn:?
    end; b2p;
    repeat apply Forall_push; try assumption;
    apply move_ok_pawn; auto; lia.
Qed.

Lemma gen_pawn_capture_ok b co f moves d :
  0 <= f < 64 -> d = 7 \/ d = 9 \/ d = -7 \/ d = -9 ->
  Forall (move_ok b) moves ->
  Forall (move_ok b) (gen_pawn_capture b co f PAWN moves d).
Proof.
  intros Hf Hd Hm. unfold gen_pawn_capture. cbv zeta.
  repeat match goal with
  | |- context [if ?c then _ else _] => destruct c eqn:?
  end; b2p;
  repeat apply Forall_push; try assumption;
  apply move_ok_pawn; auto; lia.
Qed.

Lemma gen_pawn_ok b co f moves :
  wf b -> 0 <= f < 64 ->
  Forall (move_ok b) moves -> Forall (move_ok b) (gen_pawn b co f PAWN moves).
Proof.
  intros Hw Hf Hm. unfold gen_pawn. cbv zeta. cbn [fold_left].
  assert (Hd : forall k, k = 8 \/ k = -8 ->
            (k - 1 = 7 \/ k - 1 = 9 \/ k - 1 = -7 \/ k - 1 = -9) /\
            (k + 1 = 7 \/ k + 1 = 9 \/ k + 1 = -7 \/ k + 1 = -9)) by lia.
  assert (Hdir : (if side b =? WHITE then 8 else -8) = 8 \/
                 (if side b =? WHITE then 8 else -8) = -8)
    by (destruct (side b =? WHITE); auto).
  destruct (Hd _ Hdir) as [H1 H2].
  apply gen_pawn_capture_ok; auto.
  apply gen_pawn_capture_ok; auto.
  destruct (negb co); auto. apply gen_pawn_push_ok; auto.
Qed.

Lemma gen_castling_ok b moves :
  Forall (move_ok b) moves -> Forall (move_ok b) (gen_castling b moves).
Proof.
  intros Hm. unfold gen_castling.
  repeat match goal with
  | |- context [if ?c then _ else _] => destruct c
  end; cbv zeta;
  repeat apply Forall_push; try assumption;
  apply move_ok_piece; try lia; cbn; auto 10; unfold KING, PAWN; lia.
Qed.

Lemma attack_moves_ok b f p attacks moves :
  0 <= f < 64 -> In p kinds -> p <> PAWN ->
  U64.in_range attacks -> Z.testbit attacks f = false ->
  Forall (move_ok b) moves ->
  Forall (move_ok b)
    (U64.for_bits (fun to moves => push_back moves (Move_new f to p (-1) 0))
                  attacks moves).
Proof.
  intros Hf Hp Hnp Hr Hav Hm. rewrite for_bits_fold by exact Hr.
  assert (Hb : forall t, In t (U64.bits attacks) -> 0 <= t < 64 /\ t <> f).
  { intros t Ht. apply bits_In in Ht. destruct Ht as [Ht1 Ht2].
    split; [exact Ht1|]. intros ->. congruence. }
  revert moves Hm. induction (U64.bits attacks) as [|t l IH]; intros moves Hm.
  - exact Hm.
  - rewrite fold_left_cons. apply IH.
    + intros t' Ht'. apply Hb. right. exact Ht'.
    + apply Forall_push; [exact Hm|].
      destruct (Hb t (or_introl eq_refl)).
      apply move_ok_piece; auto.
Qed.

Lemma occupied_in_range b c :
  wf b -> occ_ok b -> In c sides -> U64.in_range (occupied b c).
Proof.
  intros [Hp _] Ho Hc. rewrite (Ho c Hc). unfold kinds. cbn [fold_left].
  repeat apply in_range_lor; try apply in_range_0; apply Hp; cbn; auto 10.
Qed.

Lemma gen_attacks_ok b co f p :
  wf b -> occ_ok b -> 0 <= f < 64 ->
  U64.in_range (gen_attacks b co f p) /\
  Z.testbit (gen_attacks b co f p) f = false.
Proof.
  intros Hw Ho Hf. unfold gen_attacks. cbv zeta.
  set (attacks := if p =? KNIGHT then _ else _).
  assert (Ha : Z.testbit attacks f = false).
  { subst attacks. destruct (knight_king_avoid f Hf) as [Hn Hk].
    repeat match goal with
    | |- context [if ?c then _ else _] => destruct c
    end; auto using rook_attacks_avoid, bishop_attacks_avoid, Z.bits_0.
    rewrite Z.lor_spec, rook_attacks_avoid, bishop_attacks_avoid by lia.
    reflexivity. }
  destruct co.
  - split.
    + apply in_range_land_r. apply occupied_in_range; auto.
      apply wf_side_In, Hw.
    + rewrite Z.land_spec, Ha. reflexivity.
  - split.
    + apply in_range_land_r, in_range_lnot.
    + rewrite Z.land_spec, Ha. reflexivity.
Qed.

Lemma gen_piece_ok b co p f moves :
  wf b -> occ_ok b -> In p kinds -> 0 <= f < 64 ->
  Forall (move_ok b) moves -> Forall (move_ok b) (gen_piece b co p f moves).
Proof.
  intros Hw Ho Hp Hf Hm. unfold gen_piece.
  destruct (Z.eqb_spec p PAWN) as [->|Hnp].
  - rewrite for_bits_fold by apply in_range_0. rewrite bits_zero.
    cbn [fold_left]. apply gen_pawn_ok; auto.
  - destruct ((p =? KING) && negb co).
    + apply attack_moves_ok; auto.
      * apply in_range_land_r, in_range_lnot.
      * rewrite Z.land_spec, (proj2 (knight_king_avoid f Hf)). reflexivity.
      * apply gen_castling_ok. exact Hm.
    + destruct (gen_attacks_ok b co f p Hw Ho Hf).
      apply attack_moves_ok; auto.
Qed.

(** Every pseudo-legal move is one [makeMove] keeps the hash coherent on. *)
Lemma pseudoMoves_ok b co :
  wf b -> occ_ok b -> Forall (move_ok b) (pseudoMoves b co).
Proof.
  intros Hw Ho. unfold pseudoMoves.
  assert (Hstep : forall ps moves,
            (forall p, In p ps -> In p kinds) ->
            Forall (move_ok b) moves ->
            Forall (move_ok b)
              (fold_left (fun moves p =>
                  U64.for_bits (gen_piece b co p) (pieces b (side b) p) moves)
                ps moves)).
  { induction ps as [|p ps IH]; intros moves Hps Hm; [exact Hm|].
    rewrite fold_left_cons. apply IH; [intros q Hq; apply Hps; right; exact Hq|].
    assert (Hp : In p kinds) by (apply Hps; left; reflexivity).
    assert (Hr : U64.in_range (pieces b (side b) p))
      by (apply Hw; [apply wf_side_In, Hw|exact Hp]).
    rewrite for_bits_fold by exact Hr.
    assert (Hb : forall f, In f (U64.bits (pieces b (side b) p)) -> 0 <= f < 64)
      by (intros f Hfb; apply bits_In in Hfb; tauto).
    revert moves Hm.
    induction (U64.bits (pieces b (side b) p)) as [|f l IHl]; intros moves Hm.
    - exact Hm.
    - rewrite fold_left_cons. apply IHl.
      + intros f' Hf'. apply Hb. right. exact Hf'.
      + apply gen_piece_ok; auto. apply Hb. left. reflexivity. }
  apply Hstep; auto.
Qed.

(** *** The invariant of reachable positions *)

Lemma zobristHash_set_hash b h : zobristHash (set_hash b h) = zobristHash b.
Proof.
  unfold zobristHash. cbn [pieces castle ep side set_hash]. reflexivity.
Qed.

Lemma Board_init_hash : hash Board_init = zobristHash Board_init.
Proof.
  unfold Board_init. cbv zeta. rewrite zobristHash_set_hash.
  cbn [hash set_hash]. reflexivity.
Qed.

Lemma coherent_init : coherent Board_init.
Proof.
  unfold coherent. repeat apply conj.
  - intros c p Hc Hp. cbn [In sides kinds] in Hc, Hp.
    destruct Hc as [<-|[<-|[]]];
      destruct Hp as [<-|[<-|[<-|[<-|[<-|[<-|[]]]]]]];
      (vm_compute; split; [discriminate|reflexivity]).
  - left. reflexivity.
  - intros c Hc. cbn [In sides] in Hc. destruct Hc as [<-|[<-|[]]]; reflexivity.
  - left. reflexivity.
  - apply Board_init_hash.
Qed.

Lemma coherent_makeMove b m co :
  coherent b -> In m (generateMoves b co) -> coherent (makeMove b m).
Proof.
  intros (Hw & Ho & He & Hh) Hm.
  apply generateMoves_In in Hm. destruct Hm as [Hm _].
  pose proof (pseudoMoves_ok b co Hw Ho) as Hall.
  rewrite Forall_forall in Hall. specialize (Hall m Hm).
  destruct (makeMove_fields b m Hw He Hall) as (Hw' & Ho' & _).
  repeat apply conj; auto.
  - apply Hw'.
  - apply Hw'.
  - apply makeMove_ep_ok; auto.
  - apply defect_0. rewrite makeMove_defect by assumption.
    apply defect_0. exact Hh.
Qed.

Lemma reachable_coherent b : reachable b -> coherent b.
Proof.
  induction 1 as [|b m co Hr IH].
  - apply coherent_init.
  - eapply coherent_makeMove; eauto.
Qed.

(** C1: every position reachable from the start position by playing moves
    returned by the legal move generator (in either mode) with [makeMove]
    has an incrementally maintained [hash] equal to the Zobrist hash
    recomputed from scratch over its pieces, castling rights, en-passant
    square and side to move. *)
Theorem hash_coherence (b : Board) :
  reachable b -> hash b = zobristHash b.
Proof.
  intros H. apply reachable_coherent in H. apply H.
Qed.

End PseudoLegal.

(* ================================================================== *)
(** * Instances on concrete positions *)


(** ** Hash coherence *)

Lemma reachable_after_e4 : @reachable sample_keys after_e4.
Proof.
  apply (@reachable_move sample_keys start_board e2e4 false).
  - apply reachable_init.
  - in_list.
Qed.

Lemma reachable_after_e4_d5 : @reachable sample_keys after_e4_d5.
Proof.
  apply (@reachable_move sample_keys after_e4 d7d5 false).
  - apply reachable_after_e4.
  - in_list.
Qed.

Lemma reachable_ep_board : @reachable sample_keys ep_board.
Proof.
  apply (@reachable_move sample_keys (play start_board [e2e4; a7a6; e4e5]) d7d5 false);
    [|in_list].
  apply (@reachable_move sample_keys (play start_board [e2e4; a7a6]) e4e5 false);
    [|in_list].
  apply (@reachable_move sample_keys after_e4 a7a6 false); [|in_list].
  apply reachable_after_e4.
Qed.

(** The position after 1. e4 a6 2. e5 d5, with its en-passant square, has a
    coherent hash. *)
Lemma hash_coherence_witness :
  @reachable sample_keys ep_board /\
  hash ep_board = @zobristHash sample_keys ep_board.
Proof.
  split.
  - exact reachable_ep_board.
  - apply (@hash_coherence sample_keys ep_board). exact reachable_ep_board.
Defined.

(** ** Null move *)

(** After 1. e4 the en-passant square is e3; the flipped position carries a
    hash that is not its Zobrist hash. *)
Lemma nullFlip_hash_defect_witness :
  ep after_e4 = 20 /\
  hash (@nullFlip sample_keys after_e4) =
    Z.lxor (@zobristHash sample_keys (@nullFlip sample_keys after_e4))
           (@zobristEp sample_keys 20) /\
  hash (@nullFlip sample_keys after_e4) <>
    @zobristHash sample_keys (@nullFlip sample_keys after_e4).
Proof.
  split; [reflexivity|]. split.
  - apply (@nullFlip_hash_defect sample_keys after_e4).
    + apply (@reachable_coherent sample_keys). exact reachable_after_e4.
    + right. reflexivity.
    + vm_compute. discriminate.
  - vm_compute. discriminate.
Defined.

(** ** Move ordering *)

(** After the cutoff on e2e4 at address 512, the same move e2e4 in a
    vector at address 4096 gets its history score 9, and the other move
    e2e3 at address 512 gets 90 000. *)
Lemma killer_compares_addresses_witness :
  Move_eq e2e4 e2e4 = true /\
  score (scoreMove cutoff_engine start_board None 3 (elem_addr 4096 0) e2e4) = 9 /\
  Move_eq e2e3 e2e4 = false /\
  score (scoreMove cutoff_engine start_board None 3 512 e2e3) = 90000.
Proof.
  split; [reflexivity|]. split; [|split; [reflexivity|]].
  - transitivity
      ((if elem_addr 4096 0 =? 512 then 90000
        else HistoryTable.get (scores cutoff_engine) (side start_board)
               (from e2e4) (to e2e4)) + promo_bonus e2e4); [|by_compute].
    apply (killer_compares_addresses start_board 3 50 3 false 512 e2e4 100
             (mkLoop 0 (- INF) Move_default Move_default 1) Engine_init
             start_board None (elem_addr 4096 0) e2e4);
      [reflexivity|cbn; lia|reflexivity|reflexivity|reflexivity].
  - transitivity
      ((if 512 =? 512 then 90000
        else HistoryTable.get (scores cutoff_engine) (side start_board)
               (from e2e3) (to e2e3)) + promo_bonus e2e3); [|by_compute].
    apply (killer_compares_addresses start_board 3 50 3 false 512 e2e4 100
             (mkLoop 0 (- INF) Move_default Move_default 1) Engine_init
             start_board None 512 e2e3);
      [reflexivity|cbn; lia|reflexivity|reflexivity|reflexivity].
Defined.

(** The transposition-table move comes before the killers, and the
    promotion bonus on top of them: a killer that matches the
    transposition-table move gets 1 000 000, and a quiet queen promotion
    that is a killer gets 170 000. *)
Lemma killer_precedence_examples :
  (is_quiet start_board e2e4 = true /\
   KillerMoves.isKiller (killers (killer_engine 4096)) (elem_addr 4096 0) 3 = true /\
   score (scoreMove (killer_engine 4096) start_board (Some e2e4) 3
                    (elem_addr 4096 0) e2e4) = 1000000) /\
  (is_quiet promo_board a7a8q = true /\
   In a7a8q (@generateMoves sample_keys promo_board false) /\
   KillerMoves.isKiller (killers (killer_engine 4096)) (elem_addr 4096 0) 3 = true /\
   score (scoreMove (killer_engine 4096) promo_board None 3
                    (elem_addr 4096 0) a7a8q) = 170000).
Proof.
  split.
  - split; [by_compute|]. split; by_compute.
  - split; [by_compute|]. split; [in_list|]. split; by_compute.
Qed.

Lemma victim_e4d5 : victim_of after_e4_d5 e4d5 PAWN.
Proof.
  split; [cbn; auto|]. split; [reflexivity|].
  intros p' Hp' Hlt. cbn [In kinds] in Hp'.
  destruct Hp' as [<-|[<-|[<-|[<-|[<-|[<-|[]]]]]]]; try reflexivity.
  unfold PAWN in Hlt. lia.
Qed.

(** The capture e4xd5 gets 100 000 + 10 * 100 - 100. *)
Lemma capture_score_witness :
  exists m',
    nth_error (scoreLoop Engine_init after_e4_d5 None 0 4096 0 [e4d5]) 0 = Some m' /\
    score m' = 100900.
Proof.
  destruct (capture_score Engine_init after_e4_d5 None 0 4096 [e4d5] 0%nat e4d5
              eq_refl eq_refl) as (m' & H1 & H2 & _).
  exists m'. split; [exact H1|].
  rewrite (H2 PAWN eq_refl victim_e4d5). reflexivity.
Defined.

(** C6 as stated fails in three ways.  (1) The en-passant capture e5xd6,
    which [generateMoves] returns and [makeMove] plays by removing the pawn
    on d5, gets the history score 0, not 100 900.  (2) The capture e4xd5
    gets 1 000 000 when it matches the transposition-table move.  (3) The
    capturing promotion a7xb8=Q gets 184 900, not 104 900. *)
Lemma capture_score_counterexample :
  (In e5d6 (@generateMoves sample_keys ep_board false) /\
   piece e5d6 = PAWN /\ to e5d6 = ep ep_board /\
   U64.popcountll (pieces ep_board BLACK PAWN) = 8 /\
   U64.popcountll (pieces (@makeMove sample_keys ep_board e5d6) BLACK PAWN) = 7 /\
   score (scoreMove Engine_init ep_board None 0 (elem_addr 4096 15) e5d6) = 0) /\
  (In e4d5 (@generateMoves sample_keys after_e4_d5 false) /\
   score (scoreMove Engine_init after_e4_d5 (Some e4d5) 0 (elem_addr 4096 0) e4d5)
     = 1000000) /\
  (In a7b8q (@generateMoves sample_keys promo_board false) /\
   victim_of promo_board a7b8q ROOK /\
   100000 + 10 * victimValues ROOK - victimValues (piece a7b8q) = 104900 /\
   score (scoreMove Engine_init promo_board None 0 (elem_addr 4096 1) a7b8q)
     = 184900).
Proof.
  split; [|split].
  - split; [in_list|]. repeat (split; [by_compute|]). by_compute.
  - split; [in_list|by_compute].
  - split; [in_list|]. split; [|split; by_compute].
    split; [cbn; auto 10|]. split; [by_compute|].
    intros p' Hp' Hlt. cbn [In kinds] in Hp'.
    destruct Hp' as [<-|[<-|[<-|[<-|[<-|[<-|[]]]]]]]; try by_compute;
      unfold PAWN, KNIGHT, BISHOP, ROOK, QUEEN, KING in Hlt; lia.
Qed.

(** ** History table *)

(** C7 as stated fails: at depth 3 with the window (0, 100), the quiet move
    e2e4 scoring 10 raises alpha to 10, the loop goes on (no beta cutoff),
    and the history entry of e2e4 grows from 0 to 9. *)
Lemma history_counterexample :
  let st := mkLoop 0 (- INF) Move_default Move_default 1 in
  let r := after_score start_board 3 100 1 false 4096 e2e4 10 st Engine_init in
  is_quiet start_board e2e4 = true /\
  ls_alpha (fst (fst r)) = 10 /\ (ls_alpha (fst (fst r)) >=? 100) = false /\
  snd r = false /\
  scores Engine_init WHITE 12 28 = 0 /\
  scores (snd (fst r)) WHITE 12 28 = 9.
Proof. cbv zeta. repeat (split; [by_compute|]). by_compute. Qed.

(** ** Transposition table *)

(** With an EXACT entry of depth 5 and score 42 stored for the start
    position, a search of depth 3 returns 42 at once. *)
Lemma tt_probe_hit_witness :
  exists bm e',
    @search sample_keys sample_data 1 start_board 3 (-50) 50 Move_default 1 true
           (hit_engine 5 42 TT_EXACT)
    = Some (42, bm, e').
Proof.
  apply (proj2 (@tt_probe_hit sample_keys sample_data 0 start_board 3 (-50) 50
                  Move_default 1 true (hit_engine 5 42 TT_EXACT)));
    vm_compute; congruence.
Defined.

(** ** Static evaluation *)

Lemma evaluate_below_mate_witness :
  Z.abs (evaluate start_board) < MATE - 1000 /\
  is_mate_score (evaluate start_board) = false.
Proof.
  apply (evaluate_below_mate start_board); vm_compute; reflexivity.
Defined.
(* ================================================================== *)
(** * When the search returns *)

Section Termination.
Context {keys : ZobristKeys}.
Context (moves_data : Z -> Z).

Lemma total_ret A (x : A) : total (ret x).
Proof. intros e. exists x, e. reflexivity. Qed.

Lemma total_bind A B (c : M A) (k : A -> M B) :
  total c -> (forall x, total (k x)) -> total (bind c k).
Proof.
  intros Hc Hk e. destruct (Hc e) as (x & e1 & H1).
  destruct (Hk x e1) as (r & e2 & H2).
  exists r, e2. unfold bind. rewrite H1. exact H2.
Qed.

Lemma total_modify f : total (modify f).
Proof. intros e. exists tt, (f e). reflexivity. Qed.

Lemma total_get_engine : total get_engine.
Proof. intros e. exists e, e. reflexivity. Qed.

Lemma total_new_moves : total (new_moves moves_data).
Proof. intros e. eexists; eexists. reflexivity. Qed.

Lemma quiescence_loop_total rec b stand_pat beta depth :
  (forall copy a b0, total (rec copy a b0 (depth - 1))) ->
  forall captures alpha,
    total (quiescence_loop rec b stand_pat beta depth captures alpha).
Proof.
  intros Hrec. induction captures as [|m rest IH]; intros alpha.
  - apply total_ret.
  - cbn [quiescence_loop]. cbv zeta.
    destruct ((stand_pat + _ <? alpha) && (depth <? -1)); [apply IH|].
    apply total_bind; [apply Hrec|]. intros r.
    destruct (- r >=? beta); [apply total_ret|apply IH].
Qed.

Lemma quiescence_body_total rec b alpha beta depth :
  (- MAX_QUIESCENCE_DEPTH < depth ->
   forall copy a b0, total (rec copy a b0 (depth - 1))) ->
  total (quiescence_body moves_data rec b alpha beta depth).
Proof.
  intros Hrec. unfold quiescence_body.
  apply total_bind; [apply total_modify|]. intros _. cbv zeta.
  destruct (evaluate b >=? beta); [apply total_ret|].
  destruct (Z.leb_spec depth (- MAX_QUIESCENCE_DEPTH)); [apply total_ret|].
  apply total_bind; [apply total_new_moves|]. intros data.
  apply total_bind; [apply total_get_engine|]. intros e.
  apply quiescence_loop_total. apply Hrec. assumption.
Qed.

Lemma quiescence_total : forall fuel b alpha beta depth,
  (Z.to_nat (depth + MAX_QUIESCENCE_DEPTH) < fuel)%nat ->
  total (quiescence moves_data fuel b alpha beta depth).
Proof.
  induction fuel as [|n IH]; intros b alpha beta depth Hn; [lia|].
  cbn [quiescence]. apply quiescence_body_total.
  intros Hd copy a b0. apply IH. lia.
Qed.
















(** *** The plies stay inside the killer table *)












End Termination.


(** ** The position after the fool's mate is reachable *)

Lemma reachable_fools_mate : @reachable sample_keys fools_mate.
Proof.
  apply (@reachable_move sample_keys (play start_board [f2f3; e7e5; g2g4]) d8h4 false);
    [|in_list].
  apply (@reachable_move sample_keys (play start_board [f2f3; e7e5]) g2g4 false);
    [|in_list].
  apply (@reachable_move sample_keys (play start_board [f2f3]) e7e5 false);
    [|in_list].
  apply (@reachable_move sample_keys start_board f2f3 false); [|in_list].
  apply reachable_init.
Qed.
(* ================================================================== *)
(** * Further properties of the engine *)

(** ** Results of computations *)

Lemma bind_Some {A B : Type} (c : M A) (k : A -> M B) e r e' :
  bind c k e = Some (r, e') ->
  exists x e1, c e = Some (x, e1) /\ k x e1 = Some (r, e').
Proof.
  unfold bind. destruct (c e) as [[x e1]|]; [|discriminate].
  intros H. exists x, e1. auto.
Qed.

(** ** Killer table *)

(** X1: after [update(m, ply)] the pointer [m] is a killer at [ply], and so
    is the pointer that was the first killer before; the other plies are
    not touched; with non-null pointers the two slots of a ply never hold
    the same pointer. *)
Theorem killer_update_lookup k m ply :
  KillerMoves.isKiller (KillerMoves.update k m ply) m ply = true /\
  KillerMoves.isKiller (KillerMoves.update k m ply) (k ply 0) ply = true /\
  (forall ply' i, ply' <> ply -> KillerMoves.update k m ply ply' i = k ply' i) /\
  (m <> 0 -> k ply 0 <> k ply 1 \/ k ply 1 = 0 ->
   KillerMoves.update k m ply ply 0 <> KillerMoves.update k m ply ply 1
   \/ KillerMoves.update k m ply ply 1 = 0).
Proof.
  unfold KillerMoves.isKiller, KillerMoves.update.
  destruct (Z.eqb_spec (k ply 0) m) as [E|E]; cbn [negb].
  - split; [|split; [|split]].
    + rewrite E, Z.eqb_refl. reflexivity.
    + rewrite Z.eqb_refl. reflexivity.
    + auto.
    + auto.
  - unfold upd2. rewrite !Z.eqb_refl. cbn [andb].
    change (1 =? 0) with false. change (0 =? 1) with false. cbn [andb].
    rewrite ?Z.eqb_refl. split; [|split; [|split]].
    + reflexivity.
    + rewrite orb_true_r. reflexivity.
    + intros ply' i Hp. rewrite (proj2 (Z.eqb_neq ply' ply) Hp). reflexivity.
    + intros _ _. left. congruence.
Qed.

(** ** History table *)

(** X2: entries that start within [0, 100 000] stay there after an update
    with a depth whose square is at most 100 000: the aging halves the
    table as soon as the entry just incremented passes the bound. *)
Theorem history_entries_bounded sc side from to depth s f t :
  (forall s f t, 0 <= sc s f t <= 100000) -> depth * depth <= 100000 ->
  0 <= HistoryTable.get (HistoryTable.update sc side from to depth) s f t <= 100000.
Proof.
  intros Hb Hd. unfold HistoryTable.get. apply history_update_bounded; assumption.
Qed.

Lemma history_entries_bounded_witness :
  HistoryTable.get (HistoryTable.update (fun _ _ _ => 99995) WHITE 12 28 3) WHITE 12 28
    = 50002 /\
  0 <= HistoryTable.get (HistoryTable.update (fun _ _ _ => 99995) WHITE 12 28 3)
         BLACK 52 36 <= 100000.
Proof.
  split; [reflexivity|].
  apply (history_entries_bounded (fun _ _ _ => 99995) WHITE 12 28 3 BLACK 52 36);
    intros; lia.
Defined.

(** ** Transposition table *)

Lemma pack_roundtrip_checked :
  forallb (fun f => forallb (fun t => forallb (fun p =>
      let packed := pack_move (Move_new f t p (-1) 0) in
      (Z.land packed 63 =? f) && (Z.land (Z.shiftr packed 6) 63 =? t)
      && (Z.land (Z.shiftr packed 12) 7 =? p))
    (U64.squares_from 8 0)) U64.squares) U64.squares = true.
Proof. vm_compute. reflexivity. Qed.

Lemma pack_unpack_fields f t p :
  0 <= f < 64 -> 0 <= t < 64 -> 0 <= p < 8 ->
  let packed := Z.lor (Z.lor f (Z.shiftl t 6)) (Z.shiftl p 12) in
  Z.land packed 63 = f /\ Z.land (Z.shiftr packed 6) 63 = t /\
  Z.land (Z.shiftr packed 12) 7 = p.
Proof.
  intros Hf Ht Hp. pose proof pack_roundtrip_checked as H.
  rewrite forallb_forall in H. specialize (H f (proj2 (squares_In f) Hf)).
  rewrite forallb_forall in H. specialize (H t (proj2 (squares_In t) Ht)).
  rewrite forallb_forall in H.
  specialize (H p (proj2 (squares_from_In 8 0 p) ltac:(lia))).
  cbv zeta in H. unfold pack_move in H. cbn [Move_new from to piece] in H.
  apply andb_true_iff in H. destruct H as [H H3].
  apply andb_true_iff in H. destruct H as [H1 H2].
  apply Z.eqb_eq in H1, H2, H3. cbv zeta. auto.
Qed.

(** X3: the packed best move of a table entry gives back the origin, the
    target and the piece of the move it was made from; the promotion, the
    captured piece and the score are not stored and stay as they are in
    the move unpacked into. *)
Theorem pack_unpack_roundtrip m m0 :
  0 <= from m < 64 -> 0 <= to m < 64 -> 0 <= piece m < 8 ->
  unpack_into (pack_move m) m0 =
  mkMove (from m) (to m) (score m0) (piece m) (captured m0) (promo m0).
Proof.
  intros Hf Ht Hp. unfold unpack_into, pack_move.
  destruct (pack_unpack_fields (from m) (to m) (piece m) Hf Ht Hp) as (H1 & H2 & H3).
  cbv zeta in H1, H2, H3. rewrite H1, H2, H3. reflexivity.
Qed.

Lemma pack_unpack_roundtrip_witness :
  unpack_into (pack_move a7a8q) Move_default = Move_new 48 56 PAWN (-1) 0.
Proof.
  apply (pack_unpack_roundtrip a7a8q Move_default);
    (cbv; split; [discriminate|reflexivity]).
Defined.

(** X4: an entry stored at the end of [search] and probed for the same
    position at a depth not above the stored one gives the stored score
    when it lay strictly inside the window, [alpha] when it was at most
    the original alpha and is at most the new [alpha], [beta] when it was
    at least beta and is at least the new [beta]; otherwise the probe
    does not return. *)
Theorem tt_store_probe b depth bestScore origAlpha beta localBest d alpha' beta' :
  d <= depth ->
  let entry := tt_store b depth bestScore origAlpha beta localBest in
  (origAlpha < bestScore < beta ->
     tt_probe entry b d alpha' beta' = Some bestScore) /\
  (bestScore <= origAlpha ->
     tt_probe entry b d alpha' beta' =
     if bestScore <=? alpha' then Some alpha' else None) /\
  (origAlpha < bestScore -> beta <= bestScore ->
     tt_probe entry b d alpha' beta' =
     if bestScore >=? beta' then Some beta' else None).
Proof.
  intros Hd entry. unfold entry, tt_probe, tt_store.
  cbn [TTEntry.hash TTEntry.depth TTEntry.flag TTEntry.score].
  rewrite Z.eqb_refl.
  replace (depth >=? d) with true by (symmetry; apply Z.geb_le; lia).
  cbn [andb]. split; [|split].
  - intros [H1 H2].
    rewrite (proj2 (Z.leb_gt _ _) H1).
    replace (bestScore >=? beta) with false
      by (symmetry; rewrite Z.geb_leb; apply Z.leb_gt; lia).
    reflexivity.
  - intros H. rewrite (proj2 (Z.leb_le _ _) H). cbn.
    destruct (bestScore <=? alpha'); reflexivity.
  - intros H1 H2. rewrite (proj2 (Z.leb_gt _ _) H1).
    replace (bestScore >=? beta) with true by (symmetry; apply Z.geb_le; lia).
    cbn. destruct (bestScore >=? beta'); reflexivity.
Qed.

Lemma tt_store_probe_witness :
  tt_probe (tt_store start_board 4 20 0 50 e2e4) start_board 3 (-5) 5 = Some 20.
Proof.
  apply (tt_store_probe start_board 4 20 0 50 e2e4 3 (-5) 5); lia.
Defined.

(** ** Quiescence search *)

Section Quiescence.

Context {keys : ZobristKeys}.
Context (moves_data : Z -> Z).

Lemma tables_kept_refl e : tables_kept e e.
Proof. unfold tables_kept. repeat split; lia. Qed.

Lemma tables_kept_trans e1 e2 e3 :
  tables_kept e1 e2 -> tables_kept e2 e3 -> tables_kept e1 e3.
Proof.
  unfold tables_kept. intros (A1 & A2 & A3 & A4 & A5 & A6) (B1 & B2 & B3 & B4 & B5 & B6).
  repeat split; try congruence; lia.
Qed.

Lemma quiescence_loop_post rec b stand_pat beta depth :
  (forall copy a b0 e r e', rec copy a b0 (depth - 1) e = Some (r, e') ->
     tables_kept e e') ->
  forall captures alpha e r e',
    quiescence_loop rec b stand_pat beta depth captures alpha e = Some (r, e') ->
    tables_kept e e' /\ Z.min alpha beta <= r <= Z.max alpha beta.
Proof.
  intros Hrec. induction captures as [|m rest IH]; intros alpha e r e' H.
  - cbn in H. injection H as <- <-. split; [apply tables_kept_refl|lia].
  - cbn [quiescence_loop] in H. cbv zeta in H.
    destruct ((stand_pat + _ <? alpha) && (depth <? -1)); [exact (IH _ _ _ _ H)|].
    apply bind_Some in H. destruct H as (x & e1 & H1 & H2).
    apply Hrec in H1.
    destruct (Z.geb_spec (- x) beta) as [Hge|Hlt].
    + cbn in H2. injection H2 as <- <-. split; [exact H1|lia].
    + apply IH in H2. destruct H2 as [H2 H3]. split.
      * eapply tables_kept_trans; eassumption.
      * destruct (Z.gtb_spec (- x) alpha); lia.
Qed.

Lemma quiescence_body_post rec b alpha beta depth :
  (forall copy a b0 e r e', rec copy a b0 (depth - 1) e = Some (r, e') ->
     tables_kept e e') ->
  forall e r e',
    quiescence_body moves_data rec b alpha beta depth e = Some (r, e') ->
    tables_kept e e' /\ qnodes e < qnodes e' /\
    Z.min (evaluate b) beta <= r <= Z.max alpha beta.
Proof.
  intros Hrec e r e' H. unfold quiescence_body in H.
  apply bind_Some in H. destruct H as ([] & e1 & H1 & H).
  unfold modify in H1. injection H1 as <-.
  assert (K1 : tables_kept e (set_qnodes e (qnodes e + 1)))
    by (unfold tables_kept; cbn; repeat split; lia).
  assert (Q1 : qnodes e < qnodes (set_qnodes e (qnodes e + 1))) by (cbn; lia).
  set (e1 := set_qnodes e (qnodes e + 1)) in *. cbv zeta in H.
  destruct (Z.geb_spec (evaluate b) beta) as [Hge|Hlt].
  { cbn in H. injection H as <- <-. repeat split; try apply K1; try lia. }
  destruct (depth <=? - MAX_QUIESCENCE_DEPTH).
  { cbn in H. injection H as <- <-. repeat split; try apply K1; try lia. }
  apply bind_Some in H. destruct H as (data & e2 & H2 & H).
  unfold new_moves in H2. injection H2 as <- <-.
  apply bind_Some in H. destruct H as (e3 & e4 & H3 & H).
  unfold get_engine in H3. injection H3 as <- <-.
  apply (quiescence_loop_post rec) in H; [|exact Hrec].
  destruct H as [K2 Hb].
  assert (K12 : tables_kept e1 (set_allocs e1 (allocs e1 + 1)))
    by (unfold tables_kept; cbn; repeat split; lia).
  split; [|split].
  - eapply tables_kept_trans; [exact K1|].
    eapply tables_kept_trans; [exact K12|exact K2].
  - destruct K2 as (_ & _ & _ & _ & K2 & _). cbn in K2. cbn in Q1. lia.
  - destruct (Z.ltb_spec alpha (evaluate b)); lia.
Qed.

Lemma quiescence_post : forall fuel b alpha beta depth e r e',
  quiescence moves_data fuel b alpha beta depth e = Some (r, e') ->
  tables_kept e e' /\ qnodes e < qnodes e' /\
  Z.min (evaluate b) beta <= r <= Z.max alpha beta.
Proof.
  induction fuel as [|n IH]; intros b alpha beta depth e r e' H; [discriminate|].
  cbn [quiescence] in H. apply quiescence_body_post in H; [exact H|].
  intros copy a b0 e0 r0 e0' H0. apply IH in H0. apply H0.
Qed.
(** X5: [quiescence] returns when the fuel exceeds the levels left down to
    [-MAX_QUIESCENCE_DEPTH] (seven levels from depth 0), and its score is
    at least the static evaluation capped by [beta] and at most the larger
    of [alpha] and [beta]. *)
Theorem quiescence_returns_bounded fuel b alpha beta depth e :
  (Z.to_nat (depth + MAX_QUIESCENCE_DEPTH) < fuel)%nat ->
  exists r e',
    quiescence moves_data fuel b alpha beta depth e = Some (r, e') /\
    Z.min (evaluate b) beta <= r <= Z.max alpha beta.
Proof.
  intros Hf.
  destruct (quiescence_total moves_data fuel b alpha beta depth Hf e) as (r & e' & H).
  exists r, e'. split; [exact H|]. apply quiescence_post in H. apply H.
Qed.

(** X6: [quiescence] writes neither the transposition table nor the history
    nor the killers nor the node counter; it counts at least one
    quiescence node. *)
Theorem quiescence_keeps_tables fuel b alpha beta depth e r e' :
  quiescence moves_data fuel b alpha beta depth e = Some (r, e') ->
  tables_kept e e' /\ qnodes e < qnodes e'.
Proof.
  intros H. apply quiescence_post in H. split; apply H.
Qed.

End Quiescence.

Lemma quiescence_returns_bounded_witness :
  exists r e',
    @quiescence sample_keys sample_data 7 after_e4_d5 (-50) 50 0 Engine_init
      = Some (r, e') /\
    Z.min (evaluate after_e4_d5) 50 <= r <= Z.max (-50) 50.
Proof.
  apply (@quiescence_returns_bounded sample_keys sample_data 7 after_e4_d5 (-50) 50 0
           Engine_init).
  vm_compute. lia.
Defined.

Lemma quiescence_keeps_tables_witness :
  exists r e',
    @quiescence sample_keys sample_data 7 after_e4_d5 (-50) 50 0 Engine_init
      = Some (r, e') /\
    tables_kept Engine_init e' /\ qnodes Engine_init < qnodes e'.
Proof.
  destruct (@quiescence sample_keys sample_data 7 after_e4_d5 (-50) 50 0 Engine_init)
    as [[r e']|] eqn:E; [|vm_compute in E; discriminate].
  exists r, e'. split; [reflexivity|].
  exact (@quiescence_keeps_tables sample_keys sample_data 7 after_e4_d5 (-50) 50 0
           Engine_init r e' E).
Defined.

(** ** Main search *)

Section SearchFacts.

Context {keys : ZobristKeys}.
Context (moves_data : Z -> Z).

Lemma after_score_bestMove b depth beta ply inCheck addr m score st e :
  (ply =? 0) = false ->
  ls_bestMove (fst (fst (after_score b depth beta ply inCheck addr m score st e)))
  = ls_bestMove st.
Proof.
  intros Hp. unfold after_score. rewrite Hp.
  repeat match goal with
  | |- context [if ?c then _ else _] => destruct c
  end; reflexivity.
Qed.

Lemma search_loop_bestMove rec b depth beta ply inCheck data :
  (ply =? 0) = false ->
  forall moves i st e st' e',
    search_loop rec b depth beta ply inCheck data i moves st e = Some (st', e') ->
    ls_bestMove st' = ls_bestMove st.
Proof.
  intros Hp. induction moves as [|m rest IH]; intros i st e st' e' H.
  - cbn in H. injection H as <- <-. reflexivity.
  - cbn [search_loop] in H. cbv zeta in H.
    apply bind_Some in H. destruct H as (score & e1 & _ & H).
    apply bind_Some in H. destruct H as (e2 & e3 & H2 & H).
    unfold get_engine in H2. injection H2 as <- <-.
    match type of H with
    | context [after_score ?b ?d ?be ?p ?ic ?a ?m ?s ?st0 ?e0] =>
        pose proof (after_score_bestMove b d be p ic a m s st0 e0 Hp) as Ha;
        destruct (after_score b d be p ic a m s st0 e0) as [[st1 e4] stop]
    end.
    cbn [fst ls_bestMove] in Ha.
    apply bind_Some in H. destruct H as ([] & e5 & _ & H).
    destruct stop.
    + cbn in H. injection H as <- <-. exact Ha.
    + apply IH in H. rewrite H. exact Ha.
Qed.

Lemma search_body_bestMove qrec rec b depth alpha beta bestMove ply nullMove e r bm e' :
  ply <> 0 ->
  search_body moves_data qrec rec b depth alpha beta bestMove ply nullMove e
    = Some (r, bm, e') ->
  bm = bestMove.
Proof.
  intros Hp0 H. assert (Hp : (ply =? 0) = false) by (apply Z.eqb_neq; exact Hp0).
  unfold search_body in H.
  apply bind_Some in H. destruct H as ([] & e1 & _ & H). cbv zeta in H.
  apply bind_Some in H. destruct H as (e2 & e3 & _ & H).
  destruct (tt_probe _ _ _ _ _).
  { rewrite Hp, andb_false_r in H. unfold ret in H. congruence. }
  destruct (_ <=? 0).
  { apply bind_Some in H. destruct H as (x & e4 & _ & H). unfold ret in H. congruence. }
  apply bind_Some in H. destruct H as (cut & e4 & _ & H).
  destruct cut; [unfold ret in H; congruence|].
  apply bind_Some in H. destruct H as (data & e5 & _ & H).
  destruct (generateMoves b false) as [|m0 rest]; [unfold ret in H; congruence|].
  apply bind_Some in H. destruct H as (e6 & e7 & _ & H).
  apply bind_Some in H. destruct H as (st & e8 & Hl & H).
  apply bind_Some in H. destruct H as ([] & e9 & _ & H).
  unfold ret in H. injection H as <- <- <-.
  apply search_loop_bestMove in Hl; [|exact Hp].
  rewrite Hl. cbn [ls_bestMove]. rewrite Hp. reflexivity.
Qed.

(** X7: below the root the caller's [bestMove] is never written: a search
    at [ply <> 0] returns it as it was passed. *)
Theorem search_keeps_bestMove fuel b depth alpha beta bestMove ply nullMove e r bm e' :
  ply <> 0 ->
  search moves_data fuel b depth alpha beta bestMove ply nullMove e = Some (r, bm, e') ->
  bm = bestMove.
Proof.
  destruct fuel as [|n]; [discriminate|]. cbn [search]. apply search_body_bestMove.
Qed.

(** X8: in a position without legal moves, when the table lookup does not
    return, the depth after the check extension is positive and no null
    move is tried, [search] returns [-MATE + ply] if the side to move is in
    check and 0 otherwise; it leaves [bestMove] and the tables alone and
    counts one node and one vector. *)
Theorem search_no_moves fuel b depth alpha beta bestMove ply nullMove e :
  let d := if isInCheck b then depth + 1 else depth in
  generateMoves b false = [] -> 0 < d ->
  tt_probe (transpositionTable e (hash b mod TT_SIZE)) b d alpha beta = None ->
  (nullMove && negb (isInCheck b) && (d >=? 3) && (ply >? 0)) = false ->
  search moves_data (S fuel) b depth alpha beta bestMove ply nullMove e =
  Some (if isInCheck b then - MATE + ply else 0, bestMove,
        set_allocs (set_nodes e (nodes e + 1)) (allocs e + 1)).
Proof.
  intros d Hg Hd Hp Hn. cbn [search]. unfold search_body.
  unfold bind at 1. unfold modify at 1. cbv zeta. fold d.
  unfold bind at 1. unfold get_engine at 1.
  cbn [transpositionTable set_nodes]. rewrite Hp.
  rewrite (proj2 (Z.leb_gt _ _) Hd). rewrite Hn.
  unfold bind at 1. unfold ret at 1.
  unfold bind at 1. unfold new_moves at 1.
  rewrite Hg. reflexivity.
Qed.
End SearchFacts.

Lemma search_keeps_bestMove_witness :
  exists r e',
    @search sample_keys sample_data 12 after_e4 1 (- INF) INF e2e4 1 true Engine_init
    = Some (r, e2e4, e').
Proof.
  destruct (@search sample_keys sample_data 12 after_e4 1 (- INF) INF e2e4 1 true
              Engine_init) as [[[r bm] e']|] eqn:E; [|vm_compute in E; discriminate].
  exists r, e'.
  rewrite (@search_keeps_bestMove sample_keys sample_data 12 after_e4 1 (- INF) INF e2e4
             1 true Engine_init r bm e' ltac:(intro HH; discriminate HH) E).
  reflexivity.
Defined.

(** White is mated after 1. f3 e5 2. g4 Qh4: three plies below the root the
    score is [-MATE + 3]. *)
Lemma search_no_moves_witness :
  isInCheck fools_mate = true /\
  @search sample_keys sample_data 1 fools_mate 2 (- INF) INF Move_default 3 true
    Engine_init
  = Some (- MATE + 3, Move_default, set_allocs (set_nodes Engine_init 1) 1).
Proof.
  split; [by_compute|].
  rewrite (@search_no_moves sample_keys sample_data 0 fools_mate 2 (- INF) INF
             Move_default 3 true Engine_init); by_compute.
Defined.

(* ================================================================== *)
(** ** Castling rights *)

Section Castling.

Context {keys : ZobristKeys}.

Lemma castle_mm_capture_loop ps : forall b o m,
  castle (mm_capture_loop ps b o m) = castle b.
Proof.
  induction ps as [|p ps IH]; intros b o m; cbn [mm_capture_loop]; [reflexivity|].
  destruct (meets _ _); [reflexivity|apply IH].
Qed.

Lemma castle_mm_special b o pe m : castle (mm_special b o pe m) = castle b.
Proof.
  unfold mm_special.
  repeat match goal with
  | |- context [if ?c then _ else _] => destruct c
  end; reflexivity.
Qed.

Lemma makeMove_castle b m : castle (makeMove b m) = new_castle b m.
Proof.
  unfold makeMove. cbv zeta.
  change (castle (xor_hash (set_side (update ?x) _) _)) with (castle x).
  rewrite castle_mm_special, castle_mm_capture_loop.
  change (castle (mm_move_piece ?x m)) with (castle x).
  change (castle (mm_castle ?x m)) with (new_castle x m).
  destruct (mm_hash_out_fields b m) as (_ & S1 & _ & C1).
  unfold new_castle. rewrite S1, C1. reflexivity.
Qed.

Lemma land_lnot_testbit c k i :
  Z.testbit (Z.land c (Z.lnot k)) i = Z.testbit c i && negb (Z.testbit k i).
Proof.
  destruct (Z.neg_nonneg_cases i) as [Hi|Hi].
  - rewrite !Z.testbit_neg_r by lia. reflexivity.
  - rewrite Z.land_spec, Z.lnot_spec by lia. reflexivity.
Qed.

Lemma new_castle_testbit b m i :
  Z.testbit (new_castle b m) i =
  Z.testbit (castle b) i
  && negb ((piece m =? KING) &&
           Z.testbit (if side b =? WHITE then 3 else 12) i)
  && negb (((from m =? 0) || (to m =? 0)) && Z.testbit 2 i)
  && negb (((from m =? 7) || (to m =? 7)) && Z.testbit 1 i)
  && negb (((from m =? 56) || (to m =? 56)) && Z.testbit 8 i)
  && negb (((from m =? 63) || (to m =? 63)) && Z.testbit 4 i).
Proof.
  unfold new_castle. cbv zeta.
  destruct (piece m =? KING); destruct (side b =? WHITE);
  destruct ((from m =? 0) || (to m =? 0));
  destruct ((from m =? 7) || (to m =? 7));
  destruct ((from m =? 56) || (to m =? 56));
  destruct ((from m =? 63) || (to m =? 63));
  rewrite ?land_lnot_testbit; cbn [andb negb];
  rewrite ?andb_true_r; reflexivity.
Qed.

(** X9: [makeMove] never gives a castling right back: every bit of
    [castle] set after the move was set before.  A king move clears both
    rights of the mover, and a move from or to the corner a1, h1, a8 or h8
    clears the right of that corner. *)
Theorem castle_rights_only_shrink b m :
  (forall i, Z.testbit (castle (makeMove b m)) i = true ->
             Z.testbit (castle b) i = true) /\
  (piece m = KING ->
   Z.land (castle (makeMove b m)) (if side b =? WHITE then 3 else 12) = 0) /\
  (from m = 7 \/ to m = 7 -> Z.testbit (castle (makeMove b m)) 0 = false) /\
  (from m = 0 \/ to m = 0 -> Z.testbit (castle (makeMove b m)) 1 = false) /\
  (from m = 63 \/ to m = 63 -> Z.testbit (castle (makeMove b m)) 2 = false) /\
  (from m = 56 \/ to m = 56 -> Z.testbit (castle (makeMove b m)) 3 = false).
Proof.
  rewrite makeMove_castle.
  split; [|split; [|split; [|split; [|split]]]].
  - intros i H. rewrite new_castle_testbit in H.
    repeat (apply andb_true_iff in H; destruct H as [H _]). exact H.
  - intros Hk. apply Z.bits_inj'. intros i Hi.
    rewrite Z.land_spec, new_castle_testbit, Z.bits_0, Hk, Z.eqb_refl.
    cbn [andb]. destruct (Z.testbit (if side b =? WHITE then 3 else 12) i);
      cbn [negb andb]; rewrite ?andb_false_r; reflexivity.
  - intros H. rewrite new_castle_testbit.
    assert (E : (from m =? 7) || (to m =? 7) = true)
      by (destruct H as [-> | ->]; rewrite Z.eqb_refl, ?orb_true_r; reflexivity).
    rewrite E. cbn. rewrite ?andb_false_r. reflexivity.
  - intros H. rewrite new_castle_testbit.
    assert (E : (from m =? 0) || (to m =? 0) = true)
      by (destruct H as [-> | ->]; rewrite Z.eqb_refl, ?orb_true_r; reflexivity).
    rewrite E. cbn. rewrite ?andb_false_r. reflexivity.
  - intros H. rewrite new_castle_testbit.
    assert (E : (from m =? 63) || (to m =? 63) = true)
      by (destruct H as [-> | ->]; rewrite Z.eqb_refl, ?orb_true_r; reflexivity).
    rewrite E. cbn. rewrite ?andb_false_r. reflexivity.
  - intros H. rewrite new_castle_testbit.
    assert (E : (from m =? 56) || (to m =? 56) = true)
      by (destruct H as [-> | ->]; rewrite Z.eqb_refl, ?orb_true_r; reflexivity).
    rewrite E. cbn. rewrite ?andb_false_r. reflexivity.
Qed.
End Castling.


(** ** Attack tables and sliding attacks *)

(** X10: [initTables] fills [KingMoves[s]] with the squares at distance 1
    of [s] (ranks and files differing by at most 1, [s] apart) and
    [KnightMoves[s]] with the squares a knight's jump away; both tables
    are symmetric. *)
Theorem attack_tables_spec s t :
  0 <= s < 64 -> 0 <= t < 64 ->
  let dr := Z.abs (Z.quot s 8 - Z.quot t 8) in
  let df := Z.abs (Z.rem s 8 - Z.rem t 8) in
  Z.testbit (KingMoves s) t = (Z.max dr df =? 1) /\
  Z.testbit (KnightMoves s) t = ((dr =? 1) && (df =? 2) || (dr =? 2) && (df =? 1)) /\
  Z.testbit (KingMoves t) s = Z.testbit (KingMoves s) t /\
  Z.testbit (KnightMoves t) s = Z.testbit (KnightMoves s) t.
Proof.
  intros Hs Ht.
  assert (H : forallb (fun s => forallb (fun t =>
      let dr := Z.abs (Z.quot s 8 - Z.quot t 8) in
      let df := Z.abs (Z.rem s 8 - Z.rem t 8) in
      Bool.eqb (Z.testbit (KingMoves s) t) (Z.max dr df =? 1) &&
      Bool.eqb (Z.testbit (KnightMoves s) t)
               ((dr =? 1) && (df =? 2) || (dr =? 2) && (df =? 1)) &&
      Bool.eqb (Z.testbit (KingMoves t) s) (Z.testbit (KingMoves s) t) &&
      Bool.eqb (Z.testbit (KnightMoves t) s) (Z.testbit (KnightMoves s) t))
      U64.squares) U64.squares = true) by (vm_compute; reflexivity).
  rewrite forallb_forall in H. specialize (H s (proj2 (squares_In s) Hs)).
  rewrite forallb_forall in H. specialize (H t (proj2 (squares_In t) Ht)).
  cbv zeta in H.
  apply andb_true_iff in H. destruct H as [H H4].
  apply andb_true_iff in H. destruct H as [H H3].
  apply andb_true_iff in H. destruct H as [H1 H2].
  apply Bool.eqb_prop in H1, H2, H3, H4. cbv zeta. auto.
Qed.

Lemma attack_tables_spec_witness :
  Z.testbit (KingMoves 4) 12 = true /\ Z.testbit (KnightMoves 1) 18 = true /\
  Z.testbit (KnightMoves 18) 1 = true.
Proof.
  destruct (attack_tables_spec 1 18) as (_ & H2 & _ & H4);
    [cbv; split; [discriminate|reflexivity]..|].
  destruct (attack_tables_spec 4 12) as (H1 & _);
    [cbv; split; [discriminate|reflexivity]..|].
  cbv zeta in H1, H2, H4. rewrite H4, H1, H2. repeat split.
Defined.

Lemma land_bit_eq0 s x :
  0 <= s -> (Z.land (U64.bit s) x =? 0) = negb (Z.testbit x s).
Proof.
  intros Hs. destruct (Z.testbit x s) eqn:E; cbn [negb].
  - apply Z.eqb_neq. intros H.
    assert (Z.testbit (Z.land (U64.bit s) x) s = false) by (rewrite H; apply Z.bits_0).
    rewrite Z.land_spec, bit_testbit, Z.eqb_refl, E in H0 by lia. discriminate.
  - apply Z.eqb_eq. apply Z.bits_inj'. intros i Hi.
    rewrite Z.land_spec, bit_testbit, Z.bits_0 by lia.
    destruct (Z.eqb_spec s i) as [->|]; [rewrite E|]; reflexivity.
Qed.

Lemma ray_loop_spec cond dr df (P : Z -> Z -> Prop) bl :
  (forall r f, P r f -> cond r f = true ->
     0 <= r * 8 + f /\ P (r + dr) (f + df)) ->
  forall fuel r f att t, P r f ->
    Z.testbit (ray_loop cond dr df fuel r f bl att) t = true <->
    Z.testbit att t = true \/
    exists k : nat, (k < fuel)%nat /\
      t = (r + Z.of_nat k * dr) * 8 + (f + Z.of_nat k * df) /\
      (forall j : nat, (j <= k)%nat ->
         cond (r + Z.of_nat j * dr) (f + Z.of_nat j * df) = true) /\
      (forall j : nat, (j < k)%nat ->
         Z.testbit bl ((r + Z.of_nat j * dr) * 8 + (f + Z.of_nat j * df)) = false).
Proof.
  intros HP. induction fuel as [|fuel IH]; intros r f att t Hrf; cbn [ray_loop].
  - split; [auto|]. intros [H|(k & Hk & _)]; [exact H|lia].
  - destruct (cond r f) eqn:Hc.
    + destruct (HP r f Hrf Hc) as [H0 Hnext]. cbv zeta.
      rewrite land_bit_eq0 by exact H0.
      assert (Hat : Z.testbit (Z.lor att (U64.bit (r * 8 + f))) t = true <->
                    Z.testbit att t = true \/ t = r * 8 + f).
      { rewrite Z.lor_spec, bit_testbit, orb_true_iff, Z.eqb_eq by exact H0.
        intuition congruence. }
      destruct (Z.testbit bl (r * 8 + f)) eqn:Hb; cbn [negb].
      * rewrite Hat. split.
        -- intros [H|H]; [left; exact H|right].
           exists 0%nat. split; [lia|]. split; [cbn; lia|]. split.
           ++ intros j Hj. replace j with 0%nat by lia. cbn.
              rewrite !Z.add_0_r. exact Hc.
           ++ intros j Hj. lia.
        -- intros [H|(k & Hk & Ht & Hcs & Hbs)]; [left; exact H|].
           destruct k as [|k].
           ++ right. cbn in Ht. lia.
           ++ specialize (Hbs 0%nat ltac:(lia)). cbn in Hbs.
              rewrite !Z.add_0_r in Hbs. congruence.
      * rewrite (IH _ _ _ _ Hnext), Hat. split.
        -- intros [[H|H]|(k & Hk & Ht & Hcs & Hbs)].
           ++ left; exact H.
           ++ right. exists 0%nat. split; [lia|]. split; [cbn; lia|]. split.
              ** intros j Hj. replace j with 0%nat by lia. cbn.
                 rewrite !Z.add_0_r. exact Hc.
              ** intros j Hj. lia.
           ++ right. exists (S k). split; [lia|]. split; [lia|]. split.
              ** intros [|j] Hj.
                 --- cbn. rewrite !Z.add_0_r. exact Hc.
                 --- specialize (Hcs j ltac:(lia)).
                     replace (r + Z.of_nat (S j) * dr) with (r + dr + Z.of_nat j * dr) by lia.
                     replace (f + Z.of_nat (S j) * df) with (f + df + Z.of_nat j * df) by lia.
                     exact Hcs.
              ** intros [|j] Hj.
                 --- cbn. rewrite !Z.add_0_r. exact Hb.
                 --- specialize (Hbs j ltac:(lia)).
                     replace (r + Z.of_nat (S j) * dr) with (r + dr + Z.of_nat j * dr) by lia.
                     replace (f + Z.of_nat (S j) * df) with (f + df + Z.of_nat j * df) by lia.
                     exact Hbs.
        -- intros [H|(k & Hk & Ht & Hcs & Hbs)]; [left; left; exact H|].
           destruct k as [|k].
           ++ left; right. cbn in Ht. lia.
           ++ right. exists k. split; [lia|]. split; [lia|]. split.
              ** intros j Hj. specialize (Hcs (S j) ltac:(lia)).
                 replace (r + dr + Z.of_nat j * dr) with (r + Z.of_nat (S j) * dr) by lia.
                 replace (f + df + Z.of_nat j * df) with (f + Z.of_nat (S j) * df) by lia.
                 exact Hcs.
              ** intros j Hj. specialize (Hbs (S j) ltac:(lia)).
                 replace (r + dr + Z.of_nat j * dr) with (r + Z.of_nat (S j) * dr) by lia.
                 replace (f + df + Z.of_nat j * df) with (f + Z.of_nat (S j) * df) by lia.
                 exact Hbs.
    + split; [auto|]. intros [H|(k & Hk & Ht & Hcs & Hbs)]; [exact H|].
      specialize (Hcs 0%nat ltac:(lia)). cbn in Hcs. rewrite !Z.add_0_r in Hcs.
      congruence.
Qed.

Lemma ray_slides cond dr df sq bl att t r0 f0 :
  0 <= sq < 64 -> 0 <= t < 64 ->
  -1 <= dr <= 1 -> -1 <= df <= 1 -> dr <> 0 \/ df <> 0 ->
  r0 = Z.quot sq 8 + dr -> f0 = Z.rem sq 8 + df ->
  (forall j, 1 <= j ->
     cond (Z.quot sq 8 + j * dr) (Z.rem sq 8 + j * df) = true <->
     0 <= Z.quot sq 8 + j * dr <= 7 /\ 0 <= Z.rem sq 8 + j * df <= 7) ->
  Z.testbit (ray_loop cond dr df 8 r0 f0 bl att) t = true <->
  Z.testbit att t = true \/ slides bl sq t dr df.
Proof.
  intros Hsq Ht Hdr Hdf Hd -> -> Hcond.
  destruct (square_coords sq Hsq) as (E & Hr & Hf).
  destruct (square_coords t Ht) as (Et & Hrt & Hft).
  set (tr := Z.quot sq 8) in *. set (tf := Z.rem sq 8) in *.
  rewrite (ray_loop_spec cond dr df
             (fun r f => exists j, 1 <= j /\ r = tr + j * dr /\ f = tf + j * df)).
  - apply or_iff_compat_l. unfold slides. fold tr tf. split.
    + intros (k & Hk & Hteq & Hcs & Hbs).
      assert (Hon : forall j : nat, (j <= k)%nat ->
                0 <= tr + (Z.of_nat j + 1) * dr <= 7 /\
                0 <= tf + (Z.of_nat j + 1) * df <= 7).
      { intros j Hj. apply Hcond; [lia|]. specialize (Hcs j Hj).
        replace (tr + (Z.of_nat j + 1) * dr) with (tr + dr + Z.of_nat j * dr) by lia.
        replace (tf + (Z.of_nat j + 1) * df) with (tf + df + Z.of_nat j * df) by lia.
        exact Hcs. }
      exists (Z.of_nat k + 1). split; [lia|].
      destruct (Hon k (le_n k)) as [Hor Hof].
      assert (Hq : Z.quot t 8 = tr + (Z.of_nat k + 1) * dr /\
                   Z.rem t 8 = tf + (Z.of_nat k + 1) * df).
      { assert (Hte : t = (tr + (Z.of_nat k + 1) * dr) * 8 + (tf + (Z.of_nat k + 1) * df))
          by lia.
        clear - Hte Hor Hof Et Hrt Hft.
        set (a := tr + (Z.of_nat k + 1) * dr) in *.
        set (c := tf + (Z.of_nat k + 1) * df) in *. lia. }
      split; [apply Hq|]. split; [apply Hq|].
      intros j Hj. specialize (Hbs (Z.to_nat (j - 1)) ltac:(lia)).
      rewrite Z2Nat.id in Hbs by lia.
      replace (sq + j * (8 * dr + df))
        with ((tr + dr + (j - 1) * dr) * 8 + (tf + df + (j - 1) * df)) by lia.
      exact Hbs.
    + intros (n & Hn & Hqr & Hqf & Hbs).
      assert (Hn7 : n <= 7) by nia.
      exists (Z.to_nat (n - 1)). split; [lia|]. rewrite Z2Nat.id by lia.
      split; [lia|]. split.
      * intros j Hj.
        replace (tr + dr + Z.of_nat j * dr) with (tr + (Z.of_nat j + 1) * dr) by lia.
        replace (tf + df + Z.of_nat j * df) with (tf + (Z.of_nat j + 1) * df) by lia.
        apply Hcond; [lia|]. nia.
      * intros j Hj. specialize (Hbs (Z.of_nat j + 1) ltac:(lia)).
        replace ((tr + dr + Z.of_nat j * dr) * 8 + (tf + df + Z.of_nat j * df))
          with (sq + (Z.of_nat j + 1) * (8 * dr + df)) by lia.
        exact Hbs.
  - intros r f (j & Hj & -> & ->) Hc. apply Hcond in Hc; [|exact Hj]. split; [lia|].
    exists (j + 1). split; [lia|]. split; lia.
  - exists 1. split; [lia|]. split; lia.
Qed.

Ltac ray_cond :=
  let j := fresh "j" in let Hj := fresh "Hj" in
  intros j Hj; rewrite ?andb_true_iff, ?Z.leb_le, ?Z.geb_le; lia.

Lemma rook_attacks_slides sq bl t :
  0 <= sq < 64 -> 0 <= t < 64 ->
  Z.testbit (get_rook_attacks sq bl) t = true <->
  slides bl sq t 1 0 \/ slides bl sq t (-1) 0 \/
  slides bl sq t 0 1 \/ slides bl sq t 0 (-1).
Proof.
  intros Hsq Ht. destruct (square_coords sq Hsq) as (E & Hr & Hf).
  unfold get_rook_attacks. cbv zeta.
  rewrite (ray_slides _ 0 (-1) sq) by (try ray_cond; lia).
  rewrite (ray_slides _ 0 1 sq) by (try ray_cond; lia).
  rewrite (ray_slides _ (-1) 0 sq) by (try ray_cond; lia).
  rewrite (ray_slides _ 1 0 sq) by (try ray_cond; lia).
  rewrite Z.bits_0. intuition discriminate.
Qed.

Lemma bishop_attacks_slides sq bl t :
  0 <= sq < 64 -> 0 <= t < 64 ->
  Z.testbit (get_bishop_attacks sq bl) t = true <->
  slides bl sq t 1 1 \/ slides bl sq t 1 (-1) \/
  slides bl sq t (-1) 1 \/ slides bl sq t (-1) (-1).
Proof.
  intros Hsq Ht. destruct (square_coords sq Hsq) as (E & Hr & Hf).
  unfold get_bishop_attacks. cbv zeta.
  rewrite (ray_slides _ (-1) (-1) sq) by (try ray_cond; lia).
  rewrite (ray_slides _ (-1) 1 sq) by (try ray_cond; lia).
  rewrite (ray_slides _ 1 (-1) sq) by (try ray_cond; lia).
  rewrite (ray_slides _ 1 1 sq) by (try ray_cond; lia).
  rewrite Z.bits_0. intuition discriminate.
Qed.

Lemma slides_sym bl sq t dr df :
  0 <= sq < 64 -> 0 <= t < 64 ->
  slides bl sq t dr df -> slides bl t sq (- dr) (- df).
Proof.
  intros Hsq Ht (n & Hn & Hr & Hf & Hb).
  destruct (square_coords sq Hsq) as (E & _ & _).
  destruct (square_coords t Ht) as (Et & _ & _).
  exists n. split; [exact Hn|]. split; [lia|]. split; [lia|].
  intros j Hj. specialize (Hb (n - j) ltac:(lia)).
  replace (t + j * (8 * - dr + - df)) with (sq + (n - j) * (8 * dr + df)) by nia.
  exact Hb.
Qed.

Lemma ray_loop_in_range cond dr df (P : Z -> Z -> Prop) bl :
  (forall r f, P r f -> cond r f = true ->
     0 <= r * 8 + f < 64 /\ P (r + dr) (f + df)) ->
  forall fuel r f att, P r f -> U64.in_range att ->
    U64.in_range (ray_loop cond dr df fuel r f bl att).
Proof.
  intros HP. induction fuel as [|fuel IH]; intros r f att Hrf Ha;
    cbn [ray_loop]; [exact Ha|].
  destruct (cond r f) eqn:Hc; [|exact Ha].
  destruct (HP r f Hrf Hc) as [H0 Hnext]. cbv zeta.
  assert (Ha' : U64.in_range (Z.lor att (U64.bit (r * 8 + f))))
    by (apply in_range_lor; [exact Ha|apply in_range_bit; exact H0]).
  destruct (_ =? 0); [apply IH; assumption|exact Ha'].
Qed.

Lemma rook_attacks_in_range sq bl :
  0 <= sq < 64 -> U64.in_range (get_rook_attacks sq bl).
Proof.
  intros Hsq. destruct (square_coords sq Hsq) as (E & Hr & Hf).
  unfold get_rook_attacks. cbv zeta.
  set (tr := Z.quot sq 8) in *. set (tf := Z.rem sq 8) in *.
  apply (ray_loop_in_range _ _ _ (fun r f => r = tr /\ f <= tf - 1));
    [ray_side|lia|].
  apply (ray_loop_in_range _ _ _ (fun r f => r = tr /\ tf + 1 <= f));
    [ray_side|lia|].
  apply (ray_loop_in_range _ _ _ (fun r f => r <= tr - 1 /\ f = tf));
    [ray_side|lia|].
  apply (ray_loop_in_range _ _ _ (fun r f => tr + 1 <= r /\ f = tf));
    [ray_side|lia|].
  apply in_range_0.
Qed.

Lemma bishop_attacks_in_range sq bl :
  0 <= sq < 64 -> U64.in_range (get_bishop_attacks sq bl).
Proof.
  intros Hsq. destruct (square_coords sq Hsq) as (E & Hr & Hf).
  unfold get_bishop_attacks. cbv zeta.
  set (tr := Z.quot sq 8) in *. set (tf := Z.rem sq 8) in *.
  apply (ray_loop_in_range _ _ _ (fun r f => r <= tr - 1 /\ f <= tf - 1));
    [ray_side|lia|].
  apply (ray_loop_in_range _ _ _ (fun r f => r <= tr - 1 /\ tf + 1 <= f));
    [ray_side|lia|].
  apply (ray_loop_in_range _ _ _ (fun r f => tr + 1 <= r /\ f <= tf - 1));
    [ray_side|lia|].
  apply (ray_loop_in_range _ _ _ (fun r f => tr + 1 <= r /\ tf + 1 <= f));
    [ray_side|lia|].
  apply in_range_0.
Qed.

(** X11: the rook attack set of [sq] holds exactly the squares reached by
    sliding along the rank or the file of [sq] over squares free of
    blockers, the first blocker included; it is a 64-bit word. *)
Theorem rook_attacks_spec sq blockers :
  0 <= sq < 64 ->
  U64.in_range (get_rook_attacks sq blockers) /\
  forall t, 0 <= t < 64 ->
    (Z.testbit (get_rook_attacks sq blockers) t = true <->
     slides blockers sq t 1 0 \/ slides blockers sq t (-1) 0 \/
     slides blockers sq t 0 1 \/ slides blockers sq t 0 (-1)).
Proof.
  intros Hsq. split; [apply rook_attacks_in_range; exact Hsq|].
  intros t Ht. apply rook_attacks_slides; assumption.
Qed.

(** X12: the bishop attack set of [sq] holds exactly the squares reached by
    sliding along a diagonal of [sq] over squares free of blockers, the
    first blocker included; it is a 64-bit word. *)
Theorem bishop_attacks_spec sq blockers :
  0 <= sq < 64 ->
  U64.in_range (get_bishop_attacks sq blockers) /\
  forall t, 0 <= t < 64 ->
    (Z.testbit (get_bishop_attacks sq blockers) t = true <->
     slides blockers sq t 1 1 \/ slides blockers sq t 1 (-1) \/
     slides blockers sq t (-1) 1 \/ slides blockers sq t (-1) (-1)).
Proof.
  intros Hsq. split; [apply bishop_attacks_in_range; exact Hsq|].
  intros t Ht. apply bishop_attacks_slides; assumption.
Qed.

Lemma rook_attacks_sym sq t blockers :
  0 <= sq < 64 -> 0 <= t < 64 ->
  Z.testbit (get_rook_attacks sq blockers) t = true ->
  Z.testbit (get_rook_attacks t blockers) sq = true.
Proof.
  intros Hsq Ht H. apply rook_attacks_slides in H; [|assumption..].
  apply rook_attacks_slides; [assumption..|].
  destruct H as [H|[H|[H|H]]]; apply slides_sym in H; try assumption;
    cbn in H; tauto.
Qed.

Lemma bishop_attacks_sym sq t blockers :
  0 <= sq < 64 -> 0 <= t < 64 ->
  Z.testbit (get_bishop_attacks sq blockers) t = true ->
  Z.testbit (get_bishop_attacks t blockers) sq = true.
Proof.
  intros Hsq Ht H. apply bishop_attacks_slides in H; [|assumption..].
  apply bishop_attacks_slides; [assumption..|].
  destruct H as [H|[H|[H|H]]]; apply slides_sym in H; try assumption;
    cbn in H; tauto.
Qed.

(** X13: sliding attacks are symmetric: with the same blockers, [t] is in
    the rook (bishop) attack set of [sq] exactly when [sq] is in that of
    [t]. *)
Theorem sliding_attacks_symmetric sq t blockers :
  0 <= sq < 64 -> 0 <= t < 64 ->
  Z.testbit (get_rook_attacks sq blockers) t =
    Z.testbit (get_rook_attacks t blockers) sq /\
  Z.testbit (get_bishop_attacks sq blockers) t =
    Z.testbit (get_bishop_attacks t blockers) sq.
Proof.
  intros Hsq Ht. split; apply eq_true_iff_eq; split;
    auto using rook_attacks_sym, bishop_attacks_sym.
Qed.

(** The rook on a1 of the start position attacks a2 and b1, its first
    blockers, and nothing beyond them. *)
Lemma rook_attacks_spec_witness :
  U64.in_range (get_rook_attacks 0 (all start_board)) /\
  Z.testbit (get_rook_attacks 0 (all start_board)) 8 = true /\
  Z.testbit (get_rook_attacks 0 (all start_board)) 16 = false.
Proof.
  destruct (rook_attacks_spec 0 (all start_board)) as [H1 H2];
    [cbv; split; [discriminate|reflexivity]|].
  split; [exact H1|]. split; reflexivity.
Defined.

Lemma bishop_attacks_spec_witness :
  U64.in_range (get_bishop_attacks 2 (all start_board)) /\
  Z.testbit (get_bishop_attacks 2 (all start_board)) 9 = true /\
  Z.testbit (get_bishop_attacks 2 (all start_board)) 16 = false.
Proof.
  destruct (bishop_attacks_spec 2 (all start_board)) as [H1 H2];
    [cbv; split; [discriminate|reflexivity]|].
  split; [exact H1|]. split; reflexivity.
Defined.

Lemma sliding_attacks_symmetric_witness :
  Z.testbit (get_rook_attacks 2 (all start_board)) 9 =
    Z.testbit (get_rook_attacks 9 (all start_board)) 2 /\
  Z.testbit (get_bishop_attacks 2 (all start_board)) 9 =
    Z.testbit (get_bishop_attacks 9 (all start_board)) 2.
Proof.
  apply (sliding_attacks_symmetric 2 9 (all start_board));
    (cbv; split; [discriminate|reflexivity]).
Defined.
(* ================================================================== *)
(** ** What [makeMove] does to the bitboards *)

Section MakeMoveBitboards.
Context {keys : ZobristKeys}.

(** The capture loop toggles the [to] bit of the first opponent kind that
    has it. *)
Lemma pieces_mm_capture_loop o m : forall ps b,
  pieces (mm_capture_loop ps b o m) =
  match find (fun q => meets (pieces b o q) (U64.bit (to m))) ps with
  | Some q => upd2 (pieces b) o q (Z.lxor (pieces b o q) (U64.bit (to m)))
  | None => pieces b
  end.
Proof.
  induction ps as [|p ps IH]; intros b; cbn [mm_capture_loop find]; [reflexivity|].
  destruct (meets _ _); [reflexivity|apply IH].
Qed.

Lemma side_mm_capture_loop o m : forall ps b,
  side (mm_capture_loop ps b o m) = side b.
Proof.
  induction ps as [|p ps IH]; intros b; cbn [mm_capture_loop]; [reflexivity|].
  destruct (meets _ _); [reflexivity|apply IH].
Qed.

(** The bitboards after "Handle special moves". *)
Lemma pieces_mm_special b o pe m :
  pieces (mm_special b o pe m) =
  if piece m =? PAWN then
    let pcs :=
      if to m =? pe then
        xor_at (pieces b) o PAWN
               (U64.bit (if side b =? WHITE then to m - 8 else to m + 8))
      else pieces b in
    if negb (promo m =? 0) then
      xor_at (xor_at pcs (side b) PAWN (U64.bit (to m)))
             (side b) (promo m) (U64.bit (to m))
    else pcs
  else if (piece m =? KING) && (Z.abs (from m - to m) =? 2) then
    if to m =? 6 then xor_at (pieces b) WHITE ROOK (Z.lor (U64.bit 7) (U64.bit 5))
    else if to m =? 2 then xor_at (pieces b) WHITE ROOK (Z.lor (U64.bit 0) (U64.bit 3))
    else if to m =? 62 then xor_at (pieces b) BLACK ROOK (Z.lor (U64.bit 63) (U64.bit 61))
    else if to m =? 58 then xor_at (pieces b) BLACK ROOK (Z.lor (U64.bit 56) (U64.bit 59))
    else pieces b
  else pieces b.
Proof.
  unfold mm_special. cbv zeta.
  destruct (piece m =? PAWN).
  - destruct (to m =? pe); destruct (Z.abs (from m - to m) =? 16);
      destruct (promo m =? 0); reflexivity.
  - destruct (piece m =? KING); cbn [andb]; [|reflexivity].
    destruct (Z.abs (from m - to m) =? 2); [|reflexivity].
    repeat match goal with
    | |- context [if ?c then _ else _] => destruct c
    end; reflexivity.
Qed.

Lemma mm_move_piece_side x m : side (mm_move_piece x m) = side x.
Proof. reflexivity. Qed.

Lemma mm_move_piece_pieces x m :
  pieces (mm_move_piece x m) =
  upd2 (pieces x) (side x) (piece m)
       (Z.lxor (pieces x (side x) (piece m))
               (Z.lor (U64.bit (from m)) (U64.bit (to m)))).
Proof. reflexivity. Qed.

(** The bitboards after [makeMove], in closed form. *)
Lemma pieces_makeMove b m :
  pieces (makeMove b m) =
  special_pieces b m (captured_pieces b m (moved_pieces b m)).
Proof.
  unfold makeMove. cbv zeta.
  change (pieces (xor_hash (set_side (update ?x) _) _)) with (pieces x).
  rewrite pieces_mm_special.
  rewrite side_mm_capture_loop.
  rewrite pieces_mm_capture_loop.
  destruct (mm_hash_out_fields b m) as (P1 & S1 & E1 & C1).
  destruct (mm_castle_fields (mm_hash_out b m) m) as (P2 & S2 & E2).
  rewrite !mm_move_piece_side, mm_move_piece_pieces, !S2, !P2, !S1, !P1.
  reflexivity.
Qed.

(** The bits of a toggled bitboard. *)
Lemma xor_at_testbit pcs c0 k0 mask c k sq :
  Z.testbit (xor_at pcs c0 k0 mask c k) sq =
  xorb (Z.testbit (pcs c k) sq) ((c =? c0) && (k =? k0) && Z.testbit mask sq).
Proof.
  unfold xor_at, upd2.
  destruct (Z.eqb_spec c c0) as [->|]; destruct (Z.eqb_spec k k0) as [->|];
    cbn [andb]; rewrite ?Z.lxor_spec, ?xorb_false_r; reflexivity.
Qed.

Lemma two_bits_testbit s t sq :
  0 <= s -> 0 <= t ->
  Z.testbit (Z.lor (U64.bit s) (U64.bit t)) sq = (sq =? s) || (sq =? t).
Proof.
  intros Hs Ht. rewrite Z.lor_spec, !bit_testbit by assumption.
  rewrite (Z.eqb_sym s), (Z.eqb_sym t). reflexivity.
Qed.

Lemma bit_testbit' s sq : 0 <= s -> Z.testbit (U64.bit s) sq = (sq =? s).
Proof. intros Hs. rewrite bit_testbit by assumption. apply Z.eqb_sym. Qed.

Lemma meets_bit x s : 0 <= s -> meets x (U64.bit s) = Z.testbit x s.
Proof.
  intros Hs. unfold meets. rewrite Z.land_comm, land_bit_eq0 by exact Hs.
  apply negb_involutive.
Qed.
End MakeMoveBitboards.

Section Occupancy.
Context {keys : ZobristKeys}.

Lemma find_ext_in {A} (f g : A -> bool) l :
  (forall x, In x l -> f x = g x) -> find f l = find g l.
Proof.
  induction l as [|x l IH]; intros H; cbn [find]; [reflexivity|].
  rewrite (H x (or_introl eq_refl)). destruct (g x); [reflexivity|].
  apply IH. intros y Hy. apply H. right. exact Hy.
Qed.

Lemma sides_cases b : wf b ->
  (side b = WHITE /\ 1 - side b = BLACK) \/ (side b = BLACK /\ 1 - side b = WHITE).
Proof. intros [_ [-> | ->]]; [left|right]; split; reflexivity. Qed.

(** On a board without doubly occupied squares the capture loop removes
    the piece of the opponent that stands on [to], if there is one. *)
Lemma captured_find b m :
  wf b -> 0 <= to m ->
  captured_pieces b m (moved_pieces b m) =
  match find (fun q => Z.testbit (pieces b (1 - side b) q) (to m)) kinds with
  | Some q => xor_at (moved_pieces b m) (1 - side b) q (U64.bit (to m))
  | None => moved_pieces b m
  end.
Proof.
  intros Hw Ht. unfold captured_pieces.
  rewrite (find_ext_in _ (fun q => Z.testbit (pieces b (1 - side b) q) (to m))).
  - reflexivity.
  - intros q Hq. rewrite meets_bit by exact Ht. unfold moved_pieces, upd2.
    destruct (sides_cases b Hw) as [[-> ->]|[-> ->]]; reflexivity.
Qed.

Lemma kinds_cases k : In k kinds ->
  k = PAWN \/ k = KNIGHT \/ k = BISHOP \/ k = ROOK \/ k = QUEEN \/ k = KING.
Proof. cbn. intuition. Qed.

(** Case analysis on whether [sq] is the square [r]. *)
Ltac at_square sq r H :=
  let Hs := fresh "Hsq" in
  destruct (Z.eqb_spec sq r) as [Hs|Hs]; [try rewrite Hs; rewrite ?H|].

Ltac eqb_cases :=
  repeat match goal with
  | |- context [?x =? ?y] =>
      destruct (Z.eqb_spec x y); try subst; cbn [andb orb negb xorb]
  end.

(** The bitboards after [makeMove], square by square. *)
Lemma makeMove_occupant b m c k sq :
  wf b -> disjoint_squares b -> playable b m ->
  In c sides -> In k kinds -> 0 <= sq < 64 ->
  Z.testbit (pieces (makeMove b m) c k) sq = occupant_after b m c k sq.
Proof.
  intros Hw Hdis (Hf & Ht & Hne & Hp & HF & HT & Hpawn & Hking) Hc Hk Hsq.
  destruct (wf_side_In b Hw) as [Hs Ho].
  rewrite pieces_makeMove, captured_find by (auto; lia).
  (* what stands on the squares the move names *)
  assert (F_own : forall k, In k kinds ->
            Z.testbit (pieces b (side b) k) (from m) = (k =? piece m)).
  { intros k0 Hk0. destruct (Z.eqb_spec k0 (piece m)) as [->|Hn]; [exact HF|].
    destruct (Z.testbit (pieces b (side b) k0) (from m)) eqn:E; [|reflexivity].
    destruct (Hdis _ _ _ _ _ Hs Hk0 Hs Hp E HF). contradiction. }
  assert (F_opp : forall k, In k kinds ->
            Z.testbit (pieces b (1 - side b) k) (from m) = false).
  { intros k0 Hk0.
    destruct (Z.testbit (pieces b (1 - side b) k0) (from m)) eqn:E; [|reflexivity].
    destruct (Hdis _ _ _ _ _ Ho Hk0 Hs Hp E HF) as [E1 _]. lia. }
  assert (T_opp : forall q, 
            find (fun q => Z.testbit (pieces b (1 - side b) q) (to m)) kinds = Some q ->
            In q kinds /\ forall k, In k kinds ->
              Z.testbit (pieces b (1 - side b) k) (to m) = (k =? q)).
  { intros q Hfind. apply find_some in Hfind. destruct Hfind as [Hq Hb].
    split; [exact Hq|]. intros k0 Hk0.
    destruct (Z.eqb_spec k0 q) as [->|Hn]; [exact Hb|].
    destruct (Z.testbit (pieces b (1 - side b) k0) (to m)) eqn:E; [|reflexivity].
    destruct (Hdis _ _ _ _ _ Ho Hk0 Ho Hq E Hb). contradiction. }
  assert (T_none :
            find (fun q => Z.testbit (pieces b (1 - side b) q) (to m)) kinds = None ->
            forall k, In k kinds ->
              Z.testbit (pieces b (1 - side b) k) (to m) = false).
  { intros Hfind k0 Hk0. exact (find_none _ _ Hfind k0 Hk0). }
  pose proof (T_opp) as T_opp'. clear T_opp'.
  assert (Fc : Z.testbit (pieces b c k) (from m) = (c =? side b) && (k =? piece m)).
  { destruct (sides_cases b Hw) as [[Es Eo]|[Es Eo]];
      destruct Hc as [<-|[<-|[]]]; rewrite ?Es; rewrite ?Es, ?Eo in *;
      cbn [andb]; unfold WHITE, BLACK in *; cbn [Z.eqb andb];
      auto using F_own, F_opp. }
  set (cap := find (fun q => Z.testbit (pieces b (1 - side b) q) (to m)) kinds) in *.
  assert (Tc : Z.testbit (pieces b c k) (to m) =
               negb (c =? side b) &&
               match cap with Some q => k =? q | None => false end).
  { destruct (sides_cases b Hw) as [[Es Eo]|[Es Eo]];
      destruct Hc as [<-|[<-|[]]]; rewrite ?Es; rewrite ?Es, ?Eo in *;
      unfold WHITE, BLACK in *; cbn [Z.eqb andb negb]; auto;
      destruct cap as [q|] eqn:Ecap;
      try (apply (proj2 (T_opp q eq_refl)); exact Hk);
      try (apply (T_none eq_refl); exact Hk). }
  assert (Hcs : (c =? 1 - side b) = negb (c =? side b)).
  { destruct (sides_cases b Hw) as [[Es Eo]|[Es Eo]];
      destruct Hc as [<-|[<-|[]]]; rewrite ?Es, ?Eo; reflexivity. }
  change (moved_pieces b m)
    with (xor_at (pieces b) (side b) (piece m)
            (Z.lor (U64.bit (from m)) (U64.bit (to m)))).
  unfold special_pieces, occupant_after, castle_rook.
  destruct (Z.eqb_spec (piece m) PAWN) as [Epawn|Enp]; cbn [andb].
  - (* a pawn move *)
    destruct (Hpawn Epawn) as [Hpromo Hep]. clear Hking.
    cbv zeta.
    replace (piece m =? KING) with false by (rewrite Epawn; reflexivity).
    cbn [andb].
    assert (Hq0 : promo m = QUEEN -> PAWN <> promo m) by (intros ->; discriminate).
    destruct (Z.eqb_spec (to m) (ep b)) as [Eep|Eep].
    + (* en passant *)
      destruct (Hep Eep) as (Hcsq & Hcp & Hempty). cbv zeta in Hcsq, Hcp.
      set (csq := if side b =? WHITE then to m - 8 else to m + 8) in *.
      assert (Ecap : cap = None).
      { destruct cap as [q|] eqn:E; [|reflexivity].
        destruct (T_opp q eq_refl) as [Hq Hb].
        specialize (Hb q Hq). rewrite Z.eqb_refl in Hb.
        rewrite (Hempty _ _ Ho Hq) in Hb. discriminate. }
      rewrite Ecap in Tc |- *.
      assert (Ec : Z.testbit (pieces b c k) csq =
                   negb (c =? side b) && (k =? PAWN)).
      { destruct (Z.testbit (pieces b c k) csq) eqn:E.
        - destruct (Hdis _ _ _ _ _ Hc Hk Ho (or_introl eq_refl) E Hcp) as [-> ->].
          rewrite <- Hcs, !Z.eqb_refl. reflexivity.
        - symmetry.
          destruct (Z.eqb_spec k PAWN) as [->|]; [|apply andb_false_r].
          destruct (Z.eqb_spec c (side b)) as [->|Hn]; [reflexivity|].
          assert (c = 1 - side b)
            by (destruct (sides_cases b Hw) as [[Es Eo]|[Es Eo]];
                destruct Hc as [<-|[<-|[]]]; rewrite ?Es, ?Eo in *; congruence).
          subst c. congruence. }
      assert (Hcsq_ne : csq <> to m) by (subst csq; destruct (side b =? WHITE); lia).
      assert (Hcsq_F : csq <> from m).
      { intros E. rewrite E in Hcp.
        rewrite (F_opp PAWN (or_introl eq_refl)) in Hcp. discriminate. }
      destruct Hpromo as [Hpr|Hpr]; rewrite Hpr;
        change (QUEEN =? 0) with false; change (0 =? 0) with true; cbn [negb];
        cbv iota;
        rewrite !xor_at_testbit; rewrite ?two_bits_testbit by lia;
        rewrite ?bit_testbit' by lia;
        rewrite ?Hcs, ?Epawn;
        destruct (Z.eqb_spec sq (to m)) as [->|HsT];
        try rewrite Tc;
        try (destruct (Z.eqb_spec sq (from m)) as [->|HsF]; try rewrite Fc);
        try (destruct (Z.eqb_spec sq csq) as [->|HsC]; try rewrite Ec);
        rewrite ?Epawn; cbn [andb orb negb xorb];
        eqb_cases; rewrite ?xorb_false_r; try reflexivity; try congruence; try lia.
    + (* a push or a capture *)
      clear Hep. cbn [andb]. cbv iota.
      destruct cap as [q|] eqn:Ecap;
        [destruct (T_opp q eq_refl) as [Hq Hqb]|];
        (destruct Hpromo as [Hpr|Hpr]; rewrite Hpr;
         change (QUEEN =? 0) with false; change (0 =? 0) with true; cbn [negb];
         cbv iota;
         rewrite !xor_at_testbit; rewrite ?two_bits_testbit by lia;
         rewrite ?bit_testbit' by lia;
         rewrite ?Hcs, ?Epawn;
         destruct (Z.eqb_spec sq (to m)) as [->|HsT];
         try rewrite Tc;
         try (destruct (Z.eqb_spec sq (from m)) as [->|HsF]; try rewrite Fc);
         rewrite ?Epawn; cbn [andb orb negb xorb];
         eqb_cases; rewrite ?xorb_false_r; try reflexivity; try congruence; try lia).
  - (* a piece move *)
    clear Hpawn. cbn [andb].
    destruct ((piece m =? KING) && (Z.abs (from m - to m) =? 2)) eqn:Ecastle.
    + (* castling *)
      apply andb_true_iff in Ecastle. destruct Ecastle as [Ek Ea].
      apply Z.eqb_eq in Ek, Ea.
      destruct (Hking Ek Ea) as (rf & rt & Hcr & Hrook & Hrt & N1 & N2 & N3 & N4).
      unfold castle_rook in Hcr. rewrite Ek, Ea in Hcr.
      change ((KING =? KING) && (2 =? 2)) with true in Hcr. cbv iota in Hcr.
      assert (Rf : Z.testbit (pieces b c k) rf = (c =? side b) && (k =? ROOK)).
      { destruct (Z.testbit (pieces b c k) rf) eqn:E.
        - assert (HinR : In ROOK kinds) by (cbn; auto 10).
          destruct (Hdis c k (side b) ROOK rf Hc Hk Hs HinR E Hrook) as [-> ->].
          rewrite !Z.eqb_refl. reflexivity.
        - symmetry.
          destruct (Z.eqb_spec k ROOK) as [->|]; [|apply andb_false_r].
          destruct (Z.eqb_spec c (side b)) as [->|Hn]; [congruence|reflexivity]. }
      assert (Rt : Z.testbit (pieces b c k) rt = false) by (apply Hrt; assumption).
      destruct cap as [q|] eqn:Ecap;
        [destruct (T_opp q eq_refl) as [Hq Hqb]|];
        (repeat match type of Hcr with
         | (if ?x =? ?y then _ else _) = _ =>
             destruct (Z.eqb_spec x y);
             [injection Hcr as Es Erf Ert; subst rf rt; rewrite <- Es in *|]
         end; [..|discriminate Hcr];
         rewrite !xor_at_testbit; rewrite ?two_bits_testbit by lia;
         rewrite ?bit_testbit' by lia;
         rewrite ?Hcs, ?Ek;
         at_square sq (to m) Tc; at_square sq (from m) Fc;
         match type of Rf with Z.testbit _ ?r = _ => at_square sq r Rf end;
         match type of Rt with Z.testbit _ ?r = _ => at_square sq r Rt end;
         rewrite ?Ek; cbn [andb orb negb xorb];
         eqb_cases; rewrite ?xorb_false_r; try reflexivity; try congruence; try lia).
    + (* an ordinary move or capture *)
      clear Hking.
      destruct cap as [q|] eqn:Ecap;
        [destruct (T_opp q eq_refl) as [Hq Hqb]|];
        (rewrite !xor_at_testbit; rewrite ?two_bits_testbit by lia;
         rewrite ?bit_testbit' by lia;
         rewrite ?Hcs;
         at_square sq (to m) Tc; at_square sq (from m) Fc;
         cbn [andb orb negb xorb];
         eqb_cases; rewrite ?xorb_false_r; try reflexivity; try congruence; try lia).
Qed.

End Occupancy.

(* ================================================================== *)
(** ** Where the pseudo-legal moves come from *)

Section GeneratorLists.
Context {keys : ZobristKeys}.

Lemma push_back_app {A : Type} (v : list A) x : push_back v x = v ++ [x].
Proof. reflexivity. Qed.

(** Each part of the generator appends to the vector it is given. *)
Lemma gen_pawn_push_app b f p moves :
  gen_pawn_push b f p moves = moves ++ gen_pawn_push b f p [].
Proof.
  unfold gen_pawn_push. cbv zeta.
  repeat match goal with
  | |- context [if ?c then _ else _] => destruct c
  end; unfold push_back; cbn [app]; rewrite <- ?app_assoc, ?app_nil_r; reflexivity.
Qed.

Lemma gen_pawn_capture_app b co f p moves d :
  gen_pawn_capture b co f p moves d = moves ++ gen_pawn_capture b co f p [] d.
Proof.
  unfold gen_pawn_capture. cbv zeta.
  repeat match goal with
  | |- context [if ?c then _ else _] => destruct c
  end; unfold push_back; cbn [app]; rewrite ?app_nil_r; reflexivity.
Qed.

Lemma gen_pawn_app b co f p moves :
  gen_pawn b co f p moves = moves ++ gen_pawn b co f p [].
Proof.
  unfold gen_pawn. cbv zeta. cbn [fold_left].
  set (dir := if side b =? WHITE then 8 else -8).
  rewrite (gen_pawn_capture_app b co f p _ (dir + 1)).
  rewrite (gen_pawn_capture_app b co f p _ (dir - 1)).
  rewrite (gen_pawn_capture_app b co f p
             (gen_pawn_capture b co f p _ (dir - 1)) (dir + 1)).
  rewrite (gen_pawn_capture_app b co f p (if negb co then _ else []) (dir - 1)).
  destruct (negb co).
  - rewrite (gen_pawn_push_app b f p moves). rewrite <- !app_assoc. reflexivity.
  - cbn [app]. rewrite <- !app_assoc. reflexivity.
Qed.

Lemma gen_castling_app b moves :
  gen_castling b moves = moves ++ gen_castling b [].
Proof.
  unfold gen_castling.
  repeat match goal with
  | |- context [if ?c then _ else _] => destruct c
  end; cbv zeta; unfold push_back; cbn [app];
  rewrite <- ?app_assoc, ?app_nil_r; reflexivity.
Qed.

Lemma push_loop_app f p l : forall moves,
  fold_left (fun moves to => push_back moves (Move_new f to p (-1) 0)) l moves =
  moves ++ map (fun to => Move_new f to p (-1) 0) l.
Proof.
  induction l as [|t l IH]; intros moves; cbn [fold_left map].
  - rewrite app_nil_r. reflexivity.
  - rewrite IH. unfold push_back. rewrite <- app_assoc. reflexivity.
Qed.

Lemma fold_app_flat_map {A B : Type} (g : B -> list A -> list A) l :
  (forall x acc, g x acc = acc ++ g x []) ->
  forall acc, fold_left (fun acc x => g x acc) l acc
              = acc ++ flat_map (fun x => g x []) l.
Proof.
  intros Hg. induction l as [|x l IH]; intros acc; cbn [fold_left flat_map].
  - rewrite app_nil_r. reflexivity.
  - rewrite IH, (Hg x acc), <- app_assoc. reflexivity.
Qed.

(** The moves of one piece: pawn moves, or castling followed by one move
    per bit of the attack set. *)
Lemma gen_piece_eq b co p f moves :
  wf b -> occ_ok b -> 0 <= f < 64 ->
  gen_piece b co p f moves =
  moves ++
  (if p =? PAWN then gen_pawn b co f p []
   else (if (p =? KING) && negb co then gen_castling b [] else [])
        ++ map (fun t => Move_new f t p (-1) 0) (U64.bits (gen_attacks b co f p))).
Proof.
  intros Hw Ho Hf. unfold gen_piece.
  destruct (Z.eqb_spec p PAWN) as [Hp|Hp].
  - rewrite for_bits_fold by apply in_range_0. rewrite bits_zero.
    cbn [fold_left]. apply gen_pawn_app.
  - destruct (gen_attacks_ok b co f p Hw Ho Hf) as [Hr _].
    destruct (Z.eqb_spec p KING) as [Hk|Hk]; cbn [andb].
    + destruct co; cbn [negb].
      * rewrite for_bits_fold by exact Hr. rewrite push_loop_app.
        cbn [app]. reflexivity.
      * assert (E : Z.land (KingMoves f) (U64.lnot (occupied b (side b)))
                    = gen_attacks b false f p).
        { rewrite Hk. unfold gen_attacks. cbv zeta.
          change (KING =? KNIGHT) with false. change (KING =? BISHOP) with false.
          change (KING =? ROOK) with false. change (KING =? QUEEN) with false.
          change (KING =? KING) with true. cbv iota. reflexivity. }
        rewrite E. rewrite for_bits_fold by exact Hr. rewrite push_loop_app.
        rewrite gen_castling_app, <- app_assoc. reflexivity.
    + rewrite for_bits_fold by exact Hr. rewrite push_loop_app.
      cbn [app]. reflexivity.
Qed.

(** The pseudo-legal moves, piece kind by piece kind and square by
    square. *)
Lemma pseudoMoves_eq b co :
  wf b -> occ_ok b ->
  pseudoMoves b co =
  flat_map (fun p =>
    flat_map (fun f => gen_piece b co p f []) (U64.bits (pieces b (side b) p)))
    kinds.
Proof.
  intros Hw Ho. unfold pseudoMoves.
  assert (Hin : forall p, In p kinds ->
            forall acc, U64.for_bits (gen_piece b co p) (pieces b (side b) p) acc =
            acc ++ flat_map (fun f => gen_piece b co p f [])
                            (U64.bits (pieces b (side b) p))).
  { intros p Hp acc.
    assert (Hr : U64.in_range (pieces b (side b) p))
      by (apply Hw; [apply wf_side_In, Hw|exact Hp]).
    rewrite for_bits_fold by exact Hr.
    assert (Hb : forall f, In f (U64.bits (pieces b (side b) p)) -> 0 <= f < 64)
      by (intros f Hfb; apply bits_In in Hfb; tauto).
    revert acc. induction (U64.bits (pieces b (side b) p)) as [|f l IH]; intros acc.
    - cbn [fold_left flat_map]. rewrite app_nil_r. reflexivity.
    - rewrite fold_left_cons. cbn [flat_map].
      rewrite IH by (intros f' Hf'; apply Hb; right; exact Hf').
      rewrite (gen_piece_eq b co p f acc) by (auto; apply Hb; left; reflexivity).
      rewrite (gen_piece_eq b co p f []) by (auto; apply Hb; left; reflexivity).
      cbn [app]. rewrite <- app_assoc. reflexivity. }
  assert (Hks : forall ps acc, (forall p, In p ps -> In p kinds) ->
            fold_left (fun moves p =>
                U64.for_bits (gen_piece b co p) (pieces b (side b) p) moves) ps acc =
            acc ++ flat_map (fun p =>
              flat_map (fun f => gen_piece b co p f [])
                       (U64.bits (pieces b (side b) p))) ps).
  { induction ps as [|p ps IH]; intros acc Hps.
    - cbn [fold_left flat_map]. rewrite app_nil_r. reflexivity.
    - rewrite fold_left_cons. cbn [flat_map].
      rewrite IH by (intros q Hq; apply Hps; right; exact Hq).
      rewrite Hin by (apply Hps; left; reflexivity).
      rewrite <- app_assoc. reflexivity. }
  rewrite Hks by auto. reflexivity.
Qed.

(** Which piece on which square a pseudo-legal move comes from. *)
Lemma pseudoMoves_In b co m :
  wf b -> occ_ok b ->
  In m (pseudoMoves b co) <->
  exists p f, In p kinds /\ 0 <= f < 64 /\
    Z.testbit (pieces b (side b) p) f = true /\
    In m (gen_piece b co p f []).
Proof.
  intros Hw Ho. rewrite pseudoMoves_eq by assumption.
  rewrite in_flat_map. split.
  - intros (p & Hp & H). apply in_flat_map in H. destruct H as (f & Hf & H).
    apply bits_In in Hf. exists p, f. tauto.
  - intros (p & f & Hp & Hf & Hb & H). exists p. split; [exact Hp|].
    apply in_flat_map. exists f. split; [apply bits_In; tauto|exact H].
Qed.

(** The three sources of the moves of a piece. *)
Lemma gen_piece_In b co p f m :
  wf b -> occ_ok b -> 0 <= f < 64 ->
  In m (gen_piece b co p f []) <->
  (p = PAWN /\ In m (gen_pawn b co f PAWN [])) \/
  (p <> PAWN /\
   ((p = KING /\ co = false /\ In m (gen_castling b [])) \/
    exists t, 0 <= t < 64 /\ Z.testbit (gen_attacks b co f p) t = true /\
              m = Move_new f t p (-1) 0)).
Proof.
  intros Hw Ho Hf. rewrite gen_piece_eq by assumption. cbn [app].
  destruct (Z.eqb_spec p PAWN) as [Hp|Hp].
  - subst p. split; [intros H; left; auto|].
    intros [[_ H]|[H _]]; [exact H|contradiction].
  - rewrite in_app_iff, in_map_iff. split.
    + intros [H|(t & <- & Ht)]; right; (split; [exact Hp|]).
      * left. destruct (Z.eqb_spec p KING); [|destruct H].
        destruct co; [destruct H|]. auto.
      * right. exists t. apply bits_In in Ht. tauto.
    + intros [[H _]|[_ [(Hk & Hco & H)|(t & Ht & Hb & ->)]]]; [contradiction| |].
      * left. subst p co. exact H.
      * right. exists t. split; [reflexivity|apply bits_In; tauto].
Qed.
End GeneratorLists.

Section GeneratorCases.
Context {keys : ZobristKeys}.

(** What a pawn push is. *)
Lemma gen_pawn_push_In b f m :
  0 <= f < 64 -> In m (gen_pawn_push b f PAWN []) ->
  from m = f /\ piece m = PAWN /\ (captured m = -1 /\ score m = 0) /\
  0 <= f + pawn_dir b < 64 /\ Z.testbit (all b) (f + pawn_dir b) = false /\
  ((to m = f + pawn_dir b /\
    promo m = (if Z.quot (to m) 8 =? promo_rank b then QUEEN else 0)) \/
   (to m = f + 2 * pawn_dir b /\ promo m = 0 /\
    Z.quot f 8 = (if side b =? WHITE then 1 else 6) /\
    Z.testbit (all b) (f + 2 * pawn_dir b) = false)).
Proof.
  intros Hf. unfold gen_pawn_push, promo_rank, pawn_dir. cbv zeta.
  set (dir := if side b =? WHITE then 8 else -8).
  destruct (f + dir >=? 0) eqn:E1; [|intros []].
  destruct (f + dir <? 64) eqn:E2; [|intros []].
  cbn [andb]. rewrite meets_bit by lia.
  destruct (Z.testbit (all b) (f + dir)) eqn:E3; cbn [negb]; [intros []|].
  assert (0 <= f + dir < 64) by lia.
  destruct (Z.quot (f + dir) 8 =? _) eqn:E4.
  - unfold push_back. cbn [app]. intros [<-|[]]. cbn. rewrite E4. auto 10.
  - unfold push_back. cbn [app].
    destruct (Z.quot f 8 =? _) eqn:E5.
    + assert (0 <= f + 2 * dir).
      { pose proof (square_coords f Hf). subst dir.
        destruct (side b =? WHITE); lia. }
      rewrite meets_bit by lia.
      destruct (Z.testbit (all b) (f + 2 * dir)) eqn:E6; cbn [negb app].
      * intros [<-|[]]. cbn. rewrite E4. auto 10.
      * intros [<-|[<-|[]]]; cbn.
        -- rewrite E4. auto 10.
        -- repeat (split; [solve [auto; lia]|]). right.
           repeat (split; [solve [auto; lia]|]). reflexivity.
    + intros [<-|[]]. cbn. rewrite E4. auto 10.
Qed.

(** What a pawn capture is: onto a piece of the opponent or, in the full
    mode, onto the en-passant square. *)
Lemma gen_pawn_capture_In b co f d m :
  0 <= f < 64 -> In m (gen_pawn_capture b co f PAWN [] d) ->
  from m = f /\ piece m = PAWN /\ to m = f + d /\ 0 <= f + d < 64 /\
  Z.abs (Z.rem f 8 - Z.rem (f + d) 8) <= 1 /\
  ((Z.testbit (occupied b (1 - side b)) (f + d) = true /\
    promo m = (if Z.quot (to m) 8 =? promo_rank b then QUEEN else 0)) \/
   (Z.testbit (occupied b (1 - side b)) (f + d) = false /\
    co = false /\ f + d = ep b /\ promo m = 0 /\ captured m = -1)) /\
  score m = 0 /\
  captured m = (if Z.testbit (occupied b (1 - side b)) (f + d)
                   && (Z.quot (to m) 8 =? promo_rank b) then 0 else -1).
Proof.
  intros Hf. unfold gen_pawn_capture, promo_rank. cbv zeta.
  destruct (f + d <? 0) eqn:E1; [intros []|].
  destruct (f + d >? 63) eqn:E2; [intros []|].
  destruct (Z.abs _ >? 1) eqn:E3; [intros []|]. cbn [orb].
  assert (0 <= f + d < 64) by lia.
  rewrite meets_bit by lia.
  destruct (Z.testbit (occupied b (1 - side b)) (f + d)) eqn:E4.
  - destruct (Z.quot (f + d) 8 =? _) eqn:E5; unfold push_back; cbn [app];
      (intros [<-|[]]); cbn [from to piece promo captured score Move_new];
      rewrite E5; cbn [andb];
      (split; [reflexivity|]); (split; [reflexivity|]); (split; [reflexivity|]);
      (split; [lia|]); (split; [lia|]); (split; [left; auto|]); auto.
  - destruct co; cbn [negb andb]; [intros []|].
    destruct (Z.eqb_spec (f + d) (ep b)); [|intros []].
    unfold push_back; cbn [app].
    (intros [<-|[]]); cbn [from to piece promo captured score Move_new].
    cbn [andb].
    (split; [reflexivity|]); (split; [reflexivity|]); (split; [reflexivity|]);
      (split; [lia|]); (split; [lia|]); (split; [right; auto|]); auto.
Qed.

Lemma gen_pawn_In b co f m :
  In m (gen_pawn b co f PAWN []) ->
  (co = false /\ In m (gen_pawn_push b f PAWN [])) \/
  In m (gen_pawn_capture b co f PAWN [] (pawn_dir b - 1)) \/
  In m (gen_pawn_capture b co f PAWN [] (pawn_dir b + 1)).
Proof.
  unfold gen_pawn, pawn_dir. cbv zeta. cbn [fold_left].
  set (dir := if side b =? WHITE then 8 else -8).
  rewrite (gen_pawn_capture_app b co f PAWN _ (dir + 1)).
  rewrite (gen_pawn_capture_app b co f PAWN _ (dir - 1)).
  rewrite !in_app_iff. intros [[H|H]|H]; auto.
  destruct co; cbn [negb] in H; [destruct H|auto].
Qed.

Lemma land_pow2_testbit x i :
  0 <= i -> negb (Z.land x (U64.bit i) =? 0) = Z.testbit x i.
Proof.
  intros Hi. rewrite Z.land_comm, land_bit_eq0 by lia. apply negb_involutive.
Qed.

Lemma meets_false_testbit x mask i :
  meets x mask = false -> Z.testbit mask i = true -> Z.testbit x i = false.
Proof.
  unfold meets. intros H Hm. apply negb_false_iff, Z.eqb_eq in H.
  assert (E : Z.testbit (Z.land x mask) i = false) by (rewrite H; apply Z.bits_0).
  rewrite Z.land_spec, Hm, andb_true_r in E. exact E.
Qed.

(** What a castling move is, and under which tests it is generated. *)
Lemma gen_castling_In b m :
  In m (gen_castling b []) ->
  isInCheck b = false /\
  ((side b = WHITE /\ m = Move_new 4 6 KING (-1) 0 /\
    Z.testbit (castle b) 0 = true /\
    Z.testbit (all b) 5 = false /\ Z.testbit (all b) 6 = false /\
    is_attacked 5 BLACK b = false /\ is_attacked 6 BLACK b = false) \/
   (side b = WHITE /\ m = Move_new 4 2 KING (-1) 0 /\
    Z.testbit (castle b) 1 = true /\
    Z.testbit (all b) 1 = false /\ Z.testbit (all b) 2 = false /\
    Z.testbit (all b) 3 = false /\
    is_attacked 3 BLACK b = false /\ is_attacked 2 BLACK b = false) \/
   (side b <> WHITE /\ m = Move_new 60 62 KING (-1) 0 /\
    Z.testbit (castle b) 2 = true /\
    Z.testbit (all b) 61 = false /\ Z.testbit (all b) 62 = false /\
    is_attacked 61 WHITE b = false /\ is_attacked 62 WHITE b = false) \/
   (side b <> WHITE /\ m = Move_new 60 58 KING (-1) 0 /\
    Z.testbit (castle b) 3 = true /\
    Z.testbit (all b) 57 = false /\ Z.testbit (all b) 58 = false /\
    Z.testbit (all b) 59 = false /\
    is_attacked 59 WHITE b = false /\ is_attacked 58 WHITE b = false)).
Proof.
  unfold gen_castling.
  destruct (isInCheck b); cbn [negb]; [intros []|].
  intros H. split; [reflexivity|].
  change 1 with (U64.bit 0) in H. change 2 with (U64.bit 1) in H.
  change 4 with (U64.bit 2) in H. change 8 with (U64.bit 3) in H.
  rewrite !land_pow2_testbit in H by lia.
  destruct (Z.eqb_spec (side b) WHITE) as [Hs|Hs]; cbv zeta in H;
    repeat match type of H with
    | context [if ?c then _ else _] => destruct c eqn:?
    end;
    unfold push_back in H; cbn [app In] in H;
    repeat match goal with
    | E : _ && _ = true |- _ => apply andb_true_iff in E; destruct E
    | E : negb _ = true |- _ => apply negb_true_iff in E
    end;
    repeat match goal with
    | E : meets (all b) ?mask = false |- _ =>
        pose proof (meets_false_testbit _ _ 1 E);
        pose proof (meets_false_testbit _ _ 2 E);
        pose proof (meets_false_testbit _ _ 3 E);
        pose proof (meets_false_testbit _ _ 5 E);
        pose proof (meets_false_testbit _ _ 6 E);
        pose proof (meets_false_testbit _ _ 57 E);
        pose proof (meets_false_testbit _ _ 58 E);
        pose proof (meets_false_testbit _ _ 59 E);
        pose proof (meets_false_testbit _ _ 61 E);
        pose proof (meets_false_testbit _ _ 62 E);
        clear E
    end;
    repeat match type of H with
    | _ \/ _ => destruct H as [H|H]
    | False => destruct H
    end; subst m;
    first [ left; solve [auto 12]
          | right; left; solve [auto 12]
          | right; right; left; solve [auto 12]
          | right; right; right; solve [auto 12] ].
Qed.
End GeneratorCases.

(* ================================================================== *)
(** ** The invariant of the reachable positions *)

Section OccupiedWords.
Context {keys : ZobristKeys}.

(** The bits of [occupied[c]] are the bits of the six bitboards of [c]. *)
Lemma occupied_testbit b c sq :
  occ_ok b -> In c sides ->
  Z.testbit (occupied b c) sq = existsb (fun k => Z.testbit (pieces b c k) sq) kinds.
Proof.
  intros Ho Hc. rewrite (Ho c Hc). unfold kinds. cbn [fold_left existsb].
  rewrite !Z.lor_spec, Z.bits_0. cbn [orb]. rewrite orb_false_r, !orb_assoc. reflexivity.
Qed.

Lemma occupied_false b c sq :
  occ_ok b -> In c sides ->
  Z.testbit (occupied b c) sq = false ->
  forall k, In k kinds -> Z.testbit (pieces b c k) sq = false.
Proof.
  intros Ho Hc H k Hk. rewrite occupied_testbit in H by assumption.
  destruct (Z.testbit (pieces b c k) sq) eqn:E; [|reflexivity].
  assert (existsb (fun k => Z.testbit (pieces b c k) sq) kinds = true).
  { apply existsb_exists. exists k. auto. }
  congruence.
Qed.

Lemma occupied_true b c sq :
  occ_ok b -> In c sides ->
  Z.testbit (occupied b c) sq = true ->
  exists k, In k kinds /\ Z.testbit (pieces b c k) sq = true.
Proof.
  intros Ho Hc H. rewrite occupied_testbit in H by assumption.
  apply existsb_exists in H. exact H.
Qed.

Lemma all_false b sq :
  occ_ok b -> all_ok b -> Z.testbit (all b) sq = false -> empty_square b sq.
Proof.
  intros Ho Ha H c k Hc Hk. rewrite Ha, Z.lor_spec in H.
  apply orb_false_iff in H. destruct H as [Hw Hb].
  destruct Hc as [<-|[<-|[]]]; eapply occupied_false; eauto; cbn; auto.
Qed.

Lemma opp_occupied_own_free b sq :
  wf b -> occ_ok b -> disjoint_squares b ->
  Z.testbit (occupied b (1 - side b)) sq = true ->
  forall k, In k kinds -> Z.testbit (pieces b (side b) k) sq = false.
Proof.
  intros Hw Ho Hd H k Hk. destruct (wf_side_In b Hw) as [Hs Hop].
  destruct (occupied_true b _ sq Ho Hop H) as (q & Hq & Hqb).
  destruct (Z.testbit (pieces b (side b) k) sq) eqn:E; [|reflexivity].
  destruct (Hd _ _ _ _ sq Hs Hk Hop Hq E Hqb) as [Hc _].
  destruct Hw as [_ [Hsd|Hsd]]; rewrite Hsd in Hc; discriminate.
Qed.
End OccupiedWords.

Section PseudoLegalSound.
Context {keys : ZobristKeys}.

Lemma king_table_check :
  forallb (fun f => forallb (fun t =>
      negb (Z.testbit (KingMoves f) t) || negb (Z.abs (f - t) =? 2))
    U64.squares) U64.squares = true.
Proof. vm_compute. reflexivity. Qed.

(** A king step never spans two files on a rank. *)
Lemma king_table_step f t :
  0 <= f < 64 -> 0 <= t < 64 -> Z.testbit (KingMoves f) t = true ->
  Z.abs (f - t) <> 2.
Proof.
  intros Hf Ht Hb. pose proof king_table_check as H.
  rewrite forallb_forall in H. specialize (H f (proj2 (squares_In f) Hf)).
  rewrite forallb_forall in H. specialize (H t (proj2 (squares_In t) Ht)).
  cbv beta in H. rewrite Hb in H. cbn [negb orb] in H.
  apply negb_true_iff, Z.eqb_neq in H. exact H.
Qed.

(** Where a move taken from an attack set lands. *)
Lemma gen_attacks_target b co f p t :
  wf b -> occ_ok b -> disjoint_squares b -> 0 <= f < 64 -> 0 <= t < 64 ->
  Z.testbit (gen_attacks b co f p) t = true ->
  t <> f /\
  (forall k, In k kinds -> Z.testbit (pieces b (side b) k) t = false) /\
  (co = true -> Z.testbit (occupied b (1 - side b)) t = true) /\
  (p = KING -> Z.abs (f - t) <> 2).
Proof.
  intros Hw Ho Hd Hf Ht H.
  destruct (gen_attacks_ok b co f p Hw Ho Hf) as [_ Hav].
  split; [intros ->; congruence|].
  unfold gen_attacks in H. cbv zeta in H.
  set (attacks := if p =? KNIGHT then _ else _) in H.
  assert (Ha : Z.testbit attacks t = true /\
               (if co then Z.testbit (occupied b (1 - side b)) t = true
                else Z.testbit (occupied b (side b)) t = false)).
  { destruct co; rewrite Z.land_spec in H; apply andb_true_iff in H;
      destruct H as [H1 H2]; split; auto.
    rewrite lnot_testbit in H2 by lia. apply negb_true_iff in H2. exact H2. }
  destruct Ha as [Ha Hocc]. repeat split.
  - destruct co.
    + apply opp_occupied_own_free; auto.
    + apply occupied_false; auto. apply wf_side_In, Hw.
  - intros ->. exact Hocc.
  - intros ->. subst attacks. change (KING =? KNIGHT) with false in Ha.
    change (KING =? BISHOP) with false in Ha.
    change (KING =? ROOK) with false in Ha.
    change (KING =? QUEEN) with false in Ha.
    change (KING =? KING) with true in Ha. cbv iota in Ha.
    apply king_table_step; auto.
Qed.

Lemma ep_inv_ep_ok b : ep_inv b -> ep_ok b.
Proof.
  unfold ep_inv, ep_ok. intros [H|[(Hs & Hr & _)|(Hs & Hr & _)]]; auto.
Qed.

Lemma ep_inv_playable b t :
  ep_inv b -> 0 <= t < 64 -> t = ep b ->
  let csq := if side b =? WHITE then t - 8 else t + 8 in
  0 <= csq < 64 /\ Z.testbit (pieces b (1 - side b) PAWN) csq = true /\
  empty_square b t.
Proof.
  intros [H|[(Hs & Hr & Hp & He)|(Hs & Hr & Hp & He)]] Ht ->; [lia| |];
    rewrite Hs; cbn; repeat split; auto; lia.
Qed.

Lemma playable_pawn b m :
  ep_inv b -> 0 <= from m < 64 -> 0 <= to m < 64 -> from m <> to m ->
  piece m = PAWN ->
  Z.testbit (pieces b (side b) PAWN) (from m) = true ->
  (forall k, In k kinds -> Z.testbit (pieces b (side b) k) (to m) = false) ->
  promo m = 0 \/ promo m = QUEEN ->
  playable b m.
Proof.
  intros He Hf Ht Hne Hp Hb Hown Hpr. unfold playable. rewrite Hp.
  split; [exact Hf|]. split; [exact Ht|]. split; [exact Hne|].
  split; [cbn; auto|]. split; [exact Hb|]. split; [exact Hown|].
  split.
  - intros _. split; [exact Hpr|]. intros E. apply ep_inv_playable; auto.
  - intros E. discriminate E.
Qed.

Lemma playable_piece b m :
  0 <= from m < 64 -> 0 <= to m < 64 -> from m <> to m ->
  In (piece m) kinds -> piece m <> PAWN ->
  Z.testbit (pieces b (side b) (piece m)) (from m) = true ->
  (forall k, In k kinds -> Z.testbit (pieces b (side b) k) (to m) = false) ->
  (piece m = KING -> Z.abs (from m - to m) <> 2) ->
  playable b m.
Proof.
  intros Hf Ht Hne Hk Hp Hb Hown Hking. unfold playable.
  split; [exact Hf|]. split; [exact Ht|]. split; [exact Hne|].
  split; [exact Hk|]. split; [exact Hb|]. split; [exact Hown|].
  split.
  - intros E. contradiction.
  - intros E H2. apply Hking in E. contradiction.
Qed.

(** On a consistent board every pseudo-legal move is one [makeMove]
    expects. *)
Lemma pseudo_sound b co m :
  consistent b -> In m (pseudoMoves b co) ->
  playable b m /\ double_push_facts b m.
Proof.
  intros (Hw & Ho & Ha & Hd & He & Hc) Hm.
  apply pseudoMoves_In in Hm; [|assumption..].
  destruct Hm as (p & f & Hp & Hf & Hb & Hm).
  destruct (wf_side_In b Hw) as [Hs Hop].
  apply gen_piece_In in Hm; [|assumption..].
  destruct Hm as [[-> Hm]|[Hnp [(-> & -> & Hm)|(t & Ht & Hat & ->)]]].
  - (* pawn moves *)
    apply gen_pawn_In in Hm.
    assert (Hdir : pawn_dir b = 8 /\ side b = WHITE \/ pawn_dir b = -8 /\ side b = BLACK).
    { unfold pawn_dir. destruct Hw as [_ [E|E]]; rewrite E; cbn; auto. }
    destruct Hm as [[-> Hm]|Hm].
    + apply gen_pawn_push_In in Hm; [|assumption].
      destruct Hm as (Hfr & Hpc & Hcap & Hr1 & He1 & Hm).
      pose proof (all_false b _ Ho Ha He1) as Hempty1.
      assert (Htr : 0 <= to m < 64 /\ from m <> to m /\
                    empty_square b (to m) /\ (promo m = 0 \/ promo m = QUEEN)).
      { destruct Hm as [(Ht & Hpr)|(Ht & Hpr & Hrk & He2)].
        - rewrite Ht, Hfr.
          split; [lia|]. split; [destruct Hdir as [[-> _]|[-> _]]; lia|].
          split; [exact Hempty1|].
          rewrite Hpr. destruct (_ =? _); auto.
        - pose proof (all_false b _ Ho Ha He2) as Hempty2.
          pose proof (square_coords f Hf).
          rewrite Ht, Hfr.
          assert (0 <= f + 2 * pawn_dir b < 64 /\ f <> f + 2 * pawn_dir b).
          { destruct Hdir as [[-> Hsd]|[-> Hsd]]; rewrite Hsd in Hrk;
              cbn in Hrk; lia. }
          tauto. }
      destruct Htr as (Ht1 & Hne & Hemp & Hpr).
      split.
      * apply playable_pawn; auto; try (rewrite Hfr; assumption).
      * intros _ H16. rewrite Hfr in *.
        destruct Hm as [(Ht & _)|(Ht & Hpr0 & Hrk & He2)].
        { destruct Hdir as [[E _]|[E _]]; rewrite E in Ht; lia. }
        split; [exact Hpr0|]. pose proof (square_coords f Hf).
        destruct Hdir as [[E Hsd]|[E Hsd]]; rewrite E in *; rewrite Hsd in Hrk;
          cbn in Hrk; [left|right];
          (split; [exact Hsd|]); (split; [lia|]); (split; [lia|]); exact Hempty1.
    + assert (Hcap : exists d, (d = pawn_dir b - 1 \/ d = pawn_dir b + 1) /\
                In m (gen_pawn_capture b co f PAWN [] d)).
      { destruct Hm; eauto. }
      destruct Hcap as (d & Hdd & Hcap).
      apply gen_pawn_capture_In in Hcap; [|assumption].
      destruct Hcap as (Hfr & Hpc & Ht & Hr & Hfile & Hcase & _).
      assert (Hpr : promo m = 0 \/ promo m = QUEEN).
      { destruct Hcase as [(_ & Hpr)|(_ & _ & _ & Hpr & _)]; auto.
        rewrite Hpr. destruct (_ =? _); auto. }
      assert (Hown : forall k, In k kinds ->
                Z.testbit (pieces b (side b) k) (to m) = false).
      { rewrite Ht. destruct Hcase as [(Hocc & _)|(_ & _ & Hep & _)].
        - apply opp_occupied_own_free; auto.
        - intros k Hk. apply (ep_inv_playable b (f + d)); auto. }
      assert (Hne16 : Z.abs (f - (f + d)) <> 16 /\ f <> f + d).
      { destruct Hdir as [[E _]|[E _]]; rewrite E in Hdd; lia. }
      split.
      * apply playable_pawn; auto; rewrite ?Hfr, ?Ht; try tauto.
      * intros _ H16. rewrite Hfr, Ht in H16. tauto.
  - (* castling *)
    apply gen_castling_In in Hm. destruct Hm as [_ Hm].
    destruct Hc as (C0 & C1 & C2 & C3).
    assert (Hblack : side b <> WHITE -> side b = BLACK).
    { intros Hn. destruct Hw as [_ [E|E]]; [contradiction|exact E]. }
    destruct Hm as [(Hsd & -> & Hcb & Hm)|[(Hsd & -> & Hcb & Hm)|
                   [(Hsd & -> & Hcb & Hm)|(Hsd & -> & Hcb & Hm)]]];
      try apply Hblack in Hsd;
      [destruct (C0 Hcb) as [Hrook Hhome]|destruct (C1 Hcb) as [Hrook Hhome]|
       destruct (C2 Hcb) as [Hrook Hhome]|destruct (C3 Hcb) as [Hrook Hhome]];
      rewrite Hsd in Hb; pose proof (Hhome f Hf Hb) as Ef; subst f;
      (split; [|intros E; discriminate E]);
      unfold playable; cbn [from to piece promo Move_new];
      (split; [lia|]); (split; [lia|]); (split; [lia|]);
      (split; [cbn; auto|]); rewrite Hsd; (split; [exact Hb|]);
      (split; [intros k Hk; apply (all_false b _ Ho Ha); cbn; tauto|]);
      (split; [intros E; discriminate E|]); intros _ _.
    + exists 7, 5. split; [reflexivity|]. split; [exact Hrook|].
      split; [apply (all_false b _ Ho Ha); tauto|lia].
    + exists 0, 3. split; [reflexivity|]. split; [exact Hrook|].
      split; [apply (all_false b _ Ho Ha); tauto|lia].
    + exists 63, 61. split; [reflexivity|]. split; [exact Hrook|].
      split; [apply (all_false b _ Ho Ha); tauto|lia].
    + exists 56, 59. split; [reflexivity|]. split; [exact Hrook|].
      split; [apply (all_false b _ Ho Ha); tauto|lia].
  - (* moves from the attack sets *)
    destruct (gen_attacks_target b co f p t Hw Ho Hd Hf Ht Hat)
      as (Hne & Hown & _ & Hking).
    split.
    + apply playable_piece; cbn [from to piece promo Move_new]; auto.
    + intros E. cbn in E. contradiction.
Qed.
End PseudoLegalSound.

Section InvariantKept.
Context {keys : ZobristKeys}.

Lemma all_ok_makeMove b m : all_ok (makeMove b m).
Proof. reflexivity. Qed.

Lemma pieces_off_board b c k sq :
  wf b -> In c sides -> In k kinds -> ~ 0 <= sq < 64 ->
  Z.testbit (pieces b c k) sq = false.
Proof.
  intros [Hp _] Hc Hk Hsq. specialize (Hp c k Hc Hk).
  rewrite in_range_testbit in Hp. destruct Hp as [_ Hp].
  destruct (Z.ltb_spec sq 0); [apply Z.testbit_neg_r; lia|apply Hp; lia].
Qed.

(** [makeMove] keeps the squares singly occupied. *)
Lemma disjoint_makeMove b m :
  wf b -> wf (makeMove b m) -> disjoint_squares b -> playable b m ->
  disjoint_squares (makeMove b m).
Proof.
  intros Hw Hw' Hd Hpl c k c' k' sq Hc Hk Hc' Hk' H1 H2.
  assert (Hsq : 0 <= sq < 64).
  { destruct (Z.leb_spec 0 sq); [destruct (Z.ltb_spec sq 64); [lia|]|];
      rewrite pieces_off_board in H1 by (auto; lia); discriminate. }
  rewrite makeMove_occupant in H1, H2 by assumption.
  unfold occupant_after in H1, H2. cbv zeta in H1, H2.
  repeat match type of H1 with
  | context [if ?c then _ else _] => destruct c eqn:?
  | context [match ?c with _ => _ end] => destruct c as [[[? ?] ?]|] eqn:?
  end; try discriminate;
  repeat match goal with
  | H : _ && _ = true |- _ => apply andb_true_iff in H; destruct H
  | H : (_ =? _) = true |- _ => apply Z.eqb_eq in H
  end; try (split; congruence); eauto.
Qed.

(** [makeMove] sets the en-passant square behind the pawn that made a
    double push, and clears it otherwise. *)
Lemma ep_inv_makeMove b m :
  wf b -> disjoint_squares b -> ep_inv b -> move_ok b m ->
  playable b m -> double_push_facts b m ->
  ep_inv (makeMove b m).
Proof.
  intros Hw Hd He Hok Hpl Hdp.
  destruct (makeMove_fields b m Hw (ep_inv_ep_ok b He) Hok) as (Hw' & _ & E).
  unfold ep_inv. rewrite E, makeMove_side.
  destruct (Z.eqb_spec (piece m) PAWN) as [Hp|Hp]; cbn [andb]; [|auto].
  destruct (Z.eqb_spec (Z.abs (from m - to m)) 16) as [H16|H16]; [|auto].
  destruct (Hdp Hp H16) as (Hpr & Hcase).
  assert (Harr : forall c k sq, In c sides -> In k kinds -> 0 <= sq < 64 ->
            Z.testbit (pieces (makeMove b m) c k) sq =
            if sq =? to m then (c =? side b) && (k =? PAWN)
            else if sq =? from m then false
            else if (to m =? ep b) && (sq =? (if side b =? WHITE then to m - 8 else to m + 8))
                 then false
            else Z.testbit (pieces b c k) sq).
  { intros c k sq Hc Hk Hsq. rewrite makeMove_occupant by assumption.
    unfold occupant_after, castle_rook. cbv zeta. rewrite Hp, Hpr.
    change (PAWN =? PAWN) with true. change (PAWN =? KING) with false.
    change (0 =? 0) with true. cbn [andb negb]. reflexivity. }
  right.
  destruct Hcase as [(Hs & Hr & Ht & Hemp)|(Hs & Hr & Ht & Hemp)];
    rewrite Hs; cbn [Z.eqb Z.sub Z.add Z.opp Z.pos_sub WHITE BLACK];
    [right|left]; (split; [reflexivity|]); (split; [lia|]); split.
  - rewrite Harr by (cbn; auto; lia).
    replace (from m + 8 + 8 =? to m) with true by (symmetry; apply Z.eqb_eq; lia).
    rewrite Hs. reflexivity.
  - intros c k Hc Hk. rewrite Harr by (auto; lia).
    destruct (Z.eqb_spec (from m + 8) (to m)); [lia|].
    destruct (Z.eqb_spec (from m + 8) (from m)); [lia|].
    match goal with |- context [if ?c then _ else _] => destruct c end;
      [reflexivity|apply Hemp; auto].
  - rewrite Harr by (cbn; auto; lia).
    replace (from m - 8 - 8 =? to m) with true by (symmetry; apply Z.eqb_eq; lia).
    rewrite Hs. reflexivity.
  - intros c k Hc Hk. rewrite Harr by (auto; lia).
    destruct (Z.eqb_spec (from m - 8) (to m)); [lia|].
    destruct (Z.eqb_spec (from m - 8) (from m)); [lia|].
    match goal with |- context [if ?c then _ else _] => destruct c end;
      [reflexivity|apply Hemp; auto].
Qed.

Lemma castle_rook_cases m rc rf rt :
  castle_rook m = Some (rc, rf, rt) ->
  piece m = KING /\
  ((rc = WHITE /\ (rf = 7 /\ rt = 5 \/ rf = 0 /\ rt = 3)) \/
   (rc = BLACK /\ (rf = 63 /\ rt = 61 \/ rf = 56 /\ rt = 59))).
Proof.
  unfold castle_rook.
  destruct (Z.eqb_spec (piece m) KING) as [Hk|Hk]; cbn [andb]; [|discriminate].
  destruct (_ =? 2); [|discriminate].
  repeat match goal with
  | |- context [if ?c then _ else _] => destruct c
  end; intros H; inversion H; subst; cbn; tauto.
Qed.

(** A castling right that survives a move keeps its rook and king. *)
Lemma corner_kept b m c corner home :
  wf b -> disjoint_squares b -> ep_inv b -> playable b m ->
  In c sides ->
  (c = WHITE /\ (corner = 0 \/ corner = 7) \/
   c = BLACK /\ (corner = 56 \/ corner = 63)) ->
  from m <> corner -> to m <> corner ->
  (piece m = KING -> side b <> c) ->
  Z.testbit (pieces b c ROOK) corner = true -> king_home b c home ->
  Z.testbit (pieces (makeMove b m) c ROOK) corner = true /\
  king_home (makeMove b m) c home.
Proof.
  intros Hw Hd He Hpl Hc Hcorner Hf Ht Hking Hrook Hhome.
  pose proof Hpl as (_ & Htr & _ & _ & _ & _ & Hpawn & Hcastle).
  assert (Hep : piece m = PAWN -> to m = ep b ->
                24 <= (if side b =? WHITE then to m - 8 else to m + 8) <= 39).
  { intros _ E. destruct He as [He|[(Hs & Hr & _)|(Hs & Hr & _)]];
      [lia|rewrite Hs, E; cbn; lia..]. }
  assert (Hcr : forall rc rf rt, castle_rook m = Some (rc, rf, rt) ->
                rc <> c /\ rf <> corner /\ rt <> corner /\ rc = side b).
  { intros rc rf rt E. destruct (castle_rook_cases m rc rf rt E) as [Hk Hcases].
    assert (H2 : Z.abs (from m - to m) = 2).
    { unfold castle_rook in E. rewrite Hk in E. change (KING =? KING) with true in E.
      cbn [andb] in E. destruct (Z.eqb_spec (Z.abs (from m - to m)) 2); [auto|discriminate]. }
    destruct (Hcastle Hk H2) as (rf' & rt' & E' & _).
    rewrite E in E'. inversion E'. subst.
    specialize (Hking Hk).
    repeat split; auto; intros ->;
      destruct Hcases as [[E1 ?]|[E1 ?]], Hcorner as [[E2 ?]|[E2 ?]];
      try congruence; try lia; rewrite E1 in *; try discriminate. }
  split.
  - rewrite makeMove_occupant by (auto; cbn; auto; lia).
    unfold occupant_after. cbv zeta.
    destruct (Z.eqb_spec corner (to m)); [congruence|].
    destruct (Z.eqb_spec corner (from m)); [congruence|].
    destruct (Z.eqb_spec (piece m) PAWN) as [Hp|Hp]; cbn [andb].
    + destruct (Z.eqb_spec (to m) (ep b)) as [E|E]; cbn [andb].
      * specialize (Hep Hp E).
        destruct (Z.eqb_spec corner (if side b =? WHITE then to m - 8 else to m + 8));
          [lia|].
        replace (castle_rook m) with (@None (Z * Z * Z));
          [exact Hrook|unfold castle_rook; rewrite Hp; reflexivity].
      * replace (castle_rook m) with (@None (Z * Z * Z));
          [exact Hrook|unfold castle_rook; rewrite Hp; reflexivity].
    + destruct (castle_rook m) as [[[rc rf] rt]|] eqn:E; [|exact Hrook].
      destruct (Hcr rc rf rt eq_refl) as (_ & H1 & H2 & _).
      destruct (Z.eqb_spec corner rf); [congruence|].
      destruct (Z.eqb_spec corner rt); [congruence|]. exact Hrook.
  - intros sq Hsq Hb.
    rewrite makeMove_occupant in Hb by (auto; cbn; auto 10).
    unfold occupant_after in Hb. cbv zeta in Hb.
    destruct (Z.eqb_spec sq (to m)).
    { apply andb_true_iff in Hb. destruct Hb as [Hb1 Hb2].
      apply Z.eqb_eq in Hb1, Hb2. exfalso.
      destruct (Z.eqb_spec (piece m) PAWN) as [Hp|Hp]; cbn [andb] in Hb2.
      - destruct (Hpawn Hp) as [[Hpr|Hpr] _]; rewrite Hpr in Hb2;
          cbn in Hb2; rewrite ?Hp in Hb2; discriminate.
      - apply (Hking (eq_sym Hb2)). auto. }
    destruct (sq =? from m); [discriminate|].
    destruct (_ && _ && _); [discriminate|].
    destruct (castle_rook m) as [[[rc rf] rt]|] eqn:E; [|apply Hhome; auto].
    destruct (sq =? rf); [discriminate|].
    destruct (sq =? rt); [|apply Hhome; auto].
    change (KING =? ROOK) with false in Hb. rewrite andb_false_r in Hb.
    discriminate.
Qed.

Lemma castle_inv_makeMove b m :
  wf b -> disjoint_squares b -> ep_inv b -> castle_inv b -> playable b m ->
  castle_inv (makeMove b m).
Proof.
  intros Hw Hd He (C0 & C1 & C2 & C3) Hpl.
  assert (Hbits : forall i, Z.testbit (castle (makeMove b m)) i = true ->
            Z.testbit (castle b) i = true /\
            (piece m = KING -> Z.testbit (if side b =? WHITE then 3 else 12) i = false) /\
            (Z.testbit 2 i = true -> from m <> 0 /\ to m <> 0) /\
            (Z.testbit 1 i = true -> from m <> 7 /\ to m <> 7) /\
            (Z.testbit 8 i = true -> from m <> 56 /\ to m <> 56) /\
            (Z.testbit 4 i = true -> from m <> 63 /\ to m <> 63)).
  { intros i H. rewrite makeMove_castle, new_castle_testbit in H.
    assert (H5 := I).
    repeat (apply andb_true_iff in H; destruct H as [H ?]).
    repeat match goal with
    | H : negb _ = true |- _ => apply negb_true_iff in H
    end.
    split; [exact H|].
    split.
    { intros Hx. rewrite Hx in H4. change (KING =? KING) with true in H4.
      exact H4. }
    clear H5.
    split; [|split; [|split]]; (intros E; split; intros E'; rewrite E' in *;
      rewrite E in *; rewrite ?Z.eqb_refl, ?orb_true_r in *; discriminate). }
  unfold castle_inv.
  split; [|split; [|split]]; intros H; destruct (Hbits _ H) as (H0 & Hk & B2 & B1 & B8 & B4).
  - destruct (C0 H0) as [Hr Hh].
    apply corner_kept; auto; cbn; auto; try (apply B1; reflexivity).
    intros E Hs. specialize (Hk E). rewrite Hs in Hk. discriminate.
  - destruct (C1 H0) as [Hr Hh].
    apply corner_kept; auto; cbn; auto; try (apply B2; reflexivity).
    intros E Hs. specialize (Hk E). rewrite Hs in Hk. discriminate.
  - destruct (C2 H0) as [Hr Hh].
    apply corner_kept; auto; cbn; auto; try (apply B4; reflexivity).
    intros E Hs. specialize (Hk E). rewrite Hs in Hk. discriminate.
  - destruct (C3 H0) as [Hr Hh].
    apply corner_kept; auto; cbn; auto; try (apply B8; reflexivity).
    intros E Hs. specialize (Hk E). rewrite Hs in Hk. discriminate.
Qed.
End InvariantKept.

Section ReachableInvariant.
Context {keys : ZobristKeys}.

Lemma init_squares_checked : init_squares_check = true.
Proof. vm_compute. reflexivity. Qed.

Lemma disjoint_init : disjoint_squares Board_init.
Proof.
  intros c k c' k' sq Hc Hk Hc' Hk' H1 H2.
  assert (Hsq : 0 <= sq < 64).
  { destruct (Z.leb_spec 0 sq); [destruct (Z.ltb_spec sq 64); [lia|]|];
      rewrite pieces_off_board in H1 by (auto; try lia; apply coherent_init);
      discriminate. }
  change (pieces Board_init) with (pieces start_board) in H1, H2.
  pose proof init_squares_checked as H. unfold init_squares_check in H.
  rewrite forallb_forall in H. specialize (H sq (proj2 (squares_In sq) Hsq)).
  rewrite forallb_forall in H. specialize (H c Hc).
  rewrite forallb_forall in H. specialize (H k Hk).
  rewrite forallb_forall in H. specialize (H c' Hc').
  rewrite forallb_forall in H. specialize (H k' Hk').
  cbv beta in H. rewrite H1, H2 in H. cbn [negb orb] in H.
  apply andb_true_iff in H. destruct H as [E1 E2].
  apply Z.eqb_eq in E1, E2. auto.
Qed.

Lemma king_home_init_white : king_home Board_init WHITE 4.
Proof.
  intros sq Hsq H. change (pieces Board_init WHITE KING) with 0x10 in H.
  change 0x10 with (U64.bit 4) in H. rewrite bit_testbit in H by lia.
  apply Z.eqb_eq in H. auto.
Qed.

Lemma king_home_init_black : king_home Board_init BLACK 60.
Proof.
  intros sq Hsq H. change (pieces Board_init BLACK KING) with (U64.bit 60) in H.
  rewrite bit_testbit in H by lia.
  apply Z.eqb_eq in H. auto.
Qed.

Lemma consistent_init : consistent Board_init.
Proof.
  destruct coherent_init as (Hw & Ho & _ & _).
  split; [exact Hw|]. split; [exact Ho|].
  split; [reflexivity|]. split; [exact disjoint_init|].
  split; [left; reflexivity|].
  repeat split; auto using king_home_init_white, king_home_init_black.
Qed.

(** A pseudo-legal move keeps the invariant. *)
Lemma consistent_pseudo b co m :
  consistent b -> In m (pseudoMoves b co) -> consistent (makeMove b m).
Proof.
  intros Hc Hm. destruct (pseudo_sound b co m Hc Hm) as [Hpl Hdp].
  destruct Hc as (Hw & Ho & Ha & Hd & He & Hc).
  pose proof (pseudoMoves_ok b co Hw Ho) as Hall.
  rewrite Forall_forall in Hall. specialize (Hall m Hm).
  destruct (makeMove_fields b m Hw (ep_inv_ep_ok b He) Hall) as (Hw' & Ho' & _).
  split; [exact Hw'|]. split; [exact Ho'|].
  split; [apply all_ok_makeMove|].
  split; [apply disjoint_makeMove; auto|].
  split; [apply ep_inv_makeMove; auto|apply castle_inv_makeMove; auto].
Qed.

(** The invariant holds on every position of a game. *)
Lemma reachable_consistent b : reachable b -> consistent b.
Proof.
  induction 1 as [|b m co Hr IH].
  - apply consistent_init.
  - apply generateMoves_In in H. destruct H as [Hm _].
    eapply consistent_pseudo; eauto.
Qed.
End ReachableInvariant.

Section DisjointWords.
Context {keys : ZobristKeys}.

Lemma disjoint_land b c k c' k' :
  wf b -> disjoint_squares b ->
  In c sides -> In k kinds -> In c' sides -> In k' kinds ->
  (c <> c' \/ k <> k') ->
  Z.land (pieces b c k) (pieces b c' k') = 0.
Proof.
  intros Hw Hd Hc Hk Hc' Hk' Hne. apply Z.bits_inj'. intros i Hi.
  rewrite Z.land_spec, Z.bits_0.
  destruct (Z.testbit (pieces b c k) i) eqn:E1; [|reflexivity].
  destruct (Z.testbit (pieces b c' k') i) eqn:E2; [|reflexivity].
  destruct (Hd _ _ _ _ i Hc Hk Hc' Hk' E1 E2). tauto.
Qed.

(** The invariant in the boolean form [evaluate] is bounded under. *)
Lemma consistent_disjoint_pieces b :
  wf b -> disjoint_squares b ->
  pieces_in_range b = true /\ disjoint_pieces b = true.
Proof.
  intros Hw Hd. split.
  - unfold pieces_in_range. apply forallb_forall. intros x Hx.
    unfold all_pieces in Hx. apply in_flat_map in Hx.
    destruct Hx as (c & Hc & Hx). apply in_map_iff in Hx.
    destruct Hx as (k & <- & Hk).
    destruct (proj1 Hw c k Hc Hk). apply andb_true_iff. split.
    + apply Z.leb_le. lia.
    + apply Z.ltb_lt. assumption.
  - unfold disjoint_pieces, all_pieces.
    cbn [flat_map map app sides kinds pairwise_disjoint forallb].
    rewrite !(disjoint_land b) by
      (auto; cbn; auto 10; first [left; discriminate|right; discriminate]).
    reflexivity.
Qed.
End DisjointWords.

Section CapturesOnly.
Context {keys : ZobristKeys}.

Lemma gen_pawn_In_iff b co f m :
  In m (gen_pawn b co f PAWN []) <->
  (co = false /\ In m (gen_pawn_push b f PAWN [])) \/
  In m (gen_pawn_capture b co f PAWN [] (pawn_dir b - 1)) \/
  In m (gen_pawn_capture b co f PAWN [] (pawn_dir b + 1)).
Proof.
  unfold gen_pawn, pawn_dir. cbv zeta. cbn [fold_left].
  set (dir := if side b =? WHITE then 8 else -8).
  rewrite (gen_pawn_capture_app b co f PAWN _ (dir + 1)).
  rewrite (gen_pawn_capture_app b co f PAWN _ (dir - 1)).
  rewrite !in_app_iff.
  destruct co; cbn [negb]; cbn [In]; intuition discriminate.
Qed.

Lemma gen_pawn_capture_mode b f d m :
  0 <= f < 64 ->
  In m (gen_pawn_capture b true f PAWN [] d) ->
  In m (gen_pawn_capture b false f PAWN [] d) /\
  Z.testbit (occupied b (1 - side b)) (to m) = true.
Proof.
  intros Hf H. pose proof H as H'.
  apply gen_pawn_capture_In in H'; [|assumption].
  destruct H' as (_ & _ & Ht & Hr & _ & [(Hocc & _)|(_ & Hco & _)] & _);
    [|discriminate].
  split; [|rewrite Ht; exact Hocc].
  unfold gen_pawn_capture in *. cbv zeta in *.
  destruct (_ || _); [exact H|].
  rewrite meets_bit in * by lia. rewrite Hocc in *. exact H.
Qed.

Lemma gen_attacks_mode b f p t :
  wf b -> occ_ok b -> disjoint_squares b -> 0 <= t < 64 ->
  Z.testbit (gen_attacks b true f p) t = true ->
  Z.testbit (gen_attacks b false f p) t = true /\
  Z.testbit (occupied b (1 - side b)) t = true.
Proof.
  intros Hw Ho Hd Ht H. unfold gen_attacks in *. cbv zeta in *.
  rewrite Z.land_spec in *. apply andb_true_iff in H. destruct H as [H1 H2].
  split; [|exact H2]. rewrite H1, lnot_testbit by lia. cbn [andb].
  apply negb_true_iff.
  rewrite occupied_testbit by (auto; apply wf_side_In, Hw).
  destruct (existsb _ kinds) eqn:E; [|reflexivity].
  apply existsb_exists in E. destruct E as (k & Hk & E).
  rewrite (opp_occupied_own_free b t Hw Ho Hd H2 k Hk) in E. discriminate.
Qed.

(** The captures-only mode returns moves of the full mode, onto pieces of
    the opponent. *)
Lemma pseudo_captures b m :
  wf b -> occ_ok b -> disjoint_squares b ->
  In m (pseudoMoves b true) ->
  In m (pseudoMoves b false) /\
  Z.testbit (occupied b (1 - side b)) (to m) = true.
Proof.
  intros Hw Ho Hd Hm.
  apply pseudoMoves_In in Hm; [|assumption..].
  destruct Hm as (p & f & Hp & Hf & Hb & Hm).
  apply gen_piece_In in Hm; [|assumption..].
  assert (Hback : forall m', In m' (gen_piece b false p f []) ->
                  In m' (pseudoMoves b false)).
  { intros m' H'. apply pseudoMoves_In; auto. exists p, f. auto. }
  destruct Hm as [[-> Hm]|[Hnp [(_ & Hco & _)|(t & Ht & Hat & ->)]]];
    [|discriminate|].
  - apply gen_pawn_In_iff in Hm.
    destruct Hm as [[Hco _]|Hm]; [discriminate|].
    assert (Hcap : exists d, (d = pawn_dir b - 1 \/ d = pawn_dir b + 1) /\
                In m (gen_pawn_capture b true f PAWN [] d)).
    { destruct Hm; eauto. }
    destruct Hcap as (d & Hdd & Hcap).
    destruct (gen_pawn_capture_mode b f d m Hf Hcap) as [H1 H2].
    split; [|exact H2]. apply Hback. apply gen_piece_In; auto.
    left. split; [reflexivity|]. apply gen_pawn_In_iff. right.
    destruct Hdd as [-> | ->]; auto.
  - destruct (gen_attacks_mode b f p t Hw Ho Hd Ht Hat) as [H1 H2].
    split; [|exact H2]. apply Hback. apply gen_piece_In; auto.
    right. split; [exact Hnp|]. right. exists t. auto.
Qed.

Lemma quot8_range x r : 8 * r <= x < 8 * r + 8 -> 0 <= x -> Z.quot x 8 = r.
Proof.
  intros H H0. rewrite Z.quot_div_nonneg by lia. symmetry.
  apply (Z.div_unique x 8 r (x - 8 * r)); lia.
Qed.

(** The promotion field of a pseudo-legal move. *)
Lemma pseudo_promo b co m :
  consistent b -> In m (pseudoMoves b co) ->
  promo m = if (piece m =? PAWN) && (Z.quot (to m) 8 =? promo_rank b)
            then QUEEN else 0.
Proof.
  intros (Hw & Ho & Ha & Hd & He & Hc) Hm.
  apply pseudoMoves_In in Hm; [|assumption..].
  destruct Hm as (p & f & Hp & Hf & Hb & Hm).
  apply gen_piece_In in Hm; [|assumption..].
  assert (Hdir : pawn_dir b = 8 /\ side b = WHITE \/ pawn_dir b = -8 /\ side b = BLACK).
  { unfold pawn_dir. destruct Hw as [_ [E|E]]; rewrite E; cbn; auto. }
  destruct Hm as [[-> Hm]|[Hnp [(-> & -> & Hm)|(t & Ht & Hat & ->)]]].
  - apply gen_pawn_In in Hm. destruct Hm as [[-> Hm]|Hm].
    + apply gen_pawn_push_In in Hm; [|assumption].
      destruct Hm as (Hfr & -> & _ & Hr1 & _ & [(Ht & Hpr)|(Ht & Hpr & Hrk & _)]).
      * exact Hpr.
      * change (PAWN =? PAWN) with true. cbn [andb].
        pose proof (square_coords f Hf).
        assert (Z.quot (to m) 8 <> promo_rank b).
        { rewrite Ht. unfold promo_rank.
          destruct Hdir as [[-> Hsd]|[-> Hsd]]; rewrite Hsd in *; cbn in Hrk |- *.
          - rewrite (quot8_range (f + 16) 3) by lia. lia.
          - rewrite (quot8_range (f + -16) 4) by lia. lia. }
        destruct (Z.eqb_spec (Z.quot (to m) 8) (promo_rank b)); [contradiction|].
        exact Hpr.
    + assert (Hcap : exists d, In m (gen_pawn_capture b co f PAWN [] d)).
      { destruct Hm; eauto. }
      destruct Hcap as (d & Hcap).
      apply gen_pawn_capture_In in Hcap; [|assumption].
      destruct Hcap as (Hfr & -> & Ht & Hr & Hfile &
                        [(_ & Hpr)|(_ & _ & Hep & Hpr & _)] & _).
      * exact Hpr.
      * change (PAWN =? PAWN) with true. cbn [andb].
        assert (Z.quot (to m) 8 <> promo_rank b).
        { rewrite Ht, Hep. unfold promo_rank.
          destruct He as [He|[(Hs & Hrg & _)|(Hs & Hrg & _)]]; [lia| |];
            rewrite Hs; cbn.
          - rewrite (quot8_range (ep b) 5) by lia. lia.
          - rewrite (quot8_range (ep b) 2) by lia. lia. }
        destruct (Z.eqb_spec (Z.quot (to m) 8) (promo_rank b)); [contradiction|].
        exact Hpr.
  - apply gen_castling_In in Hm. destruct Hm as [_ Hm].
    destruct Hm as [(_ & -> & _)|[(_ & -> & _)|[(_ & -> & _)|(_ & -> & _)]]];
      reflexivity.
  - cbn [promo piece Move_new].
    destruct (Z.eqb_spec p PAWN); [contradiction|reflexivity].
Qed.
End CapturesOnly.

(* ================================================================== *)
(** ** Attacks, kings and legality *)

Section Attackers.
Context {keys : ZobristKeys}.

(** Two words meet when they share a bit. *)
Lemma meets_exists x y :
  0 <= y ->
  meets x y = true <-> exists i, 0 <= i /\ Z.testbit x i = true /\ Z.testbit y i = true.
Proof.
  intros Hy. unfold meets. rewrite negb_true_iff, Z.eqb_neq. split.
  - intros Hne.
    assert (Hpos : 0 < Z.land x y).
    { assert (0 <= Z.land x y) by (apply Z.land_nonneg; auto). lia. }
    exists (Z.log2 (Z.land x y)). split; [apply Z.log2_nonneg|].
    pose proof (Z.bit_log2 _ Hpos) as E. rewrite Z.land_spec in E.
    apply andb_true_iff in E. exact E.
  - intros (i & Hi & H1 & H2) E.
    assert (E' : Z.testbit (Z.land x y) i = false) by (rewrite E; apply Z.bits_0).
    rewrite Z.land_spec, H1, H2 in E'. discriminate.
Qed.

Lemma tables_symmetric_check :
  forallb (fun s => forallb (fun t =>
      Bool.eqb (Z.testbit (KingMoves t) s) (Z.testbit (KingMoves s) t) &&
      Bool.eqb (Z.testbit (KnightMoves t) s) (Z.testbit (KnightMoves s) t))
    U64.squares) U64.squares = true.
Proof. vm_compute. reflexivity. Qed.

Lemma tables_symmetric s t :
  0 <= s < 64 -> 0 <= t < 64 ->
  Z.testbit (KingMoves t) s = Z.testbit (KingMoves s) t /\
  Z.testbit (KnightMoves t) s = Z.testbit (KnightMoves s) t.
Proof.
  intros Hs Ht. pose proof tables_symmetric_check as H.
  rewrite forallb_forall in H. specialize (H s (proj2 (squares_In s) Hs)).
  rewrite forallb_forall in H. specialize (H t (proj2 (squares_In t) Ht)).
  apply andb_true_iff in H. destruct H as [H1 H2].
  apply Bool.eqb_prop in H1, H2. auto.
Qed.

Lemma gen_attacks_testbit b co f p t :
  0 <= t < 64 ->
  Z.testbit (gen_attacks b co f p) t =
  Z.testbit (piece_attacks b p f) t &&
  (if co then Z.testbit (occupied b (1 - side b)) t
   else negb (Z.testbit (occupied b (side b)) t)).
Proof.
  intros Ht. unfold gen_attacks, piece_attacks. cbv zeta.
  destruct co; rewrite Z.land_spec, ?lnot_testbit by lia; reflexivity.
Qed.

Ltac kind_tests :=
  repeat match goal with
  | |- context [?a =? ?b] =>
      let v := eval vm_compute in (a =? b) in change (a =? b) with v
  end; cbv iota.

Ltac kind_tests_in H :=
  repeat match type of H with
  | context [?a =? ?b] =>
      let v := eval vm_compute in (a =? b) in change (a =? b) with v in H
  end; cbv iota in H.

Lemma meets_bit_l x s : 0 <= s -> meets (U64.bit s) x = Z.testbit x s.
Proof. intros Hs. unfold meets. rewrite Z.land_comm. apply meets_bit. exact Hs. Qed.

(** [is_attacked] finds an attacker exactly when there is one. *)
Lemma is_attacked_attacker b att sq :
  wf b -> In att sides -> 0 <= sq < 64 ->
  is_attacked sq att b = true <->
  exists f p, 0 <= f < 64 /\ In p kinds /\ attacker_on b att sq f p.
Proof.
  intros Hw Hatt Hsq.
  assert (Hnn : forall p, In p kinds -> 0 <= pieces b att p).
  { intros p Hp. apply (proj1 Hw att p Hatt Hp). }
  assert (Hin : forall p f, In p kinds -> Z.testbit (pieces b att p) f = true ->
                0 <= f < 64).
  { intros p f Hp Hb. destruct (Z.leb_spec 0 f); [destruct (Z.ltb_spec f 64); [lia|]|];
      rewrite pieces_off_board in Hb by (auto; lia); discriminate. }
  assert (Hq : 0 <= Z.lor (pieces b att ROOK) (pieces b att QUEEN)).
  { apply Z.lor_nonneg. split; apply Hnn; cbn; auto 10. }
  assert (Hq' : 0 <= Z.lor (pieces b att BISHOP) (pieces b att QUEEN)).
  { apply Z.lor_nonneg. split; apply Hnn; cbn; auto 10. }
  unfold is_attacked. rewrite !orb_true_iff.
  rewrite !meets_exists by (auto; apply Hnn; cbn; auto 10).
  split.
  - intros [[[[Hp|Hn]|Hk]|Hr]|Hb].
    + assert (Hside : att = WHITE \/ att = BLACK) by (destruct Hatt as [E|[E|[]]]; auto).
      destruct Hside as [Ha|Ha]; subst att; cbn [Z.eqb WHITE BLACK] in Hp;
        apply orb_true_iff in Hp; destruct Hp as [Hp|Hp];
        apply andb_true_iff in Hp; destruct Hp as [Hp Hm];
        apply andb_true_iff in Hp; destruct Hp as [Hp Hf];
        apply negb_true_iff, Z.eqb_neq in Hf;
        rewrite meets_bit_l in Hm by lia;
        [exists (sq - 9)|exists (sq - 7)|exists (sq + 7)|exists (sq + 9)];
        exists PAWN; (split; [exact (Hin PAWN _ ltac:(cbn; auto) Hm)|]);
        (split; [cbn; auto|]); (split; [exact Hm|]); left; (split; [reflexivity|]);
        [left|left|right|right];
        (split; [first [reflexivity|discriminate]|]); auto.
    + destruct Hn as (f & Hf & H1 & H2). exists f, KNIGHT.
      split; [exact (Hin KNIGHT _ ltac:(cbn; auto) H2)|]. split; [cbn; auto|].
      split; [exact H2|]. right. split; [discriminate|exact H1].
    + destruct Hk as (f & Hf & H1 & H2). exists f, KING.
      split; [exact (Hin KING _ ltac:(cbn; auto 10) H2)|]. split; [cbn; auto 10|].
      split; [exact H2|]. right. split; [discriminate|exact H1].
    + destruct Hr as (f & Hf & H1 & H2). rewrite Z.lor_spec in H2.
      apply orb_true_iff in H2. destruct H2 as [H2|H2].
      * exists f, ROOK.
        split; [exact (Hin ROOK _ ltac:(cbn; auto 10) H2)|]. split; [cbn; auto 10|].
        split; [exact H2|]. right. split; [discriminate|exact H1].
      * exists f, QUEEN.
        split; [exact (Hin QUEEN _ ltac:(cbn; auto 10) H2)|]. split; [cbn; auto 10|].
        split; [exact H2|]. right. split; [discriminate|].
        unfold piece_attacks. kind_tests.
        rewrite Z.lor_spec, H1. reflexivity.
    + destruct Hb as (f & Hf & H1 & H2). rewrite Z.lor_spec in H2.
      apply orb_true_iff in H2. destruct H2 as [H2|H2].
      * exists f, BISHOP.
        split; [exact (Hin BISHOP _ ltac:(cbn; auto 10) H2)|]. split; [cbn; auto 10|].
        split; [exact H2|]. right. split; [discriminate|exact H1].
      * exists f, QUEEN.
        split; [exact (Hin QUEEN _ ltac:(cbn; auto 10) H2)|]. split; [cbn; auto 10|].
        split; [exact H2|]. right. split; [discriminate|].
        unfold piece_attacks. kind_tests.
        rewrite Z.lor_spec, H1. apply orb_true_r.
  - intros (f & p & Hf & Hp & Hb & Hcase).
    destruct Hcase as [(-> & Hpawn)|(Hnp & Hatk)].
    + left. left. left. left.
      destruct Hpawn as [(-> & Hc)|(Ha & Hc)].
      * change (WHITE =? WHITE) with true. cbv iota.
        destruct Hc as [(-> & Hr)|(-> & Hr)]; apply orb_true_iff; [left|right];
          rewrite meets_bit_l, Hb by lia; rewrite andb_true_r;
          apply andb_true_iff; (split; [apply Z.geb_le; lia|]);
          apply negb_true_iff, Z.eqb_neq; exact Hr.
      * assert (att = BLACK) by (cbn in Hatt; destruct Hatt as [E|[E|[]]]; congruence).
        subst att. change (BLACK =? WHITE) with false. cbv iota.
        destruct Hc as [(-> & Hr)|(-> & Hr)]; apply orb_true_iff; [left|right];
          rewrite meets_bit_l, Hb by lia; rewrite andb_true_r;
          apply andb_true_iff; (split; [apply Z.leb_le; lia|]);
          apply negb_true_iff, Z.eqb_neq; exact Hr.
    + unfold piece_attacks in Hatk. cbn [In kinds] in Hp.
      destruct Hp as [<-|[<-|[<-|[<-|[<-|[<-|[]]]]]]]; [contradiction|..];
        kind_tests_in Hatk.
      * left. left. left. right. exists f. repeat split; auto; lia.
      * right. exists f. rewrite Z.lor_spec, Hb. repeat split; auto; lia.
      * left. right. exists f. rewrite Z.lor_spec, Hb. repeat split; auto; lia.
      * rewrite Z.lor_spec in Hatk. apply orb_true_iff in Hatk.
        destruct Hatk as [Hatk|Hatk]; [left; right|right]; exists f;
          rewrite Z.lor_spec, Hb, orb_true_r; repeat split; auto; lia.
      * left. left. right. exists f. repeat split; auto; lia.
Qed.
End Attackers.

Section AttackersAndCaptures.
Context {keys : ZobristKeys}.

(** Attack sets are symmetric. *)
Lemma piece_attacks_sym b p f t :
  0 <= f < 64 -> 0 <= t < 64 ->
  Z.testbit (piece_attacks b p f) t = true ->
  Z.testbit (piece_attacks b p t) f = true.
Proof.
  intros Hf Ht. unfold piece_attacks.
  destruct (tables_symmetric f t Hf Ht) as [Hk Hn].
  repeat match goal with
  | |- context [if ?c then _ else _] => destruct c
  end; rewrite ?Z.lor_spec, ?orb_true_iff; intros H;
  auto using rook_attacks_sym, bishop_attacks_sym; try congruence;
  try (rewrite Z.bits_0 in H; discriminate H).
  destruct H as [H|H]; [left|right]; auto using rook_attacks_sym, bishop_attacks_sym.
Qed.

Lemma pawn_file_check :
  forallb (fun f => forallb (fun d =>
      negb ((0 <=? f + d) && (f + d <? 64))
      || Bool.eqb (Z.abs (Z.rem f 8 - Z.rem (f + d) 8) <=? 1)
                  (negb (Z.rem (f + d) 8 =? file_test d)))
    [7; 9; -7; -9]) U64.squares = true.
Proof. vm_compute. reflexivity. Qed.

(** The file test of the pawn captures, as [is_attacked] writes it. *)
Lemma pawn_file f d :
  0 <= f < 64 -> 0 <= f + d < 64 -> In d [7; 9; -7; -9] ->
  Z.abs (Z.rem f 8 - Z.rem (f + d) 8) <= 1 <-> Z.rem (f + d) 8 <> file_test d.
Proof.
  intros Hf Ht Hd. pose proof pawn_file_check as H.
  rewrite forallb_forall in H. specialize (H f (proj2 (squares_In f) Hf)).
  rewrite forallb_forall in H. specialize (H d Hd). cbv beta in H.
  replace ((0 <=? f + d) && (f + d <? 64)) with true in H
    by (symmetry; apply andb_true_iff; split; [apply Z.leb_le|apply Z.ltb_lt]; lia).
  cbn [negb orb] in H. apply Bool.eqb_prop in H.
  rewrite <- Z.leb_le, H, negb_true_iff, Z.eqb_neq. tauto.
Qed.

Lemma gen_pawn_capture_intro b co f d :
  0 <= f + d < 64 ->
  Z.abs (Z.rem f 8 - Z.rem (f + d) 8) <= 1 ->
  Z.testbit (occupied b (1 - side b)) (f + d) = true ->
  exists m, In m (gen_pawn_capture b co f PAWN [] d) /\
            from m = f /\ to m = f + d /\ piece m = PAWN.
Proof.
  intros Ht Hfile Hocc. unfold gen_pawn_capture. cbv zeta.
  replace (f + d <? 0) with false by (symmetry; apply Z.ltb_ge; lia).
  replace (f + d >? 63) with false by (symmetry; rewrite Z.gtb_ltb; apply Z.ltb_ge; lia).
  replace (Z.abs (Z.rem f 8 - Z.rem (f + d) 8) >? 1) with false
    by (symmetry; rewrite Z.gtb_ltb; apply Z.ltb_ge; lia).
  cbn [orb]. rewrite meets_bit, Hocc by lia.
  destruct (_ =? _); unfold push_back; cbn [app];
    eexists; (split; [left; reflexivity|]); auto.
Qed.

Lemma occ_all b c sq :
  all_ok b -> In c sides ->
  Z.testbit (occupied b c) sq = true -> Z.testbit (all b) sq = true.
Proof.
  intros Ha Hc H. rewrite Ha, Z.lor_spec.
  destruct Hc as [<-|[<-|[]]]; rewrite H; auto using orb_true_r.
Qed.

(** A pseudo-legal move onto a square the opponent holds is an attack in
    the sense of [is_attacked]. *)
Lemma capture_attacker b co m :
  consistent b -> In m (pseudoMoves b co) ->
  Z.testbit (occupied b (1 - side b)) (to m) = true ->
  attacker_on b (side b) (to m) (from m) (piece m).
Proof.
  intros (Hw & Ho & Ha & Hd & He & Hc) Hm Hocc.
  destruct (wf_side_In b Hw) as [Hs Hop].
  pose proof (occ_all b _ _ Ha Hop Hocc) as Hall.
  apply pseudoMoves_In in Hm; [|assumption..].
  destruct Hm as (p & f & Hp & Hf & Hb & Hm).
  apply gen_piece_In in Hm; [|assumption..].
  assert (Hdir : pawn_dir b = 8 /\ side b = WHITE \/ pawn_dir b = -8 /\ side b = BLACK).
  { unfold pawn_dir. destruct Hw as [_ [E|E]]; rewrite E; cbn; auto. }
  destruct Hm as [[-> Hm]|[Hnp [(-> & -> & Hm)|(t & Ht & Hat & ->)]]].
  - apply gen_pawn_In in Hm. destruct Hm as [[-> Hm]|Hm].
    + apply gen_pawn_push_In in Hm; [|assumption].
      destruct Hm as (Hfr & Hpc & _ & Hr1 & He1 & [(Ht & _)|(Ht & _ & _ & He2)]);
        rewrite Ht in Hall; congruence.
    + assert (Hcap : exists d, (d = pawn_dir b - 1 \/ d = pawn_dir b + 1) /\
                In m (gen_pawn_capture b co f PAWN [] d)).
      { destruct Hm; eauto. }
      destruct Hcap as (d & Hdd & Hcap).
      apply gen_pawn_capture_In in Hcap; [|assumption].
      destruct Hcap as (Hfr & Hpc & Ht & Hr & Hfile & _).
      rewrite Hfr, Hpc, Ht. split; [exact Hb|]. left. split; [reflexivity|].
      assert (Hd4 : In d [7; 9; -7; -9]).
      { destruct Hdir as [[E _]|[E _]]; rewrite E in Hdd; cbn; lia. }
      apply (pawn_file f d Hf Hr Hd4) in Hfile.
      destruct Hdir as [[E Hsd]|[E Hsd]]; rewrite E in Hdd; rewrite Hsd;
        [left; split; [reflexivity|]|right; split; [discriminate|]];
        destruct Hdd as [-> | ->]; cbn in Hfile; [right|left|right|left];
        (split; [lia|exact Hfile]).
  - apply gen_castling_In in Hm. destruct Hm as [_ Hm].
    destruct Hm as [(_ & -> & _ & Hm)|[(_ & -> & _ & Hm)|
                   [(_ & -> & _ & Hm)|(_ & -> & _ & Hm)]]];
      cbn [to Move_new] in Hall; exfalso; intuition congruence.
  - cbn [from to piece Move_new] in *. split; [exact Hb|]. right.
    split; [exact Hnp|].
    rewrite gen_attacks_testbit in Hat by lia.
    apply andb_true_iff in Hat. destruct Hat as [Hat _].
    apply piece_attacks_sym; auto.
Qed.

(** An attacker in the sense of [is_attacked], of a square the opponent
    holds, has a pseudo-legal capture onto it. *)
Lemma attacker_capture b sq f p :
  consistent b -> 0 <= sq < 64 -> 0 <= f < 64 -> In p kinds ->
  Z.testbit (occupied b (1 - side b)) sq = true ->
  attacker_on b (side b) sq f p ->
  exists m, In m (pseudoMoves b true) /\
            from m = f /\ to m = sq /\ piece m = p.
Proof.
  intros (Hw & Ho & Ha & Hd & He & Hc) Hsq Hf Hp Hocc [Hb Hcase].
  assert (Hdir : pawn_dir b = 8 /\ side b = WHITE \/ pawn_dir b = -8 /\ side b = BLACK).
  { unfold pawn_dir. destruct Hw as [_ [E|E]]; rewrite E; cbn; auto. }
  destruct Hcase as [(-> & Hpawn)|(Hnp & Hatk)].
  - assert (Hd' : exists d, (d = pawn_dir b - 1 \/ d = pawn_dir b + 1) /\
                  sq = f + d /\ Z.rem (f + d) 8 <> file_test d /\
                  In d [7; 9; -7; -9]).
    { destruct Hdir as [[E Hsd]|[E Hsd]]; rewrite E;
        destruct Hpawn as [(Hs & Hc')|(Hs & Hc')];
        try (rewrite Hsd in Hs; first [discriminate Hs|contradiction Hs; reflexivity]);
        destruct Hc' as [(Ef & Hr)|(Ef & Hr)].
      - exists 9. replace (f + 9) with sq by lia. cbn. repeat split; auto; lia.
      - exists 7. replace (f + 7) with sq by lia. cbn. repeat split; auto; lia.
      - exists (-7). replace (f + -7) with sq by lia. cbn. repeat split; auto; lia.
      - exists (-9). replace (f + -9) with sq by lia. cbn. repeat split; auto; lia. }
    destruct Hd' as (d & Hdd & -> & Hfile & Hd4).
    apply (pawn_file f d Hf Hsq Hd4) in Hfile.
    destruct (gen_pawn_capture_intro b true f d Hsq Hfile Hocc)
      as (m & Hm & Hfr & Ht & Hpc).
    exists m. split; [|auto].
    apply pseudoMoves_In; auto. exists PAWN, f.
    split; [cbn; auto|]. split; [exact Hf|]. split; [exact Hb|].
    apply gen_piece_In; auto. left. split; [reflexivity|].
    apply gen_pawn_In_iff. right. destruct Hdd as [-> | ->]; auto.
  - exists (Move_new f sq p (-1) 0). split; [|auto].
    apply pseudoMoves_In; auto. exists p, f.
    split; [exact Hp|]. split; [exact Hf|]. split; [exact Hb|].
    apply gen_piece_In; auto. right. split; [exact Hnp|]. right.
    exists sq. split; [exact Hsq|]. split; [|reflexivity].
    rewrite gen_attacks_testbit, Hocc by lia. rewrite andb_true_r.
    apply piece_attacks_sym; auto.
Qed.

(** [is_attacked] and the captures of the generator agree. *)
Lemma attacked_capture_iff b sq :
  consistent b -> 0 <= sq < 64 ->
  Z.testbit (occupied b (1 - side b)) sq = true ->
  is_attacked sq (side b) b = true <->
  exists m, In m (pseudoMoves b true) /\ to m = sq.
Proof.
  intros Hc Hsq Hocc. pose proof Hc as (Hw & Ho & _).
  destruct (wf_side_In b Hw) as [Hs Hop].
  rewrite is_attacked_attacker by assumption. split.
  - intros (f & p & Hf & Hp & Hatt).
    destruct (attacker_capture b sq f p Hc Hsq Hf Hp Hocc Hatt) as (m & Hm & _ & Ht & _).
    exists m. auto.
  - intros (m & Hm & <-).
    pose proof (pseudoMoves_ok b true Hw Ho) as Hall.
    rewrite Forall_forall in Hall. destruct (Hall m Hm) as (Hf & _ & _ & Hk & _).
    exists (from m), (piece m). split; [exact Hf|]. split; [exact Hk|].
    eapply capture_attacker; eauto.
Qed.
End AttackersAndCaptures.

Section Kings.
Context {keys : ZobristKeys}.

Lemma king_at_bit b c h :
  wf b -> In c sides -> king_at b c h -> pieces b c KING = U64.bit h.
Proof.
  intros Hw Hc [Hh Hk]. apply Z.bits_inj'. intros i Hi.
  rewrite bit_testbit by lia.
  destruct (Z.ltb_spec i 64).
  - rewrite Hk by lia. apply Z.eqb_sym.
  - rewrite pieces_off_board by (auto; cbn; auto 10; lia).
    symmetry. apply Z.eqb_neq. lia.
Qed.

Lemma ctzll_bit h : 0 <= h < 64 -> U64.ctzll (U64.bit h) = h.
Proof.
  intros Hh.
  assert (Hr : U64.in_range (U64.bit h)).
  { apply in_range_testbit. split.
    - unfold U64.bit. rewrite Z.shiftl_1_l. apply Z.pow_nonneg. lia.
    - intros i Hi. rewrite bit_testbit by lia. apply Z.eqb_neq. lia. }
  assert (Hnz : U64.bit h <> 0).
  { intros E. assert (E' : Z.testbit (U64.bit h) h = false) by (rewrite E; apply Z.bits_0).
    rewrite bit_testbit, Z.eqb_refl in E' by lia. discriminate. }
  destruct (in_range_nonzero_ctz _ Hr Hnz) as (_ & H & _).
  rewrite bit_testbit in H by lia. apply Z.eqb_eq in H. auto.
Qed.

Lemma kings_ok_init : kings_ok Board_init.
Proof.
  exists 4, 60.
  split; [split; [cbn; lia|]|split; [split; [cbn; lia|]|]].
  - intros sq Hsq. change (pieces Board_init (side Board_init) KING) with (U64.bit 4).
    rewrite bit_testbit by lia. apply Z.eqb_sym.
  - intros sq Hsq. change (pieces Board_init (1 - side Board_init) KING) with (U64.bit 60).
    rewrite bit_testbit by lia. apply Z.eqb_sym.
  - change (is_attacked 60 (side Board_init) Board_init)
      with (is_attacked 60 WHITE start_board).
    vm_compute. reflexivity.
Qed.

(** Where the kings stand after a pseudo-legal move. *)
Lemma kings_after b co m hs ho :
  consistent b -> king_at b (side b) hs -> king_at b (1 - side b) ho ->
  is_attacked ho (side b) b = false -> In m (pseudoMoves b co) ->
  king_at (makeMove b m) (side b) (if piece m =? KING then to m else hs) /\
  king_at (makeMove b m) (1 - side b) ho.
Proof.
  intros Hc [Hhs Hks] [Hho Hko] Hsafe Hm.
  destruct (pseudo_sound b co m Hc Hm) as [Hpl _].
  pose proof Hc as (Hw & Ho & Ha & Hd & He & _).
  destruct (wf_side_In b Hw) as [Hs Hop].
  assert (Hk6 : In KING kinds) by (cbn; auto 10).
  assert (Hk1 : In PAWN kinds) by (cbn; auto 10).
  assert (Hk4 : In ROOK kinds) by (cbn; auto 10).
  assert (Hne_side : 1 - side b <> side b) by lia.
  pose proof Hpl as (Hf & Ht & Hne & Hp & HF & HT & Hpawn & Hking).
  (* the squares the move touches are not the other king's *)
  assert (Hdiff : forall sq c k, In c sides -> In k kinds ->
            Z.testbit (pieces b c k) sq = true ->
            (c <> 1 - side b \/ k <> KING) -> 0 <= sq < 64 -> sq <> ho).
  { intros sq c k Hc' Hk' Hb Hck Hsq ->.
    assert (E : Z.testbit (pieces b (1 - side b) KING) ho = true)
      by (rewrite Hko, Z.eqb_refl by lia; reflexivity).
    destruct (Hd _ _ _ _ _ Hc' Hk' Hop Hk6 Hb E). tauto. }
  assert (Hto : to m <> ho).
  { intros E.
    assert (Hocc : Z.testbit (occupied b (1 - side b)) (to m) = true).
    { rewrite occupied_testbit by assumption. apply existsb_exists.
      exists KING. split; [exact Hk6|]. rewrite E, Hko, Z.eqb_refl by lia.
      reflexivity. }
    pose proof (capture_attacker b co m Hc Hm Hocc) as Hatt.
    assert (Hia : is_attacked (to m) (side b) b = true).
    { apply is_attacked_attacker; auto. exists (from m), (piece m). auto. }
    rewrite E in Hia. congruence. }
  assert (Hfrom : from m <> ho).
  { apply (Hdiff _ (side b) (piece m)); auto. }
  assert (Hown : to m <> hs).
  { intros E. specialize (HT KING Hk6). rewrite E, Hks, Z.eqb_refl in HT by lia.
    discriminate. }
  assert (Harr : ((KING =? (if (piece m =? PAWN) && negb (promo m =? 0)
                            then promo m else piece m)) = (piece m =? KING))).
  { destruct (Z.eqb_spec (piece m) PAWN) as [E|E]; cbn [andb].
    - rewrite E. destruct (Hpawn E) as [[-> | ->] _]; reflexivity.
    - apply Z.eqb_sym. }
  assert (Hks' : king_at (makeMove b m) (side b)
                   (if piece m =? KING then to m else hs)).
  { split; [destruct (piece m =? KING); lia|].
    intros sq Hsq. rewrite makeMove_occupant by assumption.
    unfold occupant_after. cbv zeta. rewrite Harr, Z.eqb_refl. cbn [andb].
    destruct (Z.eqb_spec (piece m) KING) as [Ek|Ek].
    - assert (Ehs : from m = hs).
      { rewrite Ek in HF. rewrite Hks in HF by lia. apply Z.eqb_eq in HF. exact HF. }
      rewrite Ek. change (KING =? PAWN) with false. cbn [andb].
      destruct (Z.eqb_spec sq (to m)); [reflexivity|].
      destruct (Z.eqb_spec sq (from m)); [reflexivity|].
      destruct (castle_rook m) as [[[rc rf] rt]|] eqn:Ecr.
      + destruct (sq =? rf); [reflexivity|].
        destruct (sq =? rt); [apply andb_false_r|].
        rewrite Hks by lia. apply Z.eqb_neq. lia.
      + rewrite Hks by lia. apply Z.eqb_neq. lia.
    - assert (Ehs : from m <> hs).
      { intros E. pose proof (Hks (from m) Hf) as Hx.
        rewrite (proj2 (Z.eqb_eq _ _) E) in Hx.
        destruct (Hd _ _ _ _ _ Hs Hp Hs Hk6 HF Hx). contradiction. }
      replace (castle_rook m) with (@None (Z * Z * Z))
        by (unfold castle_rook; destruct (Z.eqb_spec (piece m) KING);
            [contradiction|reflexivity]).
      destruct (Z.eqb_spec sq (to m)) as [->|]; [symmetry; apply Z.eqb_neq; exact Hown|].
      destruct (Z.eqb_spec sq (from m)) as [->|]; [symmetry; apply Z.eqb_neq; exact Ehs|].
      destruct (Z.eqb_spec (piece m) PAWN) as [Epw|Epw]; cbn [andb]; [|apply Hks; lia].
      destruct (Z.eqb_spec (to m) (ep b)) as [Eep|Eep]; cbn [andb]; [|apply Hks; lia].
      destruct (Hpawn Epw) as [_ Hepf]. destruct (Hepf Eep) as (Hcr & Hcp & _).
      cbv zeta in Hcr, Hcp.
      destruct (Z.eqb_spec sq (if side b =? WHITE then to m - 8 else to m + 8)) as [->|];
        [|apply Hks; lia].
      symmetry. apply Z.eqb_neq. intros E.
      pose proof (Hks _ Hcr) as Hx. rewrite (proj2 (Z.eqb_eq _ _) E) in Hx.
      destruct (Hd (1 - side b) PAWN (side b) KING _ Hop Hk1 Hs Hk6 Hcp Hx). lia. }
  assert (Hko' : king_at (makeMove b m) (1 - side b) ho).
  { split; [exact Hho|].
    intros sq Hsq. rewrite makeMove_occupant by assumption.
    unfold occupant_after. cbv zeta.
    replace (1 - side b =? side b) with false by (symmetry; apply Z.eqb_neq; lia).
    cbn [andb].
    destruct (Z.eqb_spec sq (to m)) as [->|]; [symmetry; apply Z.eqb_neq; exact Hto|].
    destruct (Z.eqb_spec sq (from m)) as [->|]; [symmetry; apply Z.eqb_neq; exact Hfrom|].
    destruct (Z.eqb_spec (piece m) PAWN) as [Epw|Epw]; cbn [andb].
    - replace (castle_rook m) with (@None (Z * Z * Z))
        by (unfold castle_rook; rewrite Epw; reflexivity).
      destruct (Z.eqb_spec (to m) (ep b)) as [Eep|Eep]; cbn [andb]; [|apply Hko; lia].
      destruct (Hpawn Epw) as [_ Hepf]. destruct (Hepf Eep) as (Hcr & Hcp & _).
      cbv zeta in Hcr, Hcp.
      destruct (Z.eqb_spec sq (if side b =? WHITE then to m - 8 else to m + 8)) as [->|];
        [|apply Hko; lia].
      symmetry. apply Z.eqb_neq.
      apply (Hdiff _ (1 - side b) PAWN); auto. right. discriminate.
    - destruct (castle_rook m) as [[[rc rf] rt]|] eqn:Ecr; [|apply Hko; lia].
      destruct (castle_rook_cases m rc rf rt Ecr) as [Ek Hcases].
      assert (H2 : Z.abs (from m - to m) = 2).
      { unfold castle_rook in Ecr. rewrite Ek in Ecr.
        change (KING =? KING) with true in Ecr. cbn [andb] in Ecr.
        destruct (Z.eqb_spec (Z.abs (from m - to m)) 2); [auto|discriminate]. }
      destruct (Hking Ek H2) as (rf' & rt' & E' & Hrook & Hempty & _).
      rewrite ?Ecr in E'. inversion E'. subst rc rf' rt'.
      assert (Hrt : 0 <= rt < 64 /\ 0 <= rf < 64).
      { destruct Hcases as [[_ [[-> ->]|[-> ->]]]|[_ [[-> ->]|[-> ->]]]]; lia. }
      destruct (Z.eqb_spec sq rf) as [->|].
      { symmetry. apply Z.eqb_neq.
        apply (Hdiff _ (side b) ROOK); auto; lia. }
      destruct (Z.eqb_spec sq rt) as [->|]; [|apply Hko; lia].
      rewrite andb_false_r. symmetry. apply Z.eqb_neq. intros E.
      specialize (Hempty (1 - side b) KING Hop Hk6).
      rewrite E, Hko, Z.eqb_refl in Hempty by lia. discriminate. }
  auto.
Qed.

(** A legal move keeps one king a side, out of reach of the side to
    move. *)
Lemma kings_ok_makeMove b co m :
  consistent b -> kings_ok b -> In m (generateMoves b co) ->
  kings_ok (makeMove b m).
Proof.
  intros Hc (hs & ho & Hks & Hko & Hsafe) Hm.
  apply generateMoves_In in Hm. destruct Hm as [Hm Hlegal].
  destruct (kings_after b co m hs ho Hc Hks Hko Hsafe Hm) as [Hks' Hko'].
  pose proof Hc as (Hw & Ho & Ha & Hd & He & _).
  destruct (wf_side_In b Hw) as [Hs Hop].
  apply isLegalMove_spec in Hlegal. destruct Hlegal as [_ Hlegal].
  destruct (makeMove_fields b m Hw (ep_inv_ep_ok b He)
              ltac:(pose proof (pseudoMoves_ok b co Hw Ho) as Hall;
                    rewrite Forall_forall in Hall; exact (Hall m Hm))) as (Hw' & _).
  rewrite (king_at_bit _ _ _ Hw' Hs Hks') in Hlegal.
  rewrite ctzll_bit in Hlegal by (apply Hks').
  exists ho, (if piece m =? KING then to m else hs).
  rewrite makeMove_side.
  replace (1 - (1 - side b)) with (side b) by (destruct Hw as [_ [E|E]]; rewrite E; reflexivity).
  auto.
Qed.
End Kings.

Section MoveFields.
Context {keys : ZobristKeys}.

Lemma reachable_kings_ok b : reachable b -> kings_ok b.
Proof.
  induction 1 as [|b m co Hr IH].
  - apply kings_ok_init.
  - eapply kings_ok_makeMove; eauto. apply reachable_consistent. exact Hr.
Qed.

(** The fields of a pseudo-legal move that [from], [to] and the board
    determine. *)
Lemma pseudo_fields b co m :
  consistent b -> In m (pseudoMoves b co) ->
  score m = 0 /\
  captured m = (if (piece m =? PAWN)
                   && Z.testbit (occupied b (1 - side b)) (to m)
                   && (Z.quot (to m) 8 =? promo_rank b) then 0 else -1).
Proof.
  intros (Hw & Ho & Ha & Hd & He & Hc) Hm.
  destruct (wf_side_In b Hw) as [Hs Hop].
  apply pseudoMoves_In in Hm; [|assumption..].
  destruct Hm as (p & f & Hp & Hf & Hb & Hm).
  apply gen_piece_In in Hm; [|assumption..].
  destruct Hm as [[-> Hm]|[Hnp [(-> & -> & Hm)|(t & Ht & Hat & ->)]]].
  - apply gen_pawn_In in Hm. destruct Hm as [[-> Hm]|Hm].
    + apply gen_pawn_push_In in Hm; [|assumption].
      destruct Hm as (Hfr & -> & (Hcap & Hsc) & Hr1 & He1 & Hm).
      split; [exact Hsc|]. rewrite Hcap.
      assert (Hocc : Z.testbit (occupied b (1 - side b)) (to m) = false).
      { destruct (Z.testbit (occupied b (1 - side b)) (to m)) eqn:E; [|reflexivity].
        apply (occ_all b _ _ Ha Hop) in E.
        destruct Hm as [(Ht & _)|(Ht & _ & _ & He2)]; rewrite Ht in E; congruence. }
      rewrite Hocc, andb_false_r. reflexivity.
    + assert (Hcap : exists d, In m (gen_pawn_capture b co f PAWN [] d)).
      { destruct Hm; eauto. }
      destruct Hcap as (d & Hcap).
      apply gen_pawn_capture_In in Hcap; [|assumption].
      destruct Hcap as (Hfr & -> & Ht & Hr & Hfile & _ & Hsc & Hcap).
      split; [exact Hsc|]. rewrite Hcap, Ht. reflexivity.
  - apply gen_castling_In in Hm. destruct Hm as [_ Hm].
    destruct Hm as [(_ & -> & _)|[(_ & -> & _)|[(_ & -> & _)|(_ & -> & _)]]];
      split; reflexivity.
  - cbn [score captured piece Move_new]. split; [reflexivity|].
    destruct (Z.eqb_spec p PAWN); [contradiction|reflexivity].
Qed.

(** Two pseudo-legal moves between the same squares are the same move. *)
Lemma pseudo_move_determined b co co' m m' :
  consistent b -> In m (pseudoMoves b co) -> In m' (pseudoMoves b co') ->
  from m = from m' -> to m = to m' -> m = m'.
Proof.
  intros Hc Hm Hm' Ef Et.
  destruct (pseudo_sound b co m Hc Hm) as [Hpl _].
  destruct (pseudo_sound b co' m' Hc Hm') as [Hpl' _].
  pose proof (pseudo_promo b co m Hc Hm) as Hpr.
  pose proof (pseudo_promo b co' m' Hc Hm') as Hpr'.
  destruct (pseudo_fields b co m Hc Hm) as [Hsc Hcap].
  destruct (pseudo_fields b co' m' Hc Hm') as [Hsc' Hcap'].
  destruct Hc as (Hw & _ & _ & Hd & _).
  destruct (wf_side_In b Hw) as [Hs _].
  destruct Hpl as (_ & _ & _ & Hp & HF & _).
  destruct Hpl' as (_ & _ & _ & Hp' & HF' & _).
  rewrite <- Ef in HF'.
  destruct (Hd _ _ _ _ _ Hs Hp Hs Hp' HF HF') as [_ Ep].
  rewrite <- Et, <- Ep in Hpr', Hcap'.
  destruct m, m'. cbn in *. congruence.
Qed.
End MoveFields.

Section Legality.
Context {keys : ZobristKeys}.

Lemma king_occupied b c h :
  occ_ok b -> In c sides -> king_at b c h ->
  Z.testbit (occupied b c) h = true.
Proof.
  intros Ho Hc [Hh Hk]. rewrite occupied_testbit by assumption.
  apply existsb_exists. exists KING. split; [cbn; auto 10|].
  rewrite Hk, Z.eqb_refl by lia. reflexivity.
Qed.

(** [isLegalMove] rejects the moves after which the king can be taken. *)
Lemma legal_king_safe b co m hs ho :
  consistent b -> king_at b (side b) hs -> king_at b (1 - side b) ho ->
  is_attacked ho (side b) b = false -> In m (pseudoMoves b co) ->
  isLegalMove b m = true <->
  forall m', In m' (pseudoMoves (makeMove b m) true) ->
             Z.testbit (pieces (makeMove b m) (side b) KING) (to m') = false.
Proof.
  intros Hc Hks Hko Hsafe Hm.
  destruct (kings_after b co m hs ho Hc Hks Hko Hsafe Hm) as [Hks' _].
  pose proof (consistent_pseudo b co m Hc Hm) as Hc'.
  pose proof Hc as (Hw & _). pose proof Hc' as (Hw' & Ho' & _).
  destruct (wf_side_In b Hw) as [Hs Hop].
  set (h := if piece m =? KING then to m else hs) in *.
  assert (Hh : 0 <= h < 64) by apply Hks'.
  assert (Eside : 1 - side (makeMove b m) = side b).
  { rewrite makeMove_side. destruct Hw as [_ [E|E]]; rewrite E; reflexivity. }
  assert (Hocc : Z.testbit (occupied (makeMove b m) (1 - side (makeMove b m))) h = true).
  { rewrite Eside. apply king_occupied; auto. }
  pose proof (attacked_capture_iff (makeMove b m) h Hc' Hh Hocc) as Hiff.
  rewrite makeMove_side in Hiff.
  rewrite isLegalMove_spec, (king_at_bit _ _ _ Hw' Hs Hks'), ctzll_bit by exact Hh.
  split.
  - intros [_ Hna] m' Hm'.
    pose proof (pseudoMoves_ok _ true Hw' Ho') as Hall.
    rewrite Forall_forall in Hall. destruct (Hall m' Hm') as (_ & Ht' & _).
    rewrite bit_testbit by lia.
    apply Z.eqb_neq. intros E.
    assert (is_attacked h (1 - side b) (makeMove b m) = true).
    { apply Hiff. exists m'. auto. }
    congruence.
  - intros Hall. split.
    + intros E. assert (E' : Z.testbit (U64.bit h) h = false) by (rewrite E; apply Z.bits_0).
      rewrite bit_testbit, Z.eqb_refl in E' by lia. discriminate.
    + destruct (is_attacked h (1 - side b) (makeMove b m)) eqn:E; [|reflexivity].
      destruct (proj1 Hiff eq_refl) as (m' & Hm' & Et).
      specialize (Hall m' Hm'). rewrite Et, bit_testbit, Z.eqb_refl in Hall by lia.
      discriminate.
Qed.

Lemma consistent_nullFlip b : consistent b -> consistent (nullFlip b).
Proof.
  intros (Hw & Ho & Ha & Hd & He & Hc).
  split; [|split; [|split; [|split; [|split]]]].
  - split; [apply Hw|]. cbn. destruct Hw as [_ [-> | ->]]; cbn; auto.
  - exact Ho.
  - exact Ha.
  - exact Hd.
  - left. reflexivity.
  - exact Hc.
Qed.

(** [isInCheck] tells whether the opponent could take the king. *)
Lemma check_king_capturable b hs :
  consistent b -> king_at b (side b) hs ->
  isInCheck b = true <->
  exists m, In m (pseudoMoves (nullFlip b) true) /\
            Z.testbit (pieces b (side b) KING) (to m) = true.
Proof.
  intros Hc Hks. pose proof (consistent_nullFlip b Hc) as Hc'.
  pose proof Hc as (Hw & Ho & _). pose proof Hc' as (Hw' & Ho' & _).
  destruct (wf_side_In b Hw) as [Hs Hop].
  assert (Hh : 0 <= hs < 64) by apply Hks.
  assert (Eside : 1 - side (nullFlip b) = side b).
  { cbn. destruct Hw as [_ [E|E]]; rewrite E; reflexivity. }
  assert (Hocc : Z.testbit (occupied (nullFlip b) (1 - side (nullFlip b))) hs = true).
  { rewrite Eside. apply (king_occupied b); auto. }
  pose proof (attacked_capture_iff (nullFlip b) hs Hc' Hh Hocc) as Hiff.
  change (is_attacked hs (side (nullFlip b)) (nullFlip b))
    with (is_attacked hs (1 - side b) b) in Hiff.
  unfold isInCheck. rewrite (king_at_bit _ _ _ Hw Hs Hks), ctzll_bit by exact Hh.
  assert (Hnz : (U64.bit hs =? 0) = false).
  { apply Z.eqb_neq. intros E.
    assert (E' : Z.testbit (U64.bit hs) hs = false) by (rewrite E; apply Z.bits_0).
    rewrite bit_testbit, Z.eqb_refl in E' by lia. discriminate. }
  rewrite Hnz, Hiff. split.
  - intros (m & Hm & Et). exists m. split; [exact Hm|].
    rewrite Et, bit_testbit, Z.eqb_refl by lia. reflexivity.
  - intros (m & Hm & Hb). exists m. split; [exact Hm|].
    pose proof (pseudoMoves_ok _ true Hw' Ho') as Hall.
    rewrite Forall_forall in Hall. destruct (Hall m Hm) as (_ & Ht' & _).
    rewrite bit_testbit in Hb by lia. apply Z.eqb_eq in Hb. auto.
Qed.
End Legality.

(* ================================================================== *)
(** ** What holds on every position of a game *)

Section Reachable.
Context {keys : ZobristKeys}.

(** X16: on a position reached from the start position, [makeMove] of a
    generated move changes the twelve bitboards as the move says: the
    moving piece arrives on [to] (as the promotion piece when a pawn
    promotes), [from] is left empty, whatever stood on [to] is gone, the
    pawn taken en passant is removed, the castling rook goes from its
    corner to the square next to the king, and every other square of
    every bitboard is unchanged. *)
Theorem makeMove_occupancy b capturesOnly m c k sq :
  reachable b -> In m (generateMoves b capturesOnly) ->
  In c sides -> In k kinds -> 0 <= sq < 64 ->
  Z.testbit (pieces (makeMove b m) c k) sq = occupant_after b m c k sq.
Proof.
  intros Hr Hm Hc Hk Hsq. pose proof (reachable_consistent b Hr) as Hcons.
  apply generateMoves_In in Hm. destruct Hm as [Hm _].
  destruct (pseudo_sound b capturesOnly m Hcons Hm) as [Hpl _].
  apply makeMove_occupant; auto; apply Hcons.
Qed.

(** X17: on every position reached from the start position the twelve
    piece bitboards are 64-bit words, no square carries two pieces, [all]
    has exactly the bits of the pieces, and the static evaluation stays
    below the mate threshold [MATE - 1000]. *)
Theorem reachable_pieces_disjoint b :
  reachable b ->
  pieces_in_range b = true /\ disjoint_pieces b = true /\ disjoint_squares b /\
  (forall sq, Z.testbit (all b) sq = true <->
     exists c k, In c sides /\ In k kinds /\ Z.testbit (pieces b c k) sq = true) /\
  Z.abs (evaluate b) < MATE - 1000.
Proof.
  intros Hr. destruct (reachable_consistent b Hr) as (Hw & Ho & Ha & Hd & _).
  destruct (consistent_disjoint_pieces b Hw Hd) as [Hrange Hdis].
  split; [exact Hrange|]. split; [exact Hdis|]. split; [exact Hd|]. split.
  - intros sq. rewrite Ha, Z.lor_spec, orb_true_iff. split.
    + intros [H|H]; apply occupied_true in H; auto; try (cbn; auto; fail);
        destruct H as (k & Hk & Hb); [exists WHITE, k|exists BLACK, k];
        cbn; auto.
    + intros (c & k & Hc & Hk & Hb).
      destruct Hc as [<-|[<-|[]]]; [left|right];
        rewrite occupied_testbit by (auto; cbn; auto);
        apply existsb_exists; exists k; auto.
  - pose proof (eval_white_bound b Hrange Hdis) as H.
    unfold evaluate, MATE. cbv zeta. destruct (side b =? WHITE); lia.
Qed.

(** X18: on every position reached from the start position the
    en-passant square, when set, is on the sixth rank of the side to move,
    is empty, and has right behind it a pawn of the side that just moved:
    the pawn an en-passant capture removes is there. *)
Theorem reachable_ep_square b : reachable b -> ep_inv b.
Proof. intros Hr. apply (reachable_consistent b Hr). Qed.

(** X19: on every position reached from the start position a castling
    right that is still set has its rook on the corner square and no king
    of that side away from the home square e1 or e8. *)
Theorem reachable_castle_rights b : reachable b -> castle_inv b.
Proof. intros Hr. apply (reachable_consistent b Hr). Qed.

(** X20: what [generateMoves] returns on a position reached from the start
    position: the piece the move names belongs to the side to move and
    stands on [from], no piece of that side stands on [to], a king move of
    two files has its rook in the corner and an empty square for it, the
    score is 0, and a move promotes exactly when it is a pawn move to the
    last rank, and then to a queen. *)
Theorem generated_move_shape b capturesOnly m :
  reachable b -> In m (generateMoves b capturesOnly) ->
  playable b m /\ score m = 0 /\
  promo m = (if (piece m =? PAWN) && (Z.quot (to m) 8 =? promo_rank b)
             then QUEEN else 0).
Proof.
  intros Hr Hm. pose proof (reachable_consistent b Hr) as Hc.
  apply generateMoves_In in Hm. destruct Hm as [Hm _].
  split; [apply (pseudo_sound b capturesOnly m Hc Hm)|].
  split; [apply (pseudo_fields b capturesOnly m Hc Hm)|].
  apply (pseudo_promo b capturesOnly m Hc Hm).
Qed.

(** X21: on a position reached from the start position every move of the
    captures-only mode of [generateMoves] is also a move of the full mode
    and lands on a square held by the opponent; so the captures-only mode,
    which [quiescence] uses, has no en-passant capture. *)
Theorem captures_only_moves b m :
  reachable b -> In m (generateMoves b true) ->
  In m (generateMoves b false) /\
  Z.testbit (occupied b (1 - side b)) (to m) = true /\ to m <> ep b.
Proof.
  intros Hr Hm. destruct (reachable_consistent b Hr) as (Hw & Ho & Ha & Hd & He & _).
  apply generateMoves_In in Hm. destruct Hm as [Hm Hl].
  destruct (pseudo_captures b m Hw Ho Hd Hm) as [Hf Hocc].
  split; [apply generateMoves_In; auto|]. split; [exact Hocc|].
  intros E. destruct (wf_side_In b Hw) as [_ Hop].
  apply occupied_true in Hocc; auto. destruct Hocc as (k & Hk & Hb).
  pose proof (pseudoMoves_ok b true Hw Ho) as Hall.
  rewrite Forall_forall in Hall. destruct (Hall m Hm) as (_ & Ht & _).
  destruct (ep_inv_playable b (to m) He Ht E) as (_ & _ & Hempty).
  rewrite (Hempty _ _ Hop Hk) in Hb. discriminate.
Qed.

(** X22: [is_attacked] agrees with the move generator: on a position
    reached from the start position, a square held by the side not to move
    is attacked by the side to move exactly when some pseudo-legal capture
    lands on it. *)
Theorem attacked_iff_capture b sq :
  reachable b -> 0 <= sq < 64 ->
  Z.testbit (occupied b (1 - side b)) sq = true ->
  is_attacked sq (side b) b = true <->
  exists m, In m (pseudoMoves b true) /\ to m = sq.
Proof.
  intros Hr. apply attacked_capture_iff. apply reachable_consistent. exact Hr.
Qed.

(** X23: on every position reached from the start position each side has
    exactly one king, and no pseudo-legal move of either mode lands on the
    king of the side not to move: a king is never captured. *)
Theorem reachable_kings b :
  reachable b ->
  (forall c, In c sides -> exists h, 0 <= h < 64 /\ pieces b c KING = U64.bit h) /\
  (forall capturesOnly m, In m (pseudoMoves b capturesOnly) ->
     Z.testbit (pieces b (1 - side b) KING) (to m) = false).
Proof.
  intros Hr. pose proof (reachable_consistent b Hr) as Hc.
  destruct (reachable_kings_ok b Hr) as (hs & ho & Hks & Hko & Hsafe).
  pose proof Hc as (Hw & Ho & _). destruct (wf_side_In b Hw) as [Hs Hop].
  split.
  - intros c Hin.
    assert (E : c = side b \/ c = 1 - side b).
    { destruct Hw as [_ [E|E]]; rewrite E; destruct Hin as [<-|[<-|[]]]; auto. }
    destruct E as [-> | ->]; [exists hs|exists ho];
      (split; [|apply king_at_bit; auto]); [apply Hks|apply Hko].
  - intros co m Hm.
    destruct (Z.testbit (pieces b (1 - side b) KING) (to m)) eqn:E; [|reflexivity].
    assert (Hocc : Z.testbit (occupied b (1 - side b)) (to m) = true).
    { rewrite occupied_testbit by assumption. apply existsb_exists.
      exists KING. split; [cbn; auto 10|exact E]. }
    pose proof (capture_attacker b co m Hc Hm Hocc) as Hatt.
    pose proof (pseudoMoves_ok b co Hw Ho) as Hall.
    rewrite Forall_forall in Hall. destruct (Hall m Hm) as (Hf & Ht & _ & Hk & _).
    assert (Hia : is_attacked (to m) (side b) b = true).
    { apply is_attacked_attacker; auto. exists (from m), (piece m). auto. }
    destruct Hko as [_ Hko]. rewrite Hko in E by lia.
    apply Z.eqb_eq in E. rewrite E in Hia. congruence.
Qed.

(** X24: what [isLegalMove] decides: on a position reached from the start
    position a pseudo-legal move is legal exactly when, on the position
    after it, no pseudo-legal capture of the opponent lands on the mover's
    king. *)
Theorem legal_iff_king_safe b capturesOnly m :
  reachable b -> In m (pseudoMoves b capturesOnly) ->
  isLegalMove b m = true <->
  forall m', In m' (pseudoMoves (makeMove b m) true) ->
             Z.testbit (pieces (makeMove b m) (side b) KING) (to m') = false.
Proof.
  intros Hr Hm. pose proof (reachable_consistent b Hr) as Hc.
  destruct (reachable_kings_ok b Hr) as (hs & ho & Hks & Hko & Hsafe).
  apply (legal_king_safe b capturesOnly m hs ho); assumption.
Qed.

(** X25: what [isInCheck] decides: on a position reached from the start
    position the side to move is in check exactly when the opponent, were
    it to move, would have a pseudo-legal capture landing on the king. *)
Theorem check_iff_king_capturable b :
  reachable b ->
  isInCheck b = true <->
  exists m, In m (pseudoMoves (nullFlip b) true) /\
            Z.testbit (pieces b (side b) KING) (to m) = true.
Proof.
  intros Hr. pose proof (reachable_consistent b Hr) as Hc.
  destruct (reachable_kings_ok b Hr) as (hs & ho & Hks & Hko & Hsafe).
  apply (check_king_capturable b hs); assumption.
Qed.

End Reachable.

(** *** Examples *)

(** After 1. e4 a6 2. e5 d5 the capture e5xd6 en passant removes the black
    pawn on d5 and puts the white pawn on d6. *)
Lemma makeMove_occupancy_witness :
  Z.testbit (pieces (@makeMove sample_keys ep_board e5d6) BLACK PAWN) 35 = false /\
  Z.testbit (pieces (@makeMove sample_keys ep_board e5d6) WHITE PAWN) 43 = true.
Proof.
  assert (Hm : In e5d6 (@generateMoves sample_keys ep_board false)) by in_list.
  assert (HB : In BLACK sides) by (right; left; reflexivity).
  assert (HW : In WHITE sides) by (left; reflexivity).
  assert (HP : In PAWN kinds) by (left; reflexivity).
  split.
  - transitivity (occupant_after ep_board e5d6 BLACK PAWN 35); [|by_compute].
    exact (@makeMove_occupancy sample_keys ep_board false e5d6 BLACK PAWN 35
             reachable_ep_board Hm HB HP ltac:(lia)).
  - transitivity (occupant_after ep_board e5d6 WHITE PAWN 43); [|by_compute].
    exact (@makeMove_occupancy sample_keys ep_board false e5d6 WHITE PAWN 43
             reachable_ep_board Hm HW HP ltac:(lia)).
Defined.

Lemma reachable_pieces_disjoint_witness :
  disjoint_pieces fools_mate = true /\ Z.abs (evaluate fools_mate) < MATE - 1000.
Proof.
  destruct (@reachable_pieces_disjoint sample_keys fools_mate reachable_fools_mate)
    as (_ & H1 & _ & _ & H2).
  split; [exact H1|exact H2].
Defined.

(** After 1. e4 a6 2. e5 d5 the en-passant square is d6. *)
Lemma reachable_ep_square_witness : ep ep_board = 43 /\ ep_inv ep_board.
Proof.
  split; [by_compute|].
  exact (@reachable_ep_square sample_keys ep_board reachable_ep_board).
Defined.

Lemma reachable_castle_rights_witness :
  castle after_e4_d5 = 15 /\ castle_inv after_e4_d5.
Proof.
  split; [by_compute|].
  exact (@reachable_castle_rights sample_keys after_e4_d5 reachable_after_e4_d5).
Defined.

Lemma generated_move_shape_witness :
  playable ep_board e5d6 /\ promo e5d6 = 0.
Proof.
  assert (Hm : In e5d6 (@generateMoves sample_keys ep_board false)) by in_list.
  destruct (@generated_move_shape sample_keys ep_board false e5d6
              reachable_ep_board Hm) as (H1 & _ & H2).
  split; [exact H1|reflexivity].
Defined.

(** After 1. e4 d5 the capture e4xd5 is a move of both modes. *)
Lemma captures_only_moves_witness :
  In e4d5 (@generateMoves sample_keys after_e4_d5 false) /\
  Z.testbit (occupied after_e4_d5 BLACK) 35 = true.
Proof.
  assert (Hm : In e4d5 (@generateMoves sample_keys after_e4_d5 true)) by in_list.
  destruct (@captures_only_moves sample_keys after_e4_d5 e4d5
              reachable_after_e4_d5 Hm) as (H1 & H2 & _).
  split; [exact H1|exact H2].
Defined.

(** After 1. e4 d5 the pawn on d5 is attacked by White. *)
Lemma attacked_iff_capture_witness :
  is_attacked 35 WHITE after_e4_d5 = true <->
  exists m, In m (pseudoMoves after_e4_d5 true) /\ to m = 35.
Proof.
  apply (@attacked_iff_capture sample_keys after_e4_d5 35 reachable_after_e4_d5);
    [lia|by_compute].
Defined.

Lemma reachable_kings_witness :
  exists h, 0 <= h < 64 /\ pieces fools_mate WHITE KING = U64.bit h.
Proof.
  destruct (@reachable_kings sample_keys fools_mate reachable_fools_mate) as [H _].
  apply H. cbn. auto.
Defined.

(** After 1. f3 e5 2. g4 Qh4 the move a2-a3 is pseudo-legal. *)
Lemma legal_iff_king_safe_witness :
  @isLegalMove sample_keys fools_mate (Move_new 8 16 PAWN (-1) 0) = true <->
  forall m',
    In m' (pseudoMoves
             (@makeMove sample_keys fools_mate (Move_new 8 16 PAWN (-1) 0)) true) ->
    Z.testbit (pieces (@makeMove sample_keys fools_mate (Move_new 8 16 PAWN (-1) 0))
                 (side fools_mate) KING) (to m') = false.
Proof.
  apply (@legal_iff_king_safe sample_keys fools_mate false
           (Move_new 8 16 PAWN (-1) 0) reachable_fools_mate).
  in_list.
Defined.

Lemma check_iff_king_capturable_witness :
  isInCheck fools_mate = true <->
  exists m, In m (pseudoMoves (@nullFlip sample_keys fools_mate) true) /\
            Z.testbit (pieces fools_mate (side fools_mate) KING) (to m) = true.
Proof.
  exact (@check_iff_king_capturable sample_keys fools_mate reachable_fools_mate).
Defined.
(* ================================================================== *)
(** ** The UCI front end *)

Section FrontEnd.
Import Ascii String UCI.

Lemma get_lt s : forall i, (i < length s)%nat -> exists c, get i s = Some c.
Proof.
  induction s as [|c s IH]; intros i Hi; cbn [length] in Hi; [lia|].
  destruct i as [|i]; cbn [get]; [eauto|]. apply IH. lia.
Qed.

Lemma get_length s : get (length s) s = None.
Proof. induction s as [|c s IH]; cbn [length get]; auto. Qed.

Lemma char_at_defined sg s i :
  (i <= length s)%nat -> exists c, char_at sg s i = Some c.
Proof.
  intros Hi. unfold char_at.
  destruct (Nat.eq_dec i (length s)) as [->|Hne].
  - rewrite get_length, Nat.eqb_refl. eauto.
  - destruct (get_lt s i ltac:(lia)) as (c & ->). eauto.
Qed.

Lemma char_int_of sg n : 0 <= n < 128 -> char_int sg (char_of n) = n.
Proof.
  intros Hn. unfold char_int, char_of. cbv zeta.
  rewrite N_ascii_embedding by lia. rewrite Z2N.id by lia.
  replace (128 <=? n) with false by (symmetry; apply Z.leb_gt; lia).
  rewrite andb_false_r. reflexivity.
Qed.

Lemma find_unique {A} (p : A -> bool) l x :
  In x l -> p x = true -> (forall y, In y l -> p y = true -> y = x) ->
  find p l = Some x.
Proof.
  induction l as [|a l IH]; intros Hin Hp Hu; [destruct Hin|].
  cbn [find]. destruct (p a) eqn:E.
  - f_equal. apply Hu; cbn; auto.
  - apply IH.
    + destruct Hin as [->|Hin]; [congruence|exact Hin].
    + exact Hp.
    + intros y Hy. apply Hu. right. exact Hy.
Qed.

Lemma find_none {A} (p : A -> bool) l :
  (forall y, In y l -> p y = false) -> find p l = None.
Proof.
  induction l as [|a l IH]; intros H; [reflexivity|].
  cbn [find]. rewrite (H a) by (left; reflexivity).
  apply IH. intros y Hy. apply H. right. exact Hy.
Qed.

Section Facts.
Context {keys : ZobristKeys}.

Lemma parseMove_defined sg b s :
  (3 <= length s)%nat -> exists r, parseMove sg b s = Some r.
Proof.
  intros Hs. unfold parseMove. cbv zeta.
  destruct (char_at_defined sg s 0 ltac:(lia)) as (c0 & ->).
  destruct (char_at_defined sg s 1 ltac:(lia)) as (c1 & ->).
  destruct (char_at_defined sg s 2 ltac:(lia)) as (c2 & ->).
  destruct (char_at_defined sg s 3 ltac:(lia)) as (c3 & ->).
  eauto.
Qed.

Lemma parseMove_generated sg b s m :
  parseMove sg b s = Some (Some m) -> In m (generateMoves b false).
Proof.
  unfold parseMove. cbv zeta.
  destruct (char_at sg s 0); [|discriminate].
  destruct (char_at sg s 1); [|discriminate].
  destruct (char_at sg s 2); [|discriminate].
  destruct (char_at sg s 3); [|discriminate].
  intros H. injection H as H. apply find_some in H. apply H.
Qed.

(** X26: the loop of the [position] command over the move tokens: when
    every token has at least three characters, so that [parseMove] reads
    no character past the terminator, the loop ends on a position reached
    from the start position by moves that [generateMoves] returns, whatever
    the tokens are; a token that names no legal move is skipped. *)
Theorem play_moves_reachable sg tokens : forall b,
  reachable b -> Forall (fun t => (3 <= length t)%nat) tokens ->
  exists b', play_moves sg b tokens = Some b' /\ reachable b'.
Proof.
  induction tokens as [|t rest IH]; intros b Hr Hl; cbn [play_moves]; [eauto|].
  inversion Hl as [|? ? Ht Hrest]; subst.
  destruct (parseMove_defined sg b t Ht) as ([m|] & E); rewrite E.
  - apply IH; [|exact Hrest].
    eapply reachable_move; [exact Hr|].
    eapply parseMove_generated; eauto.
  - apply IH; assumption.
Qed.

Lemma skip_fen_app fen ms :
  Forall (fun t => t <> "moves"%string) fen ->
  skip_fen (fen ++ "moves"%string :: ms) = Some ms.
Proof.
  induction 1 as [|t fen Ht _ IH]; cbn [app skip_fen].
  - reflexivity.
  - apply String.eqb_neq in Ht. rewrite Ht. exact IH.
Qed.

Lemma move_string_parse sg b m :
  consistent b -> In m (generateMoves b false) ->
  parseMove sg b (move_string m) = Some (Some m).
Proof.
  intros Hc Hm. pose proof Hm as Hg.
  apply generateMoves_In in Hm. destruct Hm as [Hm _].
  pose proof Hc as (Hw & Ho & _).
  pose proof (pseudoMoves_ok b false Hw Ho) as Hall.
  rewrite Forall_forall in Hall. destruct (Hall m Hm) as (Hf & Ht & _ & _ & Hpr & _).
  destruct (square_coords (from m) Hf) as (Ef & Hfr & Hff).
  destruct (square_coords (to m) Ht) as (Et & Htr & Htf).
  unfold parseMove, move_string. cbv zeta.
  unfold char_at. cbn [get].
  rewrite !char_int_of by lia.
  replace (Z.rem (from m) 8 + 97 - 97 + (Z.quot (from m) 8 + 49 - 49) * 8)
    with (from m) by lia.
  replace (Z.rem (to m) 8 + 97 - 97 + (Z.quot (to m) 8 + 49 - 49) * 8)
    with (to m) by lia.
  f_equal. apply find_unique.
  - exact Hg.
  - unfold matches. rewrite !Z.eqb_refl. cbn [andb].
    destruct Hpr as [-> | ->]; reflexivity.
  - intros m' Hm' Hmatch. apply generateMoves_In in Hm'. destruct Hm' as [Hm' _].
    unfold matches in Hmatch.
    apply andb_true_iff in Hmatch. destruct Hmatch as [Hmatch _].
    apply andb_true_iff in Hmatch. destruct Hmatch as [E1 E2].
    apply Z.eqb_eq in E1, E2.
    apply (pseudo_move_determined b false false m' m Hc Hm' Hm); assumption.
Qed.
(** X27: the [position] command never reads the FEN: after [fen], whatever
    fields precede [moves] and whatever the board was, the board is the
    one [startpos] gives, with the same moves played on it. *)
Theorem position_fen_ignored signed_char board board' fen ms :
  Forall (fun t => t <> "moves"%string) fen ->
  position signed_char board ("fen"%string :: fen ++ "moves"%string :: ms) =
  position signed_char board' ("startpos"%string :: "moves"%string :: ms) /\
  position signed_char board ("fen"%string :: fen) = Some Board_init.
Proof.
  intros Hf. unfold position.
  change (String.eqb "fen" "startpos") with false.
  change (String.eqb "fen" "fen") with true.
  change (String.eqb "startpos" "startpos") with true.
  change (String.eqb "moves" "moves") with true. cbv iota.
  rewrite skip_fen_app by exact Hf. split; [reflexivity|].
  replace (skip_fen fen) with (@None (list string)); [reflexivity|].
  symmetry. induction Hf as [|t fen Ht _ IH]; cbn [skip_fen]; [reflexivity|].
  apply String.eqb_neq in Ht. rewrite Ht. exact IH.
Qed.

Lemma promo_of_move_string m :
  0 <= from m < 64 -> 0 <= to m < 64 ->
  promo_of (move_string m) =
  if (promo m =? QUEEN) || (promo m =? ROOK) || (promo m =? BISHOP)
     || (promo m =? KNIGHT) then promo m else 0.
Proof.
  intros Hf Ht. unfold promo_of, move_string.
  destruct (Z.eqb_spec (promo m) 0) as [E|E]; cbn [negb].
  - rewrite E. reflexivity.
  - destruct (Z.eqb_spec (promo m) QUEEN) as [->|E1]; [reflexivity|].
    destruct (Z.eqb_spec (promo m) ROOK) as [->|E2]; [reflexivity|].
    destruct (Z.eqb_spec (promo m) BISHOP) as [->|E3]; [reflexivity|].
    destruct (Z.eqb_spec (promo m) KNIGHT) as [->|E4]; reflexivity.
Qed.

Lemma parseMove_move_string sg b m :
  0 <= from m < 64 -> 0 <= to m < 64 ->
  parseMove sg b (move_string m) =
  Some (find (matches (from m) (to m) (promo_of (move_string m)))
             (generateMoves b false)).
Proof.
  intros Hf Ht.
  destruct (square_coords (from m) Hf) as (Ef & Hfr & Hff).
  destruct (square_coords (to m) Ht) as (Et & Htr & Htf).
  unfold parseMove. cbv zeta.
  set (pp := promo_of (move_string m)).
  unfold move_string, char_at. cbn [get].
  rewrite !char_int_of by lia.
  replace (Z.rem (from m) 8 + 97 - 97 + (Z.quot (from m) 8 + 49 - 49) * 8)
    with (from m) by lia.
  replace (Z.rem (to m) 8 + 97 - 97 + (Z.quot (to m) 8 + 49 - 49) * 8)
    with (to m) by lia.
  reflexivity.
Qed.

(** The string built from a move that has the squares of a generated move
    [m] and the promotion field [p]. *)
Lemma move_string_fields sg b m m0 :
  consistent b -> In m (generateMoves b false) ->
  from m0 = from m -> to m0 = to m ->
  parseMove sg b (move_string m0) =
  Some (if (promo m =? 0) || (promo m0 =? promo m) then Some m else None).
Proof.
  intros Hc Hm Ef Et. pose proof Hm as Hg.
  apply generateMoves_In in Hm. destruct Hm as [Hm _].
  pose proof Hc as (Hw & Ho & _).
  pose proof (pseudoMoves_ok b false Hw Ho) as Hall.
  rewrite Forall_forall in Hall. destruct (Hall m Hm) as (Hf & Ht & _ & _ & Hpr & _).
  rewrite parseMove_move_string by (rewrite ?Ef, ?Et; assumption).
  rewrite promo_of_move_string by (rewrite ?Ef, ?Et; assumption).
  rewrite Ef, Et. f_equal.
  assert (Hu : forall m', In m' (generateMoves b false) ->
                 from m' = from m -> to m' = to m -> m' = m).
  { intros m' Hm' E1 E2. apply generateMoves_In in Hm'. destruct Hm' as [Hm' _].
    apply (pseudo_move_determined b false false m' m Hc Hm' Hm); assumption. }
  match goal with |- context [matches _ _ ?x] => set (pp := x) end.
  assert (Hmatch : matches (from m) (to m) pp m =
                   (promo m =? 0) || (promo m0 =? promo m)).
  { unfold matches. rewrite !Z.eqb_refl. cbn [andb]. subst pp.
    destruct Hpr as [E|E]; rewrite E; [reflexivity|].
    change (negb (QUEEN =? 0)) with true. cbv iota.
    change (QUEEN =? 0) with false. cbn [orb].
    destruct (Z.eqb_spec (promo m0) QUEEN) as [->|E1]; [reflexivity|].
    cbn [orb].
    destruct ((promo m0 =? ROOK) || (promo m0 =? BISHOP) || (promo m0 =? KNIGHT));
      [|reflexivity].
    apply Z.eqb_neq. congruence. }
  destruct ((promo m =? 0) || (promo m0 =? promo m)).
  - apply find_unique; [exact Hg|exact Hmatch|].
    intros m' Hm' Hx. unfold matches in Hx.
    apply andb_true_iff in Hx. destruct Hx as [Hx _].
    apply andb_true_iff in Hx. destruct Hx as [E1 E2].
    apply Z.eqb_eq in E1, E2. apply Hu; assumption.
  - apply find_none. intros m' Hm'.
    destruct (matches (from m) (to m) pp m') eqn:Hx; [|reflexivity].
    pose proof Hx as Hx'. unfold matches in Hx'.
    apply andb_true_iff in Hx'. destruct Hx' as [Hx' _].
    apply andb_true_iff in Hx'. destruct Hx' as [E1 E2].
    apply Z.eqb_eq in E1, E2. rewrite (Hu m' Hm' E1 E2) in Hx. congruence.
Qed.

(** X28: on a position reached from the start position, [parseMove]
    applied to the string that [main] builds from a generated move returns
    that move.  Not every [bestmove] is built from such a move: after a
    table hit at the root [search] restores [from], [to] and [piece] of the
    stored move into [bestMove] and leaves its [promo] as it was; the
    string built from that is read back as the stored move when the move
    is no promotion or [promo] happens to agree, and is refused
    otherwise, so a promotion found in the table is printed without its
    letter and [parseMove] does not take it. *)
Theorem move_string_roundtrip signed_char b m bestMove :
  reachable b -> In m (generateMoves b false) ->
  parseMove signed_char b (move_string m) = Some (Some m) /\
  parseMove signed_char b (move_string (unpack_into (pack_move m) bestMove)) =
  Some (if (promo m =? 0) || (promo bestMove =? promo m) then Some m else None).
Proof.
  intros Hr Hm. pose proof (reachable_consistent b Hr) as Hc.
  split.
  - rewrite (move_string_fields signed_char b m m Hc Hm eq_refl eq_refl).
    rewrite Z.eqb_refl, orb_true_r. reflexivity.
  - pose proof Hm as Hg.
    apply generateMoves_In in Hg. destruct Hg as [Hg _].
    pose proof Hc as (Hw & Ho & _).
    pose proof (pseudoMoves_ok b false Hw Ho) as Hall.
    rewrite Forall_forall in Hall.
    destruct (Hall m Hg) as (Hf & Ht & _ & Hk & _).
    assert (Hp : 0 <= piece m < 8).
    { cbn [In kinds] in Hk. unfold PAWN, KNIGHT, BISHOP, ROOK, QUEEN, KING in Hk. lia. }
    destruct (pack_unpack_fields (from m) (to m) (piece m) Hf Ht Hp) as (E1 & E2 & _).
    exact (move_string_fields signed_char b m
             (unpack_into (pack_move m) bestMove) Hc Hm E1 E2).
Qed.
(** X29: a move [parseMove] returns is one of [generateMoves]; it promotes
    only when the string has five characters ending in [q], and then to a
    queen: a string that asks for a rook, bishop or knight never gives a
    promotion. *)
Theorem parseMove_result signed_char b move_str m :
  reachable b -> parseMove signed_char b move_str = Some (Some m) ->
  In m (generateMoves b false) /\
  (promo m = 0 \/ promo m = QUEEN /\ promo_of move_str = QUEEN).
Proof.
  intros Hr H. pose proof (parseMove_generated _ _ _ _ H) as Hg.
  split; [exact Hg|].
  pose proof (reachable_consistent b Hr) as Hc.
  pose proof Hg as Hm. apply generateMoves_In in Hm. destruct Hm as [Hm _].
  pose proof (pseudo_promo b false m Hc Hm) as Hpr.
  unfold parseMove in H. cbv zeta in H.
  destruct (char_at signed_char move_str 0); [|discriminate].
  destruct (char_at signed_char move_str 1); [|discriminate].
  destruct (char_at signed_char move_str 2); [|discriminate].
  destruct (char_at signed_char move_str 3); [|discriminate].
  injection H as H. apply find_some in H. destruct H as [_ H].
  unfold matches in H. apply andb_true_iff in H. destruct H as [_ H].
  destruct (_ && _) in Hpr; [|left; exact Hpr].
  right. split; [exact Hpr|]. rewrite Hpr in H.
  change (negb (QUEEN =? 0)) with true in H. cbv iota in H.
  apply Z.eqb_eq in H. auto.
Qed.
End Facts.
End FrontEnd.

Lemma reachable_promo_game : @reachable sample_keys promo_game.
Proof.
  apply (@reachable_move sample_keys
           (play start_board [a2a4; b7b5; a4b5; a7a6; b5a6; c8b7; a6b7]) h7h6 false);
    [|in_list].
  apply (@reachable_move sample_keys
           (play start_board [a2a4; b7b5; a4b5; a7a6; b5a6; c8b7]) a6b7 false);
    [|in_list].
  apply (@reachable_move sample_keys
           (play start_board [a2a4; b7b5; a4b5; a7a6; b5a6]) c8b7 false);
    [|in_list].
  apply (@reachable_move sample_keys
           (play start_board [a2a4; b7b5; a4b5; a7a6]) b5a6 false);
    [|in_list].
  apply (@reachable_move sample_keys
           (play start_board [a2a4; b7b5; a4b5]) a7a6 false);
    [|in_list].
  apply (@reachable_move sample_keys
           (play start_board [a2a4; b7b5]) a4b5 false);
    [|in_list].
  apply (@reachable_move sample_keys (play start_board [a2a4]) b7b5 false);
    [|in_list].
  apply (@reachable_move sample_keys start_board a2a4 false); [|in_list].
  apply reachable_init.
Qed.

Section FrontEndExamples.
Import Ascii String UCI.

Lemma play_moves_reachable_witness :
  exists b', @play_moves sample_keys true start_board
               ["e2e4"%string; "e7e5"%string; "zztop"%string] = Some b' /\
             @reachable sample_keys b'.
Proof.
  apply (@play_moves_reachable sample_keys true _ start_board).
  - apply reachable_init.
  - repeat constructor.
Defined.

Lemma position_fen_ignored_witness :
  @position sample_keys true after_e4
    ["fen"%string; "8/8/8/8/8/8/8/K6k"%string; "w"%string; "-"%string;
     "moves"%string; "e2e4"%string] =
  @position sample_keys true start_board
    ["startpos"%string; "moves"%string; "e2e4"%string].
Proof.
  apply (@position_fen_ignored sample_keys true after_e4 start_board
           ["8/8/8/8/8/8/8/K6k"%string; "w"%string; "-"%string]
           ["e2e4"%string]).
  repeat constructor; discriminate.
Defined.

Lemma move_string_roundtrip_witness :
  move_string b7a8q = "b7a8q"%string /\
  move_string (unpack_into (pack_move b7a8q) Move_default) = "b7a8"%string /\
  @parseMove sample_keys true promo_game "b7a8q" = Some (Some b7a8q) /\
  @parseMove sample_keys true promo_game "b7a8" = Some None.
Proof.
  split; [reflexivity|]. split; [reflexivity|].
  assert (Hm : In b7a8q (@generateMoves sample_keys promo_game false)) by in_list.
  exact (@move_string_roundtrip sample_keys true promo_game b7a8q Move_default
           reachable_promo_game Hm).
Defined.

Lemma parseMove_result_witness :
  In e7e5 (@generateMoves sample_keys after_e4 false) /\
  (promo e7e5 = 0 \/ promo e7e5 = QUEEN /\ promo_of "e7e5" = QUEEN).
Proof.
  apply (@parseMove_result sample_keys true after_e4 "e7e5" e7e5 reachable_after_e4).
  by_compute.
Defined.
End FrontEndExamples.
(* ================================================================== *)
(** ** [is_attacked] and the rules of chess; the moves [generateMoves] keeps *)

Section ChessAttacks.
Context {keys : ZobristKeys}.

Lemma attack_geometry_checked : attack_geometry_check = true.
Proof. vm_compute. reflexivity. Qed.

Lemma attack_geometry f sq :
  0 <= f < 64 -> 0 <= sq < 64 ->
  let dr := Z.quot sq 8 - Z.quot f 8 in
  let df := Z.rem sq 8 - Z.rem f 8 in
  ((f = sq - 9 /\ Z.rem sq 8 <> 0 \/ f = sq - 7 /\ Z.rem sq 8 <> 7) <->
   dr = 1 /\ Z.abs df = 1) /\
  ((f = sq + 7 /\ Z.rem sq 8 <> 0 \/ f = sq + 9 /\ Z.rem sq 8 <> 7) <->
   dr = -1 /\ Z.abs df = 1) /\
  (Z.testbit (KnightMoves sq) f = true <->
   Z.abs dr = 1 /\ Z.abs df = 2 \/ Z.abs dr = 2 /\ Z.abs df = 1) /\
  (Z.testbit (KingMoves sq) f = true <-> Z.max (Z.abs dr) (Z.abs df) = 1).
Proof.
  intros Hf Hsq. pose proof attack_geometry_checked as H.
  unfold attack_geometry_check in H.
  rewrite forallb_forall in H. specialize (H f (proj2 (squares_In f) Hf)).
  rewrite forallb_forall in H. specialize (H sq (proj2 (squares_In sq) Hsq)).
  cbv zeta in H |- *.
  apply andb_true_iff in H. destruct H as [H H4].
  apply andb_true_iff in H. destruct H as [H H3].
  apply andb_true_iff in H. destruct H as [H1 H2].
  apply Bool.eqb_prop in H1, H2, H3, H4.
  split; [|split; [|split]].
  - match type of H1 with ?a = _ => transitivity (a = true) end.
    + rewrite orb_true_iff, !andb_true_iff, !negb_true_iff, !Z.eqb_neq, !Z.eqb_eq.
      tauto.
    + rewrite H1, andb_true_iff, !Z.eqb_eq. tauto.
  - match type of H2 with ?a = _ => transitivity (a = true) end.
    + rewrite orb_true_iff, !andb_true_iff, !negb_true_iff, !Z.eqb_neq, !Z.eqb_eq.
      tauto.
    + rewrite H2, andb_true_iff, !Z.eqb_eq. tauto.
  - rewrite H3, orb_true_iff, !andb_true_iff, !Z.eqb_eq. tauto.
  - rewrite H4, Z.eqb_eq. tauto.
Qed.
End ChessAttacks.

Section ChessAttacks2.
Context {keys : ZobristKeys}.

Lemma all_occupancy b : occ_ok b -> all_ok b -> all b = occupancy b.
Proof.
  intros Ho Ha. rewrite Ha, (Ho WHITE), (Ho BLACK) by (cbn; auto).
  unfold occupancy, all_pieces, sides, kinds.
  cbn [flat_map map app fold_left].
  apply Z.bits_inj'. intros i _. rewrite !Z.lor_spec, Z.bits_0. btauto.
Qed.

Lemma slides_flip bl f sq dr df :
  0 <= f < 64 -> 0 <= sq < 64 ->
  slides bl sq f (- dr) (- df) <-> slides bl f sq dr df.
Proof.
  intros Hf Hsq. split; intros H; apply slides_sym in H; auto.
  rewrite !Z.opp_involutive in H. exact H.
Qed.

Ltac kind_reduce :=
  repeat match goal with
  | |- context [?a =? ?b] =>
      let v := eval vm_compute in (a =? b) in
      progress change (a =? b) with v
  end; cbv iota.

Ltac kind_reduce_in H :=
  repeat match type of H with
  | context [?a =? ?b] =>
      let v := eval vm_compute in (a =? b) in
      progress change (a =? b) with v in H
  end; cbv iota in H.

(** [is_attacked] decides whether a piece of the attacker attacks the
    square by the rules of chess. *)
Lemma is_attacked_chess b c sq :
  wf b -> occ_ok b -> all_ok b -> In c sides -> 0 <= sq < 64 ->
  is_attacked sq c b = true <-> attacked_by b c sq.
Proof.
  intros Hw Ho Ha Hc Hsq. rewrite is_attacked_attacker by assumption.
  unfold attacked_by.
  assert (Hside : c = WHITE \/ c = BLACK) by (destruct Hc as [E|[E|[]]]; auto).
  assert (Hstep : forall f p, 0 <= f < 64 -> In p kinds ->
            Z.testbit (pieces b c p) f = true ->
            ((p = PAWN /\
              (c = WHITE /\ (f = sq - 9 /\ Z.rem sq 8 <> 0 \/ f = sq - 7 /\ Z.rem sq 8 <> 7) \/
               c <> WHITE /\ (f = sq + 7 /\ Z.rem sq 8 <> 0 \/ f = sq + 9 /\ Z.rem sq 8 <> 7)) \/
              p <> PAWN /\ Z.testbit (piece_attacks b p sq) f = true) <->
             chess_attacks (occupancy b) c p f sq)).
  { intros f p Hf Hp Hb.
    destruct (attack_geometry f sq Hf Hsq) as (G1 & G2 & G3 & G4).
    cbv zeta in G1, G2, G3, G4.
    unfold chess_attacks. cbv zeta.
    rewrite <- (all_occupancy b Ho Ha).
    pose proof (rook_attacks_slides sq (all b) f Hsq Hf) as R.
    pose proof (bishop_attacks_slides sq (all b) f Hsq Hf) as B.
    rewrite <- (slides_flip (all b) f sq 1 0), <- (slides_flip (all b) f sq (-1) 0),
      <- (slides_flip (all b) f sq 0 1), <- (slides_flip (all b) f sq 0 (-1)),
      <- (slides_flip (all b) f sq 1 1), <- (slides_flip (all b) f sq 1 (-1)),
      <- (slides_flip (all b) f sq (-1) 1), <- (slides_flip (all b) f sq (-1) (-1))
      by assumption.
    change (- (1)) with (-1). change (- (-1)) with 1. change (- 0) with 0.
    clear Hb. split.
    - intros [(-> & Hpawn)|(Hnp & Ht)].
      + left. split; [reflexivity|].
        destruct Hpawn as [(-> & H)|(Hn & H)].
        * apply G1. exact H.
        * destruct Hside as [-> | ->]; [contradiction|]. apply G2. exact H.
      + right. unfold piece_attacks in Ht. cbn [In kinds] in Hp.
        destruct Hp as [<-|[<-|[<-|[<-|[<-|[<-|[]]]]]]]; [contradiction|..];
          kind_reduce_in Ht.
        * left. split; [reflexivity|]. apply G3. exact Ht.
        * right. right. right. split; [auto|]. apply B in Ht. tauto.
        * right. right. left. split; [auto|]. apply R in Ht. tauto.
        * rewrite Z.lor_spec, orb_true_iff in Ht. destruct Ht as [Ht|Ht].
          -- right. right. left. split; [auto|]. apply R in Ht. tauto.
          -- right. right. right. split; [auto|]. apply B in Ht. tauto.
        * right. left. split; [reflexivity|]. apply G4. exact Ht.
    - intros [(-> & H)|[(-> & H)|[(-> & H)|[(Hk & H)|(Hk & H)]]]].
      + left. split; [reflexivity|].
        destruct Hside as [-> | ->]; [left|right];
          (split; [first [reflexivity|discriminate]|]);
          [apply G1|apply G2]; exact H.
      + right. split; [discriminate|]. unfold piece_attacks. kind_reduce.
        apply G3. exact H.
      + right. split; [discriminate|]. unfold piece_attacks. kind_reduce.
        apply G4. exact H.
      + right. destruct Hk as [-> | ->]; (split; [discriminate|]);
          unfold piece_attacks; kind_reduce;
          rewrite ?Z.lor_spec, ?orb_true_iff; [|left]; apply R; tauto.
      + right. destruct Hk as [-> | ->]; (split; [discriminate|]);
          unfold piece_attacks; kind_reduce;
          rewrite ?Z.lor_spec, ?orb_true_iff; [|right]; apply B; tauto. }
  split.
  - intros (f & p & Hf & Hp & Hb & Hcase). exists f, p.
    split; [exact Hf|]. split; [exact Hp|]. split; [exact Hb|].
    apply Hstep; auto.
  - intros (f & p & Hf & Hp & Hb & Hcase). exists f, p.
    split; [exact Hf|]. split; [exact Hp|]. split; [exact Hb|].
    apply Hstep; auto.
Qed.
End ChessAttacks2.

Section LegalMoves.
Context {keys : ZobristKeys}.

Lemma lowest_bit_ctz x h :
  U64.in_range x -> 0 <= h < 64 -> Z.testbit x h = true ->
  (forall j, 0 <= j < h -> Z.testbit x j = false) ->
  x <> 0 /\ U64.ctzll x = h.
Proof.
  intros Hx Hh Hb Hlow.
  assert (Hnz : x <> 0).
  { intros ->. rewrite Z.bits_0 in Hb. discriminate. }
  split; [exact Hnz|].
  destruct (in_range_nonzero_ctz x Hx Hnz) as (Hr & Hc & Hl).
  destruct (Z.lt_trichotomy (U64.ctzll x) h) as [Hlt|[E|Hgt]]; [|exact E|].
  - rewrite Hlow in Hc by lia. discriminate.
  - rewrite Hl in Hb by lia. discriminate.
Qed.

(** C2: on a position whose bitboards are 64-bit words, with [occupied]
    as [update] leaves it and the en-passant square, when set, on its
    rank, a move is returned by [generateMoves], in either mode, exactly
    when it is a pseudo-legal move of that mode after which, played on a
    copy, the mover has a king and no piece of the opponent attacks the
    king's square by the rules of chess (the lowest king square, were
    there several kings).  So every returned move leaves the mover's king
    present and not attacked, and a pseudo-legal move that leaves it
    absent or attacked is filtered out. *)
Theorem generateMoves_legal (b : Board) (capturesOnly : bool) (m : Move) :
  wf b -> occ_ok b -> ep_ok b ->
  In m (generateMoves b capturesOnly) <->
  In m (pseudoMoves b capturesOnly) /\
  exists h, 0 <= h < 64 /\
    Z.testbit (pieces (makeMove b m) (side b) KING) h = true /\
    (forall j, 0 <= j < h ->
       Z.testbit (pieces (makeMove b m) (side b) KING) j = false) /\
    ~ attacked_by (makeMove b m) (1 - side b) h.
Proof.
  intros Hw Ho He. rewrite generateMoves_In, isLegalMove_spec.
  destruct (wf_side_In b Hw) as [Hs Hop].
  assert (Hafter : In m (pseudoMoves b capturesOnly) ->
            U64.in_range (pieces (makeMove b m) (side b) KING) /\
            forall h, 0 <= h < 64 ->
              (is_attacked h (1 - side b) (makeMove b m) = true <->
               attacked_by (makeMove b m) (1 - side b) h)).
  { intros Hm. pose proof (pseudoMoves_ok b capturesOnly Hw Ho) as Hall.
    rewrite Forall_forall in Hall. specialize (Hall m Hm).
    destruct (makeMove_fields b m Hw He Hall) as (Hw' & Ho' & _).
    split; [apply Hw'; auto; cbn; auto 10|].
    intros h Hh. apply is_attacked_chess; auto. apply all_ok_makeMove. }
  split.
  - intros (Hm & Hnz & Hatt). split; [exact Hm|].
    destruct (Hafter Hm) as [Hr Hiff].
    destruct (in_range_nonzero_ctz _ Hr Hnz) as (Hh & Hb & Hlow).
    exists (U64.ctzll (pieces (makeMove b m) (side b) KING)).
    split; [exact Hh|]. split; [exact Hb|]. split; [exact Hlow|].
    intros H. apply Hiff in H; [|exact Hh]. congruence.
  - intros (Hm & h & Hh & Hb & Hlow & Hna). split; [exact Hm|].
    destruct (Hafter Hm) as [Hr Hiff].
    destruct (lowest_bit_ctz _ h Hr Hh Hb Hlow) as [Hnz ->].
    split; [exact Hnz|].
    destruct (is_attacked h (1 - side b) (makeMove b m)) eqn:E; [|reflexivity].
    exfalso. apply Hna. apply Hiff; auto.
Qed.
End LegalMoves.

(** After 1. f3 e5 2. g4 Qh4 the pseudo-legal move a2-a3 is not returned:
    the queen on h4 attacks the king on e1. *)
Lemma generateMoves_legal_witness :
  In (Move_new 8 16 PAWN (-1) 0) (pseudoMoves fools_mate false) /\
  (In (Move_new 8 16 PAWN (-1) 0) (@generateMoves sample_keys fools_mate false) <->
   In (Move_new 8 16 PAWN (-1) 0) (pseudoMoves fools_mate false) /\
   exists h, 0 <= h < 64 /\
     Z.testbit (pieces (@makeMove sample_keys fools_mate (Move_new 8 16 PAWN (-1) 0))
                  (side fools_mate) KING) h = true /\
     (forall j, 0 <= j < h ->
        Z.testbit (pieces (@makeMove sample_keys fools_mate (Move_new 8 16 PAWN (-1) 0))
                     (side fools_mate) KING) j = false) /\
     ~ attacked_by (@makeMove sample_keys fools_mate (Move_new 8 16 PAWN (-1) 0))
                   (1 - side fools_mate) h).
Proof.
  split; [in_list|].
  destruct (@reachable_coherent sample_keys fools_mate reachable_fools_mate)
    as (Hw & Ho & He & _).
  exact (@generateMoves_legal sample_keys fools_mate false
           (Move_new 8 16 PAWN (-1) 0) Hw Ho He).
Defined.
(* ================================================================== *)
(** ** A rook ending: the search returns, within the killer table *)

Section LoneKing.
Context {keys : ZobristKeys}.









End LoneKing.



